(** * minimal-json-patch: pointer resolution and the patch engine

    A shallow embedding of [pointer.js], [util.js], [compare.js] and
    [index.js] (the version that exports [applyPatch]), and the properties
    of the specification settled against it.

    Conventions of the embedding.
    - A JavaScript string is a [string]: a sequence of code units below 256.
    - A JavaScript exception is the [Throw] outcome of a [result].
    - A plain object is a finite map of its own data properties
      ([gmap string _]); the order of its members is not kept, and names
      inherited from [Object.prototype] are not part of the model: a
      lookup finds own members, and an assignment makes or changes one.
      The code finds the inherited names in every object and does not
      make a member of [__proto__]. [literal_token] and [own_members]
      select the tokens and the values that stay clear of those names, and
      a property that is true of the code only there assumes them.
    - The read cursor of a [Pointer] is the list of tokens still to be read;
      [rewind] is a walk that starts again from the full token list.
    - A JSON number is an integer. The engine stores numbers and compares
      them with [===]; it computes with the numbers that array index tokens
      denote, and those are modelled exactly (no binary64 rounding). The
      code reads a token with binary64 numbers, and accepts some tokens
      that do not write an integer; a literal token is not one of them.

    The engine is embedded twice: over values ([JsonValue]), where most
    properties are stated, and over a store of mutable cells ([Heap]), where
    it can be said that the document of the caller is not written to.
    [store_simulates_values] ties the two. The pointer with its cursor, as
    the class is written, is in [Cursor], with the walks that move it. *)

From Stdlib Require Import ZArith Ascii String.
From stdpp Require Import gmap strings list fin_maps pretty.

#[local] Set Warnings "-register-all".
#[local] Open Scope string_scope.
#[local] Open Scope list_scope.
#[local] Open Scope Z_scope.

(** ** Outcomes: a value or a thrown [JsonPatchError] *)

(** The kinds of failure, one per family of [throw new JsonPatchError(...)]
    sites:
    - [InvalidPointer]: the two "bad path" throws of [validatePath];
    - [InvalidArrayIndex]: "path token is not a valid array index";
    - [PathNotObjectOrArray]: "token context should either be an array or a
      string" and "pointer leads to an element that is neither an array nor
      an object";
    - [PointerExhausted]: "pointer is already fully read";
    - [OutOfBounds]: "pointer points to an index that is out-of-bounds";
    - [NotFound]: "pointer does not lead anywhere" and "pointer points to a
      nonexistent location";
    - [TestMismatch]: every throw of [compare.js];
    - [MissingField]: "missing value" and "missing from";
    - [UnknownOperation]: "illegal op";
    - [InvalidPrefixMove]: "from pointer cannot be a prefix of path pointer".
    The guard of [applyPatch] on its second argument ("bad patch") does not
    fire: a patch is a list of operations here. *)
Inductive ErrorKind :=
  | InvalidPointer
  | InvalidArrayIndex
  | PathNotObjectOrArray
  | PointerExhausted
  | OutOfBounds
  | NotFound
  | TestMismatch
  | MissingField
  | UnknownOperation
  | InvalidPrefixMove.

(** Modelled from the spec: [json-patch-error.js] (the class
    [JsonPatchError] and its method [describe]) is not among the sources.
    The specification says that a failure is re-labelled with the operation
    that failed (the label, a colon, the underlying reason) while its kind
    is preserved. An error is its kind and the labels put in front of it. *)
Record JsonPatchError := mkError {
  kind : ErrorKind;
  labels : list string
}.

Definition error (k : ErrorKind) : JsonPatchError := mkError k [].

Definition describe (label : string) (e : JsonPatchError) : JsonPatchError :=
  mkError (kind e) (label :: labels e).

Inductive result (A : Type) :=
  | Ok (a : A)
  | Throw (e : JsonPatchError).
Arguments Ok {A} a.
Arguments Throw {A} e.

#[global] Instance result_ret : MRet result := fun A a => Ok a.
#[global] Instance result_bind : MBind result := fun A B k r =>
  match r with
  | Ok a => k a
  | Throw e => Throw e
  end.

(** [try { body } catch (e) { e.describe(label); throw e; }] *)
Definition try_describe {A} (label : string) (body : result A) : result A :=
  match body with
  | Ok a => Ok a
  | Throw e => Throw (describe label e)
  end.

(** ** The JavaScript built-ins the sources call *)

Module Js.

(** *** Strings *)

(** [s.split(sep)] for a separator of one character. *)
Fixpoint split (sep : ascii) (s : string) : list string :=
  match s with
  | EmptyString => [EmptyString]
  | String c s' =>
      if Ascii.eqb c sep then EmptyString :: split sep s'
      else match split sep s' with
           | x :: xs => String c x :: xs
           | [] => [String c EmptyString]
           end
  end.

Fixpoint drop_chars (n : nat) (s : string) : string :=
  match n, s with
  | S n', String _ s' => drop_chars n' s'
  | _, _ => s
  end.

(** [s.replace(pat, rep)] with a string pattern: only the first
    occurrence of [pat] is replaced. *)
Fixpoint replace (pat rep s : string) : string :=
  if String.prefix pat s then rep +:+ drop_chars (String.length pat) s
  else match s with
       | EmptyString => EmptyString
       | String c s' => String c (replace pat rep s')
       end.

(** *** Numbers read from strings *)

(** White space and line terminators (the ones below 256). *)
Definition is_white_space (c : ascii) : bool :=
  let n := nat_of_ascii c in
  ((9 <=? n) && (n <=? 13))%nat || (n =? 32)%nat || (n =? 160)%nat.

Fixpoint trim_start (s : string) : string :=
  match s with
  | String c s' => if is_white_space c then trim_start s' else s
  | EmptyString => EmptyString
  end.

Fixpoint all_white_space (s : string) : bool :=
  match s with
  | String c s' => is_white_space c && all_white_space s'
  | EmptyString => true
  end.

(** The value of [c] as a digit of the given radix, if it is one. *)
Definition digit_of (radix : Z) (c : ascii) : option Z :=
  let n := Z.of_nat (nat_of_ascii c) in
  let d :=
    if (48 <=? n) && (n <=? 57) then Some (n - 48)
    else if (97 <=? n) && (n <=? 102) then Some (n - 87)
    else if (65 <=? n) && (n <=? 70) then Some (n - 55)
    else None in
  match d with
  | Some v => if v <? radix then Some v else None
  | None => None
  end.

(** The longest prefix of digits of [s]: its value on top of [acc], the
    number of digits read on top of [cnt], and what follows it. *)
Fixpoint scan_digits (radix : Z) (s : string) (acc : Z) (cnt : nat)
  : Z * nat * string :=
  match s with
  | String c s' =>
      match digit_of radix c with
      | Some d => scan_digits radix s' (radix * acc + d) (S cnt)
      | None => (acc, cnt, s)
      end
  | EmptyString => (acc, cnt, EmptyString)
  end.

(** An optional sign in front of [s]. *)
Definition scan_sign (s : string) : Z * string :=
  match s with
  | String c r =>
      if Ascii.eqb c "-" then (-1, r)
      else if Ascii.eqb c "+" then (1, r)
      else (1, s)
  | EmptyString => (1, s)
  end.

(** [parseInt(s, 10)]; [None] is [NaN]. Leading white space is skipped, a
    sign is accepted, and the digits stop at the first other character. *)
Definition parseInt (s : string) : option Z :=
  let '(sign, s1) := scan_sign (trim_start s) in
  let '(n, cnt, _) := scan_digits 10 s1 0 0 in
  if (cnt =? 0)%nat then None else Some (sign * n).

(** The radix that the letter after a leading zero announces. *)
Definition radix_of (p : ascii) : option Z :=
  if Ascii.eqb p "x" || Ascii.eqb p "X" then Some 16
  else if Ascii.eqb p "o" || Ascii.eqb p "O" then Some 8
  else if Ascii.eqb p "b" || Ascii.eqb p "B" then Some 2
  else None.

(** [0x], [0o] and [0b] literals (no sign), followed by white space. *)
Definition non_decimal (s : string) : option Z :=
  match s with
  | String c (String p r) =>
      if Ascii.eqb c "0" then
        match radix_of p with
        | Some rx =>
            let '(n, cnt, rest) := scan_digits rx r 0 0 in
            if (0 <? cnt)%nat && all_white_space rest then Some n else None
        | None => None
        end
      else None
  | _ => None
  end.

(** The exponent part [e|E [+|-] digits], if [s] starts with one. [None]
    when an [e] is not followed by digits. *)
Definition scan_exponent (s : string) : option (Z * string) :=
  match s with
  | String c r =>
      if Ascii.eqb c "e" || Ascii.eqb c "E" then
        let '(sign, r1) := scan_sign r in
        let '(n, cnt, rest) := scan_digits 10 r1 0 0 in
        if (cnt =? 0)%nat then None else Some (sign * n, rest)
      else Some (0, s)
  | EmptyString => Some (0, s)
  end.

(** [Number(s)], the conversion that [==] and [!=] apply to a string
    operand. [Some (m, e)] is the number [m * 10^e]; [None] is [NaN] or an
    infinity, which no finite number equals. *)
Definition toNumber (s : string) : option (Z * Z) :=
  let s0 := trim_start s in
  if all_white_space s0 then Some (0, 0)
  else match non_decimal s0 with
  | Some n => Some (n, 0)
  | None =>
      let '(sign, s1) := scan_sign s0 in
      let '(ip, icnt, s2) := scan_digits 10 s1 0 0 in
      let '(m, fcnt, s3) :=
        match s2 with
        | String c r =>
            if Ascii.eqb c "." then scan_digits 10 r ip 0
            else (ip, 0%nat, s2)
        | EmptyString => (ip, 0%nat, s2)
        end in
      if (icnt + fcnt =? 0)%nat then None
      else match scan_exponent s3 with
           | Some (ex, rest) =>
               if all_white_space rest
               then Some (sign * m, ex - Z.of_nat fcnt)
               else None
           | None => None
           end
  end.

(** [n != s] for a number [n] and a string [s]. *)
Definition loose_neq (n : Z) (s : string) : bool :=
  match toNumber s with
  | Some (m, e) =>
      negb (if 0 <=? e then n =? m * 10 ^ e else n * 10 ^ (- e) =? m)
  | None => true
  end.

(** *** Arrays *)

(** Where [splice(start, ...)] starts in an array of length [len]. *)
Definition splice_start (len : nat) (start : Z) : nat :=
  if start <? 0 then Z.to_nat (Z.max (Z.of_nat len + start) 0)
  else Z.to_nat (Z.min start (Z.of_nat len)).

(** [a.splice(start, deleteCount, ...items)], as the new contents. *)
Definition splice {A} (a : list A) (start : Z) (deleteCount : nat)
    (items : list A) : list A :=
  let s := splice_start (length a) start in
  take s a ++ items ++ drop (s + deleteCount) a.

(** [a[i]] for a number [i]; [None] is [undefined]. *)
Definition at_index {A} (a : list A) (i : Z) : option A :=
  if i <? 0 then None else a !! Z.to_nat i.

(** *** Decimal numerals *)

Definition is_digit (c : ascii) : bool :=
  let n := nat_of_ascii c in ((48 <=? n) && (n <=? 57))%nat.

Fixpoint digits_only (s : string) : bool :=
  match s with
  | String c s' => is_digit c && digits_only s'
  | EmptyString => true
  end.

(** The number that the digits of [s] write after those that made [acc]. *)
Fixpoint decimal (s : string) (acc : Z) : Z :=
  match s with
  | String c s' => decimal s' (10 * acc + (Z.of_nat (nat_of_ascii c) - 48))
  | EmptyString => acc
  end.

End Js.

(** ** The value model ([JsonValue] of [index.d.ts]) *)

Inductive JsonValue :=
  | JNull
  | JBool (b : bool)
  | JNumber (n : Z)
  | JString (s : string)
  | JArray (a : list JsonValue)
  | JObject (o : gmap string JsonValue).

(** [util.js] *)
Definition isArray (x : JsonValue) : bool :=
  match x with JArray _ => true | _ => false end.

Definition isObject (x : JsonValue) : bool :=
  match x with JObject _ => true | _ => false end.

(** ** [pointer.js] *)

(** What [parseTokenString] returns: a property name or an array index. *)
Inductive Index :=
  | Key (k : string)
  | Idx (i : Z).

Definition validatePath (path : option string) : result unit :=
  match path with
  | None => Throw (error InvalidPointer)
  | Some EmptyString => Ok tt
  | Some (String c _) =>
      if Ascii.eqb c "/" then Ok tt else Throw (error InvalidPointer)
  end.

(** [tokenString.replace('~1', '/').replace('~0', '~')] *)
Definition decodedTokenString (tokenString : string) : string :=
  Js.replace "~0" "~" (Js.replace "~1" "/" tokenString).

Definition parseTokenString (tokenString : string) (context : JsonValue)
  : result Index :=
  match context with
  | JObject _ => Ok (Key (decodedTokenString tokenString))
  | JArray a =>
      if String.eqb tokenString "-" then Ok (Idx (Z.of_nat (length a)))
      else match Js.parseInt tokenString with
           | None => Throw (error InvalidArrayIndex)
           | Some tokenNumber =>
               if Js.loose_neq tokenNumber tokenString
               then Throw (error InvalidArrayIndex)
               else Ok (Idx tokenNumber)
           end
  | _ => Throw (error PathNotObjectOrArray)
  end.

(** [new Pointer(path)]: the token strings, the cursor at their start. A
    [path] that is absent or not a string is [None]. *)
Definition Pointer (path : option string) : result (list string) :=
  validatePath path;;
  Ok (tail (Js.split "/" (default EmptyString path))).

(** [this.isPrefixTo(anotherPointer)] *)
Fixpoint isPrefixTo (this another : list string) : bool :=
  match this with
  | [] => true
  | tokenString :: this' =>
      match another with
      | [] => false
      | other :: another' =>
          if String.eqb tokenString other then isPrefixTo this' another'
          else false
      end
  end.

(** [element[index]] among the own members of [element]; [None] is
    [undefined]. *)
Definition member (element : JsonValue) (index : Index) : option JsonValue :=
  match element, index with
  | JObject o, Key k => o !! k
  | JArray a, Idx i => Js.at_index a i
  | _, _ => None
  end.

(** ** [compare.js] *)

Definition mismatch : result unit := Throw (error TestMismatch).

Definition comparePrimitive (primitive value : JsonValue) : result unit :=
  match primitive, value with
  | JNull, JNull => Ok tt
  | JBool a, JBool b => if Bool.eqb a b then Ok tt else mismatch
  | JNumber a, JNumber b => if a =? b then Ok tt else mismatch
  | JString a, JString b => if String.eqb a b then Ok tt else mismatch
  | _, _ => mismatch
  end.

(** [compare(item, value)] with [compareObject] and [compareArray] inlined.
    The recursion descends into [value]: the loops of both helpers run over
    the members of [value] (for arrays, over the common length). The key
    tests ([in]) are tests for an own member. *)
Fixpoint compare (item value : JsonValue) {struct value} : result unit :=
  match item with
  | JObject object =>
      match value with
      | JObject vo =>
          if negb (size object =? size vo)%nat then mismatch
          else if negb (bool_decide (dom vo ⊆ dom object)) then mismatch
          else if negb (bool_decide (dom object ⊆ dom vo)) then mismatch
          else
            map_fold
              (fun valueKey v (acc : result unit) =>
                 acc;;
                 match object !! valueKey with
                 | Some x => compare x v
                 | None => mismatch
                 end)
              (Ok tt) vo
      | _ => mismatch
      end
  | JArray array =>
      match value with
      | JArray va =>
          if negb (length array =? length va)%nat then mismatch
          else
            (fix loop (va array : list JsonValue) {struct va} : result unit :=
               match va, array with
               | v :: va', x :: array' => compare x v;; loop va' array'
               | _, _ => Ok tt
               end) va array
      | _ => mismatch
      end
  | _ => comparePrimitive item value
  end.

(** ** [index.js]: the walks

    A walk takes the tokens that its pointer has not read yet.
    [pointer.isFullyRead()] is the test that none is left, and
    [pointer.readNextTokenInContext(element)] is the match on them: with
    none left it throws, otherwise the first one is decoded by
    [parseTokenString] against [element] and the others are left. *)

Fixpoint has (element : JsonValue) (pointer : list string) : result bool :=
  match pointer with
  | [] => Ok true
  | tokenString :: rest =>
      index ← parseTokenString tokenString element;
      match member element index with
      | None => Ok false
      | Some deeper => has deeper rest
      end
  end.

Fixpoint get (element : JsonValue) (pointer : list string)
  : result JsonValue :=
  match pointer with
  | [] => Ok element
  | tokenString :: rest =>
      index ← parseTokenString tokenString element;
      match member element index with
      | None => Throw (error NotFound)
      | Some deeper => get deeper rest
      end
  end.

(** The tail shared by [add], [replace] and the deep case of [remove]: a
    copy of [element] with [modifiedMember] spliced in ([deleteCount]
    elements of an array make room for it) or assigned to the property.
    The last case is not reached: [index] has been read against [element],
    a number against an array and a name against an object. The
    assignment makes or changes an own member, for every name. *)
Definition rebuild (element : JsonValue) (index : Index) (deleteCount : nat)
    (modifiedMember : JsonValue) : JsonValue :=
  match element, index with
  | JArray a, Idx i => JArray (Js.splice a i deleteCount [modifiedMember])
  | JObject o, Key k => JObject (<[k := modifiedMember]> o)
  | _, _ => element
  end.

Fixpoint add (element : JsonValue) (pointer : list string) (value : JsonValue)
  : result JsonValue :=
  match pointer with
  | [] => Throw (error PointerExhausted)
  | tokenString :: rest =>
      index ← parseTokenString tokenString element;
      modifiedMember ←
        match rest with
        | [] => Ok value
        | _ :: _ =>
            match member element index with
            | Some deeperElement =>
                if negb (isArray deeperElement) && negb (isObject deeperElement)
                then Throw (error PathNotObjectOrArray)
                else add deeperElement rest value
            | None => Throw (error PathNotObjectOrArray)
            end
        end;
      match element, index with
      | JArray a, Idx i =>
          if Z.of_nat (length a) <? i then Throw (error OutOfBounds)
          else Ok (rebuild element index 0 modifiedMember)
      | _, _ => Ok (rebuild element index 0 modifiedMember)
      end
  end.

Fixpoint replace (element : JsonValue) (pointer : list string)
    (value : JsonValue) : result JsonValue :=
  match pointer with
  | [] => Throw (error PointerExhausted)
  | tokenString :: rest =>
      index ← parseTokenString tokenString element;
      modifiedMember ←
        match rest with
        | [] => Ok value
        | _ :: _ =>
            match member element index with
            | Some deeperElement =>
                if negb (isArray deeperElement) && negb (isObject deeperElement)
                then Throw (error PathNotObjectOrArray)
                else replace deeperElement rest value
            | None => Throw (error PathNotObjectOrArray)
            end
        end;
      Ok (rebuild element index 1 modifiedMember)
  end.

(** The final case of [remove]: a copy of [element] without the member. *)
Definition without (element : JsonValue) (index : Index) : JsonValue :=
  match element, index with
  | JArray a, Idx i => JArray (Js.splice a i 1 [])
  | JObject o, Key k => JObject (delete k o)
  | _, _ => element
  end.

Fixpoint remove (element : JsonValue) (pointer : list string)
  : result JsonValue :=
  match pointer with
  | [] => Throw (error PointerExhausted)
  | tokenString :: rest =>
      index ← parseTokenString tokenString element;
      match rest with
      | [] =>
          match member element index with
          | None => Throw (error NotFound)
          | Some _ => Ok (without element index)
          end
      | _ :: _ =>
          match member element index with
          | Some deeperElement =>
              if negb (isArray deeperElement) && negb (isObject deeperElement)
              then Throw (error PathNotObjectOrArray)
              else
                modifiedMember ← remove deeperElement rest;
                Ok (rebuild element index 1 modifiedMember)
          | None => Throw (error PathNotObjectOrArray)
          end
      end
  end.

(** ** [index.js]: operations and patches *)

(** An operation object, as [index.d.ts] types it. [op] is the operation
    name (any other string is an unrecognised one), and a member that is
    absent is [None]. A [path] that is not a string is [None] as well: the
    constructor of [Pointer] throws for both. A [from] is a string or is
    absent; an operation whose [from] is present and not a string is not
    an operation of the model. *)
Record Operation := mkOperation {
  op : string;
  path : option string;
  from : option string;
  value : option JsonValue
}.

(** [operation.path === ''] *)
Definition is_root (path : option string) : bool :=
  bool_decide (path = Some EmptyString).

Definition applyOperation (document : JsonValue) (operation : Operation)
  : result JsonValue :=
  if String.eqb (op operation) "add" then
    try_describe "add failed"
      match value operation with
      | None => Throw (error MissingField)
      | Some v =>
          if is_root (path operation) then Ok v
          else
            pointer ← Pointer (path operation);
            add document pointer v
      end
  else if String.eqb (op operation) "copy" then
    try_describe "copy failed"
      match from operation with
      | None => Throw (error MissingField)
      | Some f =>
          fromPointer ← Pointer (Some f);
          v ← get document fromPointer;
          if is_root (path operation) then Ok v
          else
            pointer ← Pointer (path operation);
            add document pointer v
      end
  else if String.eqb (op operation) "move" then
    try_describe "move failed"
      match from operation with
      | None => Throw (error MissingField)
      | Some f =>
          if bool_decide (Some f = path operation) then Ok document
          else
            fromPointer ← Pointer (Some f);
            pathPointer ← Pointer (path operation);
            if isPrefixTo fromPointer pathPointer
            then Throw (error InvalidPrefixMove)
            else
              v ← get document fromPointer;
              if is_root (path operation) then Ok v
              else
                document' ← replace document pathPointer v;
                if isPrefixTo pathPointer fromPointer then Ok document'
                else remove document' fromPointer
      end
  else if String.eqb (op operation) "remove" then
    try_describe "remove failed"
      (if is_root (path operation) then Ok JNull
       else
         pointer ← Pointer (path operation);
         remove document pointer)
  else if String.eqb (op operation) "replace" then
    try_describe "replace failed"
      match value operation with
      | None => Throw (error MissingField)
      | Some v =>
          if is_root (path operation) then Ok v
          else
            pathPointer ← Pointer (path operation);
            found ← has document pathPointer;
            if negb found then Throw (error NotFound)
            else replace document pathPointer v
      end
  else if String.eqb (op operation) "test" then
    try_describe "test failed"
      match value operation with
      | None => Throw (error MissingField)
      | Some v =>
          pointer ← Pointer (path operation);
          target ← get document pointer;
          compare v target;;
          Ok document
      end
  else Throw (error UnknownOperation).

Fixpoint applyPatch (document : JsonValue) (patch : list Operation)
  : result JsonValue :=
  match patch with
  | [] => Ok document
  | operation :: rest =>
      document' ← applyOperation document operation;
      applyPatch document' rest
  end.

(** The six operation objects. *)
Definition op_add (p : string) (v : JsonValue) : Operation :=
  mkOperation "add" (Some p) None (Some v).
Definition op_remove (p : string) : Operation :=
  mkOperation "remove" (Some p) None None.
Definition op_replace (p : string) (v : JsonValue) : Operation :=
  mkOperation "replace" (Some p) None (Some v).
Definition op_move (f p : string) : Operation :=
  mkOperation "move" (Some p) (Some f) None.
Definition op_copy (f p : string) : Operation :=
  mkOperation "copy" (Some p) (Some f) None.
Definition op_test (p : string) (v : JsonValue) : Operation :=
  mkOperation "test" (Some p) None (Some v).

(** ** Notions the properties are stated with *)

(** The pointer string [P] resolves to an existing value of [D]: it is a
    well-formed pointer and [get] returns a value along it. *)
Definition resolves (D : JsonValue) (P : string) : bool :=
  match Pointer (Some P) ≫= get D with
  | Ok _ => true
  | Throw _ => false
  end.

(** Every container that [pointer] is walked through before its last token
    is an object, and the last token, when it is read against an array, is
    read as an index that is not negative and is not the token "-". *)
Fixpoint through_objects (element : JsonValue) (pointer : list string)
  : bool :=
  match pointer with
  | [] => false
  | tokenString :: rest =>
      match rest with
      | [] =>
          match element with
          | JObject _ => true
          | JArray _ =>
              negb (String.eqb tokenString "-")
              && match parseTokenString tokenString element with
                 | Ok (Idx i) => 0 <=? i
                 | _ => false
                 end
          | _ => false
          end
      | _ :: _ =>
          match element, parseTokenString tokenString element with
          | JObject _, Ok index =>
              match member element index with
              | Some deeper => through_objects deeper rest
              | None => false
              end
          | _, _ => false
          end
      end
  end.

Definition plain_path (D : JsonValue) (P : string) : bool :=
  match Pointer (Some P) with
  | Ok pointer => through_objects D pointer
  | Throw _ => false
  end.

(** ** What the model leaves out, and the inputs on which that shows

    An object of JavaScript inherits the properties of [Object.prototype]:
    [element[index]] and [key in object] find them in every object, and
    the assignment [newElement[index] = modifiedMember] runs the setter of
    the prototype when [index] is the name [__proto__] and [newElement]
    has no member of that name. The numbers of JavaScript are binary64
    numbers: a token that does not write an integer can still compare
    equal to the integer that [parseInt] reads in it. [member], [rebuild]
    and [compare] know own members only, and [Js.loose_neq] is exact.

    The predicates of this part select the tokens and the values on which
    the code does what the model does. A property whose truth depends on
    it assumes them. *)

(** The names of the properties of [Object.prototype]. *)
Definition inherited_names : list string :=
  ["__defineGetter__"; "__defineSetter__"; "__lookupGetter__";
   "__lookupSetter__"; "__proto__"; "constructor"; "hasOwnProperty";
   "isPrototypeOf"; "propertyIsEnumerable"; "toLocaleString"; "toString";
   "valueOf"].

(** A name that no object inherits: where an object has it, it is a member
    of the object. *)
Definition own_name (name : string) : bool :=
  bool_decide (name ∉ inherited_names).

(** A token that the code reads as the model does, against an object and
    against an array: the name that it decodes to is not inherited, and it
    is "-", a string of decimal digits, or a string in which [parseInt]
    finds no number. *)
Definition literal_token (tokenString : string) : bool :=
  own_name (decodedTokenString tokenString)
  && (String.eqb tokenString "-"
      || Js.digits_only tokenString
      || match Js.parseInt tokenString with
         | None => true
         | Some _ => false
         end).

Definition literal_tokens (pointer : list string) : bool :=
  forallb literal_token pointer.

(** The tokens of the pointer string [P] are literal (a string that is not
    a pointer has no token). *)
Definition literal_path (P : string) : bool :=
  match Pointer (Some P) with
  | Ok pointer => literal_tokens pointer
  | Throw _ => true
  end.

(** No object of the value [j], at any depth, has a member with an
    inherited name. *)
Fixpoint own_members (j : JsonValue) : bool :=
  match j with
  | JArray a => forallb own_members a
  | JObject o =>
      map_fold (fun k x (acc : bool) => acc && own_name k && own_members x)
        true o
  | _ => true
  end.

(** ** Where a pointer leads, in the words of the specification

    These definitions do not follow the code. They say where the tokens of
    a pointer lead in a document as RFC 6901 and section 4.1 of the
    specification have it: a token that is read against an object is
    unescaped, every "~1" to "/" and then every "~0" to "~", and names a
    member of the object; a token that is read against an array is the
    decimal numeral, without leading zeros, of an index of the array. *)

(** Every occurrence of "~" followed by [c] becomes [rep]. *)
Fixpoint spec_unescape_with (c rep : ascii) (s : string) : string :=
  match s with
  | String a s' =>
      match s' with
      | String b r =>
          if Ascii.eqb a "~" && Ascii.eqb b c
          then String rep (spec_unescape_with c rep r)
          else String a (spec_unescape_with c rep s')
      | EmptyString => s
      end
  | EmptyString => EmptyString
  end.

Definition spec_unescape (tokenString : string) : string :=
  spec_unescape_with "0" "~" (spec_unescape_with "1" "/" tokenString).

(** A decimal numeral without leading zeros. *)
Definition canonical (tokenString : string) : bool :=
  Js.digits_only tokenString
  && match tokenString with
     | EmptyString => false
     | String c rest => negb (Ascii.eqb c "0") || String.eqb rest ""
     end.

Definition spec_index (tokenString : string) : option nat :=
  if canonical tokenString then Some (Z.to_nat (Js.decimal tokenString 0))
  else None.

(** The value that the tokens lead to in [D]; [None] when they lead to no
    value of [D]. *)
Fixpoint spec_locate (D : JsonValue) (tokens : list string)
  : option JsonValue :=
  match tokens with
  | [] => Some D
  | tokenString :: rest =>
      match D with
      | JObject o =>
          match o !! spec_unescape tokenString with
          | Some deeper => spec_locate deeper rest
          | None => None
          end
      | JArray a =>
          match spec_index tokenString with
          | Some i =>
              match a !! i with
              | Some deeper => spec_locate deeper rest
              | None => None
              end
          | None => None
          end
      | _ => None
      end
  end.


(** A token that the code reads as the specification does: it decodes it
    to the name that the specification unescapes it to, that name is not
    inherited, and it is "-", a decimal numeral without leading zeros, or
    a string in which [parseInt] finds no number. *)
Definition as_specified (tokenString : string) : bool :=
  own_name (decodedTokenString tokenString)
  && String.eqb (decodedTokenString tokenString) (spec_unescape tokenString)
  && (String.eqb tokenString "-"
      || canonical tokenString
      || match Js.parseInt tokenString with
         | None => true
         | Some _ => false
         end).



(** ** The same engine over a store of mutable arrays and objects

    In JavaScript a document is a primitive or a reference to an array or an
    object that lives in the heap, and [splice], assignment to a property
    and [delete] update such an object in place. This second embedding
    keeps the store explicit: it is the one in which it can be said that an
    object of the caller is not written to. *)

Module Heap.

(** A JavaScript value: a primitive or a reference into the store. *)
Inductive Value :=
  | VNull
  | VBool (b : bool)
  | VNumber (n : Z)
  | VString (s : string)
  | VRef (l : nat).

Inductive Cell :=
  | CArray (a : list Value)
  | CObject (o : gmap string Value).

(** The store: the cell of reference [l] is at position [l]. *)
Abbreviation Store := (list Cell).

(** What can be thrown: a [JsonPatchError], or the [RangeError] of the
    engine when the recursion of [compare] does not end (cyclic values). *)
Inductive Exception :=
  | OfJsonPatchError (e : JsonPatchError)
  | RangeError.

Inductive outcome (A : Type) :=
  | Return (a : A)
  | Raise (x : Exception).
Arguments Return {A} a.
Arguments Raise {A} x.

#[global] Instance outcome_ret : MRet outcome := fun A a => Return a.
#[global] Instance outcome_bind : MBind outcome := fun A B k r =>
  match r with
  | Return a => k a
  | Raise x => Raise x
  end.

Definition throw {A} (k : ErrorKind) : outcome A :=
  Raise (OfJsonPatchError (error k)).

(** Computations that may allocate and update cells. *)
Definition M (A : Type) : Type := Store -> Store * outcome A.

#[global] Instance M_ret : MRet M := fun A a s => (s, Return a).
#[global] Instance M_bind : MBind M := fun A B k m s =>
  match m s with
  | (s', Return a) => k a s'
  | (s', Raise x) => (s', Raise x)
  end.

(** A computation that only reads the store. *)
Definition read {A} (f : Store -> outcome A) : M A := fun s => (s, f s).

Definition raise {A} (k : ErrorKind) : M A := read (fun _ => throw k).

(** A new cell, as [[...element]] and [{ ...element }] make one. *)
Definition alloc (c : Cell) : M nat := fun s => (s ++ [c], Return (length s)).

(** An update in place of the cell of reference [l]. *)
Definition update (l : nat) (f : Cell -> Cell) : M unit :=
  fun s => (alter f l s, Return tt).

(** [try { body } catch (e) { if (e instanceof JsonPatchError)
    e.describe(label); throw e; }] *)
Definition try_describe {A} (label : string) (body : M A) : M A := fun s =>
  match body s with
  | (s', Raise (OfJsonPatchError e)) =>
      (s', Raise (OfJsonPatchError (describe label e)))
  | r => r
  end.

Definition deref (s : Store) (v : Value) : option Cell :=
  match v with
  | VRef l => s !! l
  | _ => None
  end.

Definition isArray (s : Store) (x : Value) : bool :=
  match deref s x with Some (CArray _) => true | _ => false end.

Definition isObject (s : Store) (x : Value) : bool :=
  match deref s x with Some (CObject _) => true | _ => false end.

Definition parseTokenString (s : Store) (tokenString : string)
    (context : Value) : outcome Index :=
  match deref s context with
  | Some (CObject _) => Return (Key (decodedTokenString tokenString))
  | Some (CArray a) =>
      if String.eqb tokenString "-" then Return (Idx (Z.of_nat (length a)))
      else match Js.parseInt tokenString with
           | None => throw InvalidArrayIndex
           | Some tokenNumber =>
               if Js.loose_neq tokenNumber tokenString
               then throw InvalidArrayIndex
               else Return (Idx tokenNumber)
           end
  | None => throw PathNotObjectOrArray
  end.

Definition validatePath (path : option string) : outcome unit :=
  match path with
  | None => throw InvalidPointer
  | Some EmptyString => Return tt
  | Some (String c _) =>
      if Ascii.eqb c "/" then Return tt else throw InvalidPointer
  end.

Definition Pointer (path : option string) : outcome (list string) :=
  validatePath path;;
  Return (tail (Js.split "/" (default EmptyString path))).

(** [element[index]]; [None] is [undefined]. *)
Definition member (s : Store) (element : Value) (index : Index)
  : option Value :=
  match deref s element, index with
  | Some (CObject o), Key k => o !! k
  | Some (CArray a), Idx i => Js.at_index a i
  | _, _ => None
  end.

Definition mismatch : outcome unit := throw TestMismatch.

(** [primitive !== value] throws; two references are equal when they are
    the same reference. *)
Definition comparePrimitive (primitive value : Value) : outcome unit :=
  match primitive, value with
  | VNull, VNull => Return tt
  | VBool a, VBool b => if Bool.eqb a b then Return tt else mismatch
  | VNumber a, VNumber b => if a =? b then Return tt else mismatch
  | VString a, VString b => if String.eqb a b then Return tt else mismatch
  | VRef a, VRef b => if (a =? b)%nat then Return tt else mismatch
  | _, _ => mismatch
  end.

(** [compare(item, value)]. The store may hold cyclic values, on which the
    recursion does not end: [fuel] bounds its depth, and running out of it
    is the [RangeError] of a call stack that overflows. *)
Fixpoint compare (fuel : nat) (s : Store) (item value : Value)
  : outcome unit :=
  match fuel with
  | O => Raise RangeError
  | S fuel' =>
      match deref s item with
      | Some (CObject object) =>
          match deref s value with
          | Some (CObject vo) =>
              if negb (size object =? size vo)%nat then mismatch
              else if negb (bool_decide (dom vo ⊆ dom object)) then mismatch
              else if negb (bool_decide (dom object ⊆ dom vo)) then mismatch
              else
                map_fold
                  (fun valueKey v (acc : outcome unit) =>
                     acc;;
                     match object !! valueKey with
                     | Some x => compare fuel' s x v
                     | None => mismatch
                     end)
                  (Return tt) vo
          | _ => mismatch
          end
      | Some (CArray array) =>
          match deref s value with
          | Some (CArray va) =>
              if negb (length array =? length va)%nat then mismatch
              else
                foldl
                  (fun (acc : outcome unit) xv =>
                     acc;; compare fuel' s xv.1 xv.2)
                  (Return tt) (zip array va)
          | _ => mismatch
          end
      | None => comparePrimitive item value
      end
  end.

Fixpoint has (s : Store) (element : Value) (pointer : list string)
  : outcome bool :=
  match pointer with
  | [] => Return true
  | tokenString :: rest =>
      index ← parseTokenString s tokenString element;
      match member s element index with
      | None => Return false
      | Some deeper => has s deeper rest
      end
  end.

Fixpoint get (s : Store) (element : Value) (pointer : list string)
  : outcome Value :=
  match pointer with
  | [] => Return element
  | tokenString :: rest =>
      index ← parseTokenString s tokenString element;
      match member s element index with
      | None => throw NotFound
      | Some deeper => get s deeper rest
      end
  end.

(** [newElement.splice(index, deleteCount, ...items)] and
    [newElement[index] = modifiedMember], on the cell of [newElement]. *)
Definition splice_cell (index : Index) (deleteCount : nat)
    (items : list Value) (c : Cell) : Cell :=
  match c, index with
  | CArray a, Idx i => CArray (Js.splice a i deleteCount items)
  | _, _ => c
  end.

Definition assign_cell (index : Index) (modifiedMember : Value) (c : Cell)
  : Cell :=
  match c, index with
  | CObject o, Key k => CObject (<[k := modifiedMember]> o)
  | _, _ => c
  end.

(** [delete newElement[index]] *)
Definition delete_cell (index : Index) (c : Cell) : Cell :=
  match c, index with
  | CObject o, Key k => CObject (delete k o)
  | _, _ => c
  end.

(** The tail shared by [add], [replace] and the deep case of [remove]: a
    copy of [element] is made, and the copy is updated. The last case is
    not reached: a token has been read against [element], which throws
    unless [element] is an array or an object. *)
Definition rebuild (element : Value) (index : Index) (deleteCount : nat)
    (modifiedMember : Value) : M Value := fun s =>
  match deref s element with
  | Some (CArray a) =>
      (newElement ← alloc (CArray a);
       update newElement (splice_cell index deleteCount [modifiedMember]);;
       mret (VRef newElement)) s
  | Some (CObject o) =>
      (newElement ← alloc (CObject o);
       update newElement (assign_cell index modifiedMember);;
       mret (VRef newElement)) s
  | None => (s, throw PathNotObjectOrArray)
  end.

Definition exceeds (s : Store) (element : Value) (index : Index) : bool :=
  match deref s element, index with
  | Some (CArray a), Idx i => Z.of_nat (length a) <? i
  | _, _ => false
  end.

Fixpoint add (element : Value) (pointer : list string) (value : Value)
  : M Value :=
  match pointer with
  | [] => raise PointerExhausted
  | tokenString :: rest =>
      index ← read (fun s : Store => parseTokenString s tokenString element);
      modifiedMember ←
        match rest with
        | [] => mret value
        | _ :: _ =>
            deeperElement ← read (fun s : Store =>
              Return (member s element index));
            match deeperElement with
            | Some deeperElement =>
                container ← read (fun s : Store =>
                  Return (isArray s deeperElement || isObject s deeperElement));
                if negb (container : bool)
                then raise PathNotObjectOrArray
                else add deeperElement rest value
            | None => raise PathNotObjectOrArray
            end
        end;
      tooFar ← read (fun s : Store => Return (exceeds s element index));
      if (tooFar : bool) then raise OutOfBounds
      else rebuild element index 0 modifiedMember
  end.

Fixpoint replace (element : Value) (pointer : list string) (value : Value)
  : M Value :=
  match pointer with
  | [] => raise PointerExhausted
  | tokenString :: rest =>
      index ← read (fun s : Store => parseTokenString s tokenString element);
      modifiedMember ←
        match rest with
        | [] => mret value
        | _ :: _ =>
            deeperElement ← read (fun s : Store =>
              Return (member s element index));
            match deeperElement with
            | Some deeperElement =>
                container ← read (fun s : Store =>
                  Return (isArray s deeperElement || isObject s deeperElement));
                if negb (container : bool)
                then raise PathNotObjectOrArray
                else replace deeperElement rest value
            | None => raise PathNotObjectOrArray
            end
        end;
      rebuild element index 1 modifiedMember
  end.

(** The final case of [remove]: a copy of [element], and the member is
    spliced out of the copy or deleted from it. *)
Definition without (element : Value) (index : Index) : M Value := fun s =>
  match deref s element with
  | Some (CArray a) =>
      (newElement ← alloc (CArray a);
       update newElement (splice_cell index 1 []);;
       mret (VRef newElement)) s
  | Some (CObject o) =>
      (newElement ← alloc (CObject o);
       update newElement (delete_cell index);;
       mret (VRef newElement)) s
  | None => (s, throw PathNotObjectOrArray)
  end.

Fixpoint remove (element : Value) (pointer : list string) : M Value :=
  match pointer with
  | [] => raise PointerExhausted
  | tokenString :: rest =>
      index ← read (fun s : Store => parseTokenString s tokenString element);
      deeperElement ← read (fun s : Store =>
        Return (member s element index));
      match rest with
      | [] =>
          match deeperElement with
          | None => raise NotFound
          | Some _ => without element index
          end
      | _ :: _ =>
          match deeperElement with
          | Some deeperElement =>
              container ← read (fun s : Store =>
                Return (isArray s deeperElement || isObject s deeperElement));
              if negb (container : bool)
              then raise PathNotObjectOrArray
              else
                modifiedMember ← remove deeperElement rest;
                rebuild element index 1 modifiedMember
          | None => raise PathNotObjectOrArray
          end
      end
  end.

(** An operation object; its [value] is a value of the store. *)
Record Operation := mkOperation {
  op : string;
  path : option string;
  from : option string;
  value : option Value
}.

Definition applyOperation (document : Value) (operation : Operation)
  : M Value :=
  if String.eqb (op operation) "add" then
    try_describe "add failed"
      match value operation with
      | None => raise MissingField
      | Some v =>
          if is_root (path operation) then mret v
          else
            pointer ← read (fun _ : Store => Pointer (path operation));
            add document pointer v
      end
  else if String.eqb (op operation) "copy" then
    try_describe "copy failed"
      match from operation with
      | None => raise MissingField
      | Some f =>
          fromPointer ← read (fun _ : Store => Pointer (Some f));
          v ← read (fun s : Store => get s document fromPointer);
          if is_root (path operation) then mret v
          else
            pointer ← read (fun _ : Store => Pointer (path operation));
            add document pointer v
      end
  else if String.eqb (op operation) "move" then
    try_describe "move failed"
      match from operation with
      | None => raise MissingField
      | Some f =>
          if bool_decide (Some f = path operation) then mret document
          else
            fromPointer ← read (fun _ : Store => Pointer (Some f));
            pathPointer ← read (fun _ : Store => Pointer (path operation));
            if isPrefixTo fromPointer pathPointer
            then raise InvalidPrefixMove
            else
              v ← read (fun s : Store => get s document fromPointer);
              if is_root (path operation) then mret v
              else
                document' ← replace document pathPointer v;
                if isPrefixTo pathPointer fromPointer then mret document'
                else remove document' fromPointer
      end
  else if String.eqb (op operation) "remove" then
    try_describe "remove failed"
      (if is_root (path operation) then mret VNull
       else
         pointer ← read (fun _ : Store => Pointer (path operation));
         remove document pointer)
  else if String.eqb (op operation) "replace" then
    try_describe "replace failed"
      match value operation with
      | None => raise MissingField
      | Some v =>
          if is_root (path operation) then mret v
          else
            pathPointer ← read (fun _ : Store => Pointer (path operation));
            found ← read (fun s : Store => has s document pathPointer);
            if negb (found : bool) then raise NotFound
            else replace document pathPointer v
      end
  else if String.eqb (op operation) "test" then
    try_describe "test failed"
      match value operation with
      | None => raise MissingField
      | Some v =>
          pointer ← read (fun _ : Store => Pointer (path operation));
          target ← read (fun s : Store => get s document pointer);
          read (fun s : Store => compare (S (length s)) s v target);;
          mret document
      end
  else raise UnknownOperation.

Fixpoint applyPatch (document : Value) (patch : list Operation) : M Value :=
  match patch with
  | [] => mret document
  | operation :: rest =>
      document' ← applyOperation document operation;
      applyPatch document' rest
  end.

(** A computation keeps the store it starts from: the store it ends with
    is that store followed by new cells. No cell that was there is written
    to. *)
Definition keeps_store {A} (m : M A) : Prop :=
  forall s s' r, m s = (s', r) -> s `prefix_of` s'.

End Heap.

(** The number of nodes of a value. *)
Fixpoint json_size (j : JsonValue) : nat :=
  match j with
  | JArray a => S (foldr (fun x n => json_size x + n)%nat O a)
  | JObject o => S (map_fold (fun _ x n => json_size x + n)%nat O o)
  | _ => 1%nat
  end.

(** ** The two embeddings side by side *)

(** The value that a JavaScript value stands for in a store. *)
Inductive denotes (s : list Heap.Cell) : Heap.Value -> JsonValue -> Prop :=
  | denotes_null : denotes s Heap.VNull JNull
  | denotes_bool b : denotes s (Heap.VBool b) (JBool b)
  | denotes_number n : denotes s (Heap.VNumber n) (JNumber n)
  | denotes_string t : denotes s (Heap.VString t) (JString t)
  | denotes_array l a ja :
      s !! l = Some (Heap.CArray a) ->
      Forall2 (denotes s) a ja ->
      denotes s (Heap.VRef l) (JArray ja)
  | denotes_object l o jo :
      s !! l = Some (Heap.CObject o) ->
      (forall k, option_Forall2 (denotes s) (o !! k) (jo !! k)) ->
      denotes s (Heap.VRef l) (JObject jo).

(** An operation object of the store model stands for an operation. *)
Definition denotes_operation (s : list Heap.Cell) (h : Heap.Operation)
    (o : Operation) : Prop :=
  Heap.op h = op o /\ Heap.path h = path o /\ Heap.from h = from o
  /\ option_Forall2 (denotes s) (Heap.value h) (value o).

(** The outcome [h] in the store model is the outcome [p] over values, up
    to [R] on what is returned. *)
Definition agrees {A B} (R : A -> B -> Prop) (h : Heap.outcome A)
    (p : result B) : Prop :=
  match p, h with
  | Ok b, Heap.Return a => R a b
  | Throw e, Heap.Raise (Heap.OfJsonPatchError e') => e' = e
  | _, _ => False
  end.

(** The computation [m], run in [s], keeps [s] and ends as [p] does. *)
Definition simulates {A B} (R : list Heap.Cell -> A -> B -> Prop)
    (s : list Heap.Cell) (m : Heap.M A) (p : result B) : Prop :=
  exists s' r, m s = (s', r) /\ s `prefix_of` s' /\ agrees (R s') r p.

(** What a call of [compare] in the store may end as, given the value model:
    as over values, or out of stack. *)
Definition compare_agrees (h : Heap.outcome unit) (p : result unit) : Prop :=
  h = Heap.Raise Heap.RangeError \/ agrees (fun _ _ => True) h p.

(** ** Further notions the properties are stated with *)

(** The last token of [pointer] is read against an array of [D] and counts
    from the end of that array: it is "-" or a negative number. *)
Definition counts_from_end (D : JsonValue) (pointer : list string) : bool :=
  match get D (removelast pointer), last pointer with
  | Ok (JArray a), Some tokenString =>
      match parseTokenString tokenString (JArray a) with
      | Ok (Idx i) => String.eqb tokenString "-" || (i <? 0)
      | _ => false
      end
  | _, _ => false
  end.

(** The operation names of the [switch] of [applyOperation]. *)
Definition operation_names : list string :=
  ["add"; "copy"; "move"; "remove"; "replace"; "test"].

(** The kinds of failure that an operation named [name] can end with. *)
Definition throws (name : string) : list ErrorKind :=
  if String.eqb name "add" then
    [MissingField; InvalidPointer; InvalidArrayIndex; PathNotObjectOrArray;
     OutOfBounds]
  else if String.eqb name "copy" then
    [MissingField; InvalidPointer; InvalidArrayIndex; PathNotObjectOrArray;
     NotFound; OutOfBounds]
  else if String.eqb name "move" then
    [MissingField; InvalidPointer; InvalidArrayIndex; PathNotObjectOrArray;
     NotFound; InvalidPrefixMove]
  else if String.eqb name "remove" then
    [InvalidPointer; InvalidArrayIndex; PathNotObjectOrArray; NotFound]
  else if String.eqb name "replace" then
    [MissingField; InvalidPointer; InvalidArrayIndex; PathNotObjectOrArray;
     NotFound]
  else if String.eqb name "test" then
    [MissingField; InvalidPointer; InvalidArrayIndex; PathNotObjectOrArray;
     NotFound; TestMismatch]
  else [UnknownOperation].

(** The labels of a failure of an operation named [name]: the one that the
    [catch] of its case puts, none in the default case. *)
Definition failure_labels (name : string) : list string :=
  if bool_decide (name ∈ operation_names) then [name +:+ " failed"] else [].

(** No character of [s] is [c]. *)
Fixpoint lacks (c : ascii) (s : string) : bool :=
  match s with
  | EmptyString => true
  | String c' s' => negb (Ascii.eqb c' c) && lacks c s'
  end.

(** The pointer string that is read as the token strings [tokenStrings]:
    each of them after a "/". *)
Fixpoint pointer_string (tokenStrings : list string) : string :=
  match tokenStrings with
  | [] => EmptyString
  | tokenString :: rest => String "/" (tokenString +:+ pointer_string rest)
  end.

(** A computation of the store model that makes [n] cells when it returns,
    and at most [n] cells when it throws. *)
Definition makes_cells {A} (n : nat) (m : Heap.M A) : Prop :=
  forall s s' r, m s = (s', r) ->
    match r with
    | Heap.Return _ => length s' = (length s + n)%nat
    | Heap.Raise _ => (length s' <= length s + n)%nat
    end.

(** ** The cursor of a pointer

    [pointer.js] and the walks of [index.js] as they are written: a pointer
    is its token strings and the index of the next token to read, and a
    walk moves the cursor of the pointer that it is given. What moves the
    cursor returns the pointer as it leaves it. The depth of the recursion
    of a walk is bounded by [fuel]; [None] is a walk that has not returned
    within it. *)

Module Cursor.

Record Pointer := mkPointer {
  tokenStrings : list string;
  nextTokenIndex : nat
}.

(** [new Pointer(path)] *)
Definition new (path : option string) : result Pointer :=
  validatePath path;;
  Ok (mkPointer (tail (Js.split "/" (default EmptyString path))) 0).

(** [this.isPrefixTo(anotherPointer)]: the loop over
    [this.tokenStrings.entries()]. *)
Definition isPrefixTo (this anotherPointer : Pointer) : bool :=
  forallb
    (fun entry : nat * string =>
       match tokenStrings anotherPointer !! entry.1 with
       | Some other => String.eqb entry.2 other
       | None => false
       end)
    (imap pair (tokenStrings this)).

Definition tokensLeft (this : Pointer) : Z :=
  Z.of_nat (length (tokenStrings this)) - Z.of_nat (nextTokenIndex this).

Definition isFullyRead (this : Pointer) : bool := tokensLeft this <=? 0.

Definition readNextTokenInContext (this : Pointer) (contextItem : JsonValue)
  : Pointer * result Index :=
  match tokenStrings this !! nextTokenIndex this with
  | None => (this, Throw (error PointerExhausted))
  | Some tokenString =>
      (mkPointer (tokenStrings this) (S (nextTokenIndex this)),
       parseTokenString tokenString contextItem)
  end.

Definition rewind (this : Pointer) : Pointer :=
  mkPointer (tokenStrings this) 0.

(** The token strings that the cursor has not passed. *)
Definition unread (this : Pointer) : list string :=
  drop (nextTokenIndex this) (tokenStrings this).

(** A walk: the pointer as the walk leaves it, and what the walk returns
    or throws. *)
Definition Walk (A : Type) : Type := option (Pointer * result A).

Fixpoint has (fuel : nat) (element : JsonValue) (pointer : Pointer)
  : Walk bool :=
  match fuel with
  | O => None
  | S fuel' =>
      if isFullyRead pointer then Some (pointer, Ok true)
      else
        let '(pointer, index) := readNextTokenInContext pointer element in
        match index with
        | Throw e => Some (pointer, Throw e)
        | Ok index =>
            match member element index with
            | None => Some (pointer, Ok false)
            | Some deeper => has fuel' deeper pointer
            end
        end
  end.

Fixpoint get (fuel : nat) (element : JsonValue) (pointer : Pointer)
  : Walk JsonValue :=
  match fuel with
  | O => None
  | S fuel' =>
      if isFullyRead pointer then Some (pointer, Ok element)
      else
        let '(pointer, index) := readNextTokenInContext pointer element in
        match index with
        | Throw e => Some (pointer, Throw e)
        | Ok index =>
            match member element index with
            | None => Some (pointer, Throw (error NotFound))
            | Some deeper => get fuel' deeper pointer
            end
        end
  end.

(** The end of [add]: the bound on the index, then the copy. *)
Definition inserted (element : JsonValue) (index : Index)
    (modifiedMember : JsonValue) : result JsonValue :=
  match element, index with
  | JArray a, Idx i =>
      if Z.of_nat (length a) <? i then Throw (error OutOfBounds)
      else Ok (rebuild element index 0 modifiedMember)
  | _, _ => Ok (rebuild element index 0 modifiedMember)
  end.

Fixpoint add (fuel : nat) (element : JsonValue) (pointer : Pointer)
    (value : JsonValue) : Walk JsonValue :=
  match fuel with
  | O => None
  | S fuel' =>
      let '(pointer, index) := readNextTokenInContext pointer element in
      match index with
      | Throw e => Some (pointer, Throw e)
      | Ok index =>
          let modifiedMember :=
            if isFullyRead pointer then Some (pointer, Ok value)
            else
              match member element index with
              | Some deeperElement =>
                  if negb (isArray deeperElement)
                     && negb (isObject deeperElement)
                  then Some (pointer, Throw (error PathNotObjectOrArray))
                  else add fuel' deeperElement pointer value
              | None => Some (pointer, Throw (error PathNotObjectOrArray))
              end in
          match modifiedMember with
          | None => None
          | Some (pointer, Throw e) => Some (pointer, Throw e)
          | Some (pointer, Ok modifiedMember) =>
              Some (pointer, inserted element index modifiedMember)
          end
      end
  end.

Fixpoint replace (fuel : nat) (element : JsonValue) (pointer : Pointer)
    (value : JsonValue) : Walk JsonValue :=
  match fuel with
  | O => None
  | S fuel' =>
      let '(pointer, index) := readNextTokenInContext pointer element in
      match index with
      | Throw e => Some (pointer, Throw e)
      | Ok index =>
          let modifiedMember :=
            if isFullyRead pointer then Some (pointer, Ok value)
            else
              match member element index with
              | Some deeperElement =>
                  if negb (isArray deeperElement)
                     && negb (isObject deeperElement)
                  then Some (pointer, Throw (error PathNotObjectOrArray))
                  else replace fuel' deeperElement pointer value
              | None => Some (pointer, Throw (error PathNotObjectOrArray))
              end in
          match modifiedMember with
          | None => None
          | Some (pointer, Throw e) => Some (pointer, Throw e)
          | Some (pointer, Ok modifiedMember) =>
              Some (pointer, Ok (rebuild element index 1 modifiedMember))
          end
      end
  end.

Fixpoint remove (fuel : nat) (element : JsonValue) (pointer : Pointer)
  : Walk JsonValue :=
  match fuel with
  | O => None
  | S fuel' =>
      let '(pointer, index) := readNextTokenInContext pointer element in
      match index with
      | Throw e => Some (pointer, Throw e)
      | Ok index =>
          if isFullyRead pointer then
            match member element index with
            | None => Some (pointer, Throw (error NotFound))
            | Some _ => Some (pointer, Ok (without element index))
            end
          else
            match member element index with
            | Some deeperElement =>
                if negb (isArray deeperElement)
                   && negb (isObject deeperElement)
                then Some (pointer, Throw (error PathNotObjectOrArray))
                else
                  match remove fuel' deeperElement pointer with
                  | None => None
                  | Some (pointer, Throw e) => Some (pointer, Throw e)
                  | Some (pointer, Ok modifiedMember) =>
                      Some (pointer,
                            Ok (rebuild element index 1 modifiedMember))
                  end
            | None => Some (pointer, Throw (error PathNotObjectOrArray))
            end
      end
  end.

(** Fuel for a walk along [pointer]: a walk calls itself once for each
    token that it reads. *)
Definition enough (pointer : Pointer) : nat :=
  S (length (tokenStrings pointer)).

(** What a walk returns or throws, the pointer left aside. *)
Definition outcome_of {A} (w : Walk A) : option (result A) :=
  match w with
  | Some (_, r) => Some r
  | None => None
  end.

(** [try { body } catch (e) { e.describe(label); throw e; }] around a body
    that may not return. *)
Definition try_describe {A} (label : string) (body : option (result A))
  : option (result A) :=
  match body with
  | Some (Throw e) => Some (Throw (describe label e))
  | r => r
  end.

Definition applyOperation (document : JsonValue) (operation : Operation)
  : option (result JsonValue) :=
  if String.eqb (op operation) "add" then
    try_describe "add failed"
      match value operation with
      | None => Some (Throw (error MissingField))
      | Some v =>
          if is_root (path operation) then Some (Ok v)
          else
            match new (path operation) with
            | Throw e => Some (Throw e)
            | Ok pointer =>
                outcome_of (add (enough pointer) document pointer v)
            end
      end
  else if String.eqb (op operation) "copy" then
    try_describe "copy failed"
      match from operation with
      | None => Some (Throw (error MissingField))
      | Some f =>
          match new (Some f) with
          | Throw e => Some (Throw e)
          | Ok fromPointer =>
              match get (enough fromPointer) document fromPointer with
              | None => None
              | Some (_, Throw e) => Some (Throw e)
              | Some (_, Ok v) =>
                  if is_root (path operation) then Some (Ok v)
                  else
                    match new (path operation) with
                    | Throw e => Some (Throw e)
                    | Ok pointer =>
                        outcome_of (add (enough pointer) document pointer v)
                    end
              end
          end
      end
  else if String.eqb (op operation) "move" then
    try_describe "move failed"
      match from operation with
      | None => Some (Throw (error MissingField))
      | Some f =>
          if bool_decide (Some f = path operation) then Some (Ok document)
          else
            match new (Some f) with
            | Throw e => Some (Throw e)
            | Ok fromPointer =>
                match new (path operation) with
                | Throw e => Some (Throw e)
                | Ok pathPointer =>
                    if isPrefixTo fromPointer pathPointer
                    then Some (Throw (error InvalidPrefixMove))
                    else
                      match get (enough fromPointer) document fromPointer with
                      | None => None
                      | Some (_, Throw e) => Some (Throw e)
                      | Some (fromPointer, Ok v) =>
                          if is_root (path operation) then Some (Ok v)
                          else
                            match replace (enough pathPointer) document
                                    pathPointer v with
                            | None => None
                            | Some (_, Throw e) => Some (Throw e)
                            | Some (pathPointer, Ok document') =>
                                if isPrefixTo pathPointer fromPointer
                                then Some (Ok document')
                                else
                                  let fromPointer := rewind fromPointer in
                                  outcome_of
                                    (remove (enough fromPointer) document'
                                       fromPointer)
                            end
                      end
                end
            end
      end
  else if String.eqb (op operation) "remove" then
    try_describe "remove failed"
      (if is_root (path operation) then Some (Ok JNull)
       else
         match new (path operation) with
         | Throw e => Some (Throw e)
         | Ok pointer => outcome_of (remove (enough pointer) document pointer)
         end)
  else if String.eqb (op operation) "replace" then
    try_describe "replace failed"
      match value operation with
      | None => Some (Throw (error MissingField))
      | Some v =>
          if is_root (path operation) then Some (Ok v)
          else
            match new (path operation) with
            | Throw e => Some (Throw e)
            | Ok pathPointer =>
                match has (enough pathPointer) document pathPointer with
                | None => None
                | Some (_, Throw e) => Some (Throw e)
                | Some (pathPointer, Ok found) =>
                    if negb found then Some (Throw (error NotFound))
                    else
                      let pathPointer := rewind pathPointer in
                      outcome_of
                        (replace (enough pathPointer) document pathPointer v)
                end
            end
      end
  else if String.eqb (op operation) "test" then
    try_describe "test failed"
      match value operation with
      | None => Some (Throw (error MissingField))
      | Some v =>
          match new (path operation) with
          | Throw e => Some (Throw e)
          | Ok pointer =>
              match get (enough pointer) document pointer with
              | None => None
              | Some (_, Throw e) => Some (Throw e)
              | Some (_, Ok target) =>
                  match compare v target with
                  | Throw e => Some (Throw e)
                  | Ok _ => Some (Ok document)
                  end
              end
          end
      end
  else Some (Throw (error UnknownOperation)).

Fixpoint applyPatch (document : JsonValue) (patch : list Operation)
  : option (result JsonValue) :=
  match patch with
  | [] => Some (Ok document)
  | operation :: rest =>
      match applyOperation document operation with
      | None => None
      | Some (Throw e) => Some (Throw e)
      | Some (Ok document') => applyPatch document' rest
      end
  end.

End Cursor.

(** * Properties *)

(** ** The built-ins on examples *)

Example split_root : Js.split "/" "" = [""].
Proof. reflexivity. Qed.
Example split_slash : Js.split "/" "/" = [""; ""].
Proof. reflexivity. Qed.
Example split_two : Js.split "/" "/a/b" = [""; "a"; "b"].
Proof. reflexivity. Qed.
Example replace_first_only : Js.replace "~1" "/" "a~1b~1c" = "a/b~1c".
Proof. reflexivity. Qed.
Example parseInt_lead : Js.parseInt " -12ab" = Some (-12).
Proof. reflexivity. Qed.
Example parseInt_nan : Js.parseInt "x1" = None.
Proof. reflexivity. Qed.
Example toNumber_exp : Js.toNumber "1.50e2 " = Some (150, 0).
Proof. reflexivity. Qed.
Example toNumber_hex : Js.toNumber "0x1f" = Some (31, 0).
Proof. reflexivity. Qed.
Example toNumber_nan : Js.toNumber "1a" = None.
Proof. reflexivity. Qed.
Example loose_neq_fraction : Js.loose_neq 1 "1.5" = true.
Proof. reflexivity. Qed.
Example splice_insert : Js.splice [1; 2; 3] 1 0 [9] = [1; 9; 2; 3].
Proof. reflexivity. Qed.
Example splice_replace : Js.splice [1; 2; 3] 1 1 [9] = [1; 9; 3].
Proof. reflexivity. Qed.
Example splice_negative : Js.splice [1; 2; 3] (-1) 0 [9] = [1; 2; 9; 3].
Proof. reflexivity. Qed.
Example splice_beyond : Js.splice [1; 2; 3] 7 1 [9] = [1; 2; 3; 9].
Proof. reflexivity. Qed.

(** ** The scenarios of [test.js] and of the specification *)

Example scenario_insert :
  applyPatch (JArray [JString "a"; JString "c"]) [op_add "/1" (JString "b")]
  = Ok (JArray [JString "a"; JString "b"; JString "c"]).
Proof. reflexivity. Qed.

Example scenario_append :
  applyPatch (JArray []) [op_add "/-" (JString "a")]
  = Ok (JArray [JString "a"]).
Proof. reflexivity. Qed.

Example scenario_replace_deep :
  applyPatch
    (JObject {[ "a" := JObject {[ "b" := JObject {[ "c" := JNumber 41 ]} ]} ]})
    [op_replace "/a/b/c" (JNumber 42)]
  = Ok (JObject {[ "a" := JObject {[ "b" := JObject {[ "c" := JNumber 42 ]} ]} ]}).
Proof. vm_compute. reflexivity. Qed.

Example scenario_prefix_move :
  applyPatch (JObject {[ "a" := JObject {[ "b" := JNumber 1 ]} ]})
    [op_move "/a" "/a/b"]
  = Throw (mkError InvalidPrefixMove ["move failed"]).
Proof. vm_compute. reflexivity. Qed.

Example scenario_test_then_remove :
  applyPatch (JObject {[ "a" := JNumber 1 ]})
    [op_test "/a" (JNumber 1); op_remove "/a"]
  = Ok (JObject ∅)
  ∧ applyPatch (JObject {[ "a" := JNumber 1 ]})
      [op_test "/a" (JNumber 2); op_remove "/a"]
    = Throw (mkError TestMismatch ["test failed"]).
Proof. split; vm_compute; reflexivity. Qed.

Example scenario_move_object :
  applyPatch
    (JObject {[ "a" := JObject {[ "b" := JObject {[ "c" := JNumber 123 ]} ]} ]})
    [op_move "/a/b/c" "/a/b/d"]
  = applyPatch
      (JObject {[ "a" := JObject {[ "b" := JObject {[ "c" := JNumber 123 ]} ]} ]})
      [op_remove "/a/b/c"; op_add "/a/b/d" (JNumber 123)].
Proof. vm_compute. reflexivity. Qed.

Example scenario_move_missing_source :
  applyPatch (JObject {[ "a" := JNumber 1 ]}) [op_move "/b" "/a"]
  = Throw (mkError NotFound ["move failed"]).
Proof. reflexivity. Qed.

Example scenario_add_missing_parent :
  applyPatch (JObject {[ "q" := JObject {[ "bar" := JNumber 2 ]} ]})
    [op_add "/a/b" (JNumber 2)]
  = Throw (mkError PathNotObjectOrArray ["add failed"]).
Proof. reflexivity. Qed.

Example scenario_unknown_operation :
  applyPatch (JObject ∅) [mkOperation "illegal" (Some "/a") None (Some JNull)]
  = Throw (error UnknownOperation).
Proof. reflexivity. Qed.

(** ** Root removal, the empty patch and the pointer "/" *)

(** C8. Removing the document root succeeds for every document and returns
    [null]. *)
Theorem remove_root_returns_null (D : JsonValue) :
  applyPatch D [op_remove ""] = Ok JNull.
Proof. reflexivity. Qed.

(** C9. The empty patch is an identity: [applyPatch] returns the document it
    was given; in the store model it returns the very same reference and
    leaves the store as it was. *)
Theorem empty_patch_identity :
  (∀ D : JsonValue, applyPatch D [] = Ok D)
  ∧ (∀ (s : list Heap.Cell) (document : Heap.Value),
       Heap.applyPatch document [] s = (s, Heap.Return document)).
Proof. split; reflexivity. Qed.

Lemma Pointer_slash : Pointer (Some "/") = Ok [""].
Proof. reflexivity. Qed.

(** C10. The pointer "/" is the single token that is the empty string, and
    against an object that has a member of that name the operations with
    path "/" work on that member: [get] reads it, [remove] deletes it,
    [replace] and [add] overwrite it. *)
Theorem slash_addresses_empty_key
    (o : gmap string JsonValue) (v w : JsonValue) :
  o !! "" = Some v →
  Pointer (Some "/") = Ok [""]
  ∧ get (JObject o) [""] = Ok v
  ∧ applyPatch (JObject o) [op_remove "/"] = Ok (JObject (delete "" o))
  ∧ applyPatch (JObject o) [op_replace "/" w] = Ok (JObject (<["" := w]> o))
  ∧ applyPatch (JObject o) [op_add "/" w] = Ok (JObject (<["" := w]> o))
  ∧ applyPatch (JObject {[ "" := v ]}) [op_remove "/"] = Ok (JObject ∅).
Proof.
  intros Hv. split; [reflexivity|].
  assert (Hm : member (JObject o) (Key "") = Some v) by exact Hv.
  split_and!.
  - cbn. change (o !! "") with (member (JObject o) (Key "")). by rewrite Hm.
  - cbn. change (o !! "") with (member (JObject o) (Key "")). by rewrite Hm.
  - cbn. change (o !! "") with (member (JObject o) (Key "")). by rewrite Hm.
  - reflexivity.
  - cbn. rewrite lookup_singleton_eq. cbn. by rewrite delete_singleton_eq.
Qed.

Lemma slash_addresses_empty_key_witness :
  applyPatch (JObject {[ "" := JNumber 7 ]}) [op_remove "/"]
  = Ok (JObject (delete "" ({[ "" := JNumber 7 ]} : gmap string JsonValue))).
Proof.
  apply (slash_addresses_empty_key {[ "" := JNumber 7 ]} (JNumber 7) JNull).
  vm_compute. reflexivity.
Defined.

(** ** Token decoding *)

Example unescape_tilde (o : gmap string JsonValue) :
  parseTokenString "~0" (JObject o) = Ok (Key "~")
  ∧ parseTokenString "~1" (JObject o) = Ok (Key "/")
  ∧ parseTokenString "~0~1" (JObject o) = Ok (Key "~/")
  ∧ parseTokenString "~01" (JObject o) = Ok (Key "~1").
Proof. split_and!; reflexivity. Qed.

(** C4. [parseTokenString] decodes a token read against an object with two
    calls of [String.prototype.replace] on a string pattern, and such a call
    replaces the first occurrence only: in the token [a~1b~1c] the second
    [~1] stays, the key that is looked up is [a/b~1c], and the member
    [a/b/c] cannot be addressed. *)
Theorem unescape_first_occurrence_only :
  (∀ o : gmap string JsonValue,
     parseTokenString "a~1b~1c" (JObject o) = Ok (Key "a/b~1c"))
  ∧ (∀ o : gmap string JsonValue,
       parseTokenString "~0~0" (JObject o) = Ok (Key "~~0"))
  ∧ applyPatch (JObject {[ "a/b/c" := JNumber 1 ]}) [op_remove "/a~1b~1c"]
    = Throw (mkError NotFound ["remove failed"]).
Proof. split_and!; reflexivity. Qed.

(** C3. The check of an array index is [tokenNumber != tokenString], a loose
    comparison that converts the string to a number: a token is accepted as
    soon as [parseInt] and [Number] agree on it. Tokens with a leading zero,
    a sign, white space or a fraction of zero are accepted, and a patch
    using one of them is applied. *)
Theorem noncanonical_index_accepted :
  (∀ a : list JsonValue, parseTokenString "01" (JArray a) = Ok (Idx 1))
  ∧ (∀ a : list JsonValue, parseTokenString "+1" (JArray a) = Ok (Idx 1))
  ∧ (∀ a : list JsonValue, parseTokenString "-1" (JArray a) = Ok (Idx (-1)))
  ∧ (∀ a : list JsonValue, parseTokenString " 1" (JArray a) = Ok (Idx 1))
  ∧ (∀ a : list JsonValue, parseTokenString "1.0" (JArray a) = Ok (Idx 1))
  ∧ applyPatch (JArray [JString "a"; JString "b"]) [op_remove "/01"]
    = Ok (JArray [JString "a"]).
Proof. split_and!; reflexivity. Qed.

Example index_rejected (a : list JsonValue) :
  parseTokenString "1a" (JArray a) = Throw (error InvalidArrayIndex)
  ∧ parseTokenString "x" (JArray a) = Throw (error InvalidArrayIndex)
  ∧ parseTokenString "" (JArray a) = Throw (error InvalidArrayIndex)
  ∧ parseTokenString "1.5" (JArray a) = Throw (error InvalidArrayIndex)
  ∧ parseTokenString "1e1" (JArray a) = Throw (error InvalidArrayIndex).
Proof. split_and!; reflexivity. Qed.

(** ** Move *)

(** C2. [move] writes the value with [replace], not with [add]: when the
    target is an array index the element that is there is overwritten, not
    shifted. On ["a","b","c"], moving "/0" to "/1" gives ["a","c"], while
    removing "/0" and adding the value at "/1" gives ["b","a","c"]. *)
Theorem move_overwrites_array_element :
  let D := JArray [JString "a"; JString "b"; JString "c"] in
  Pointer (Some "/0") = Ok ["0"]
  ∧ Pointer (Some "/1") = Ok ["1"]
  ∧ isPrefixTo ["0"] ["1"] = false
  ∧ get D ["0"] = Ok (JString "a")
  ∧ applyPatch D [op_move "/0" "/1"] = Ok (JArray [JString "a"; JString "c"])
  ∧ applyPatch D [op_remove "/0"; op_add "/1" (JString "a")]
    = Ok (JArray [JString "b"; JString "a"; JString "c"]).
Proof. split_and!; reflexivity. Qed.

(** ** Decimal numerals as array indices *)

Section Numerals.

Local Open Scope nat_scope.

Lemma is_digit_facts c :
  Js.is_digit c = true →
  Js.is_white_space c = false
  ∧ Ascii.eqb c "-" = false ∧ Ascii.eqb c "+" = false
  ∧ Ascii.eqb c "." = false ∧ Ascii.eqb c "/" = false
  ∧ Js.radix_of c = None
  ∧ Js.digit_of 10 c = Some (Z.of_nat (nat_of_ascii c) - 48)%Z.
Proof.
  destruct c as [[] [] [] [] [] [] [] []]; intros H;
    try discriminate H; split_and!; reflexivity.
Qed.

Lemma pretty_N_char_digit d :
  (d < 10)%N →
  Js.is_digit (pretty_N_char d) = true
  ∧ (Z.of_nat (nat_of_ascii (pretty_N_char d)) - 48)%Z = Z.of_N d.
Proof.
  intros Hd.
  assert (d = 0 ∨ d = 1 ∨ d = 2 ∨ d = 3 ∨ d = 4 ∨ d = 5
          ∨ d = 6 ∨ d = 7 ∨ d = 8 ∨ d = 9)%N as Hcases by lia.
  repeat destruct Hcases as [->|Hcases]; subst; split; reflexivity.
Qed.

Lemma scan_digits_decimal t acc cnt :
  Js.digits_only t = true →
  Js.scan_digits 10 t acc cnt
  = (Js.decimal t acc, cnt + String.length t, EmptyString).
Proof.
  revert acc cnt. induction t as [|c t IH]; intros acc cnt Ht; simpl in *.
  - by rewrite Nat.add_0_r.
  - apply andb_prop in Ht as [Hc Ht].
    destruct (is_digit_facts c Hc) as (_ & _ & _ & _ & _ & _ & ->).
    rewrite IH by done. f_equal. f_equal. lia.
Qed.

Lemma pretty_N_go_digits x s :
  Js.digits_only s = true → Js.digits_only (pretty_N_go x s) = true.
Proof.
  revert s. induction (N.lt_wf_0 x) as [x _ IH]; intros s Hs.
  destruct (decide (x = 0)%N) as [->|Hx]; [done|].
  rewrite pretty_N_go_step by lia. apply IH.
  - apply N.div_lt; lia.
  - simpl. rewrite Hs, andb_true_r.
    apply pretty_N_char_digit, N.mod_lt. lia.
Qed.

Lemma pretty_N_go_decimal x s :
  Js.decimal (pretty_N_go x s) 0 = Js.decimal s (Z.of_N x).
Proof.
  revert s. induction (N.lt_wf_0 x) as [x _ IH]; intros s.
  destruct (decide (x = 0)%N) as [->|Hx]; [done|].
  rewrite pretty_N_go_step by lia. rewrite IH by (apply N.div_lt; lia).
  simpl. f_equal.
  destruct (pretty_N_char_digit (x `mod` 10)%N) as [_ ->];
    [apply N.mod_lt; lia|].
  rewrite (N.div_mod x 10) at 3 by lia. lia.
Qed.

Lemma pretty_N_go_nonempty x s :
  s ≠ EmptyString → pretty_N_go x s ≠ EmptyString.
Proof.
  revert s. induction (N.lt_wf_0 x) as [x _ IH]; intros s Hs.
  destruct (decide (x = 0)%N) as [->|Hx]; [done|].
  rewrite pretty_N_go_step by lia. apply IH; [apply N.div_lt; lia|done].
Qed.

(** The numeral of a natural number: digits only, at least one, and they
    write that number. *)
Lemma pretty_nat_numeral (i : nat) :
  Js.digits_only (pretty i) = true
  ∧ pretty i ≠ EmptyString
  ∧ Js.decimal (pretty i) 0 = Z.of_nat i.
Proof.
  unfold pretty, pretty_nat, pretty, pretty_N.
  destruct (decide (N.of_nat i = 0)%N) as [H0|Hn].
  - split_and!; [done..|]. change (0%Z = Z.of_nat i). lia.
  - split_and!.
    + by apply pretty_N_go_digits.
    + assert (0 < N.of_nat i)%N by lia.
      rewrite pretty_N_go_step by done. by apply pretty_N_go_nonempty.
    + rewrite pretty_N_go_decimal. simpl. lia.
Qed.

(** What the built-ins make of a string of digits. *)
Lemma numeral_read t :
  Js.digits_only t = true → t ≠ EmptyString →
  String.eqb t "-" = false
  ∧ Js.parseInt t = Some (Js.decimal t 0)
  ∧ Js.toNumber t = Some (Js.decimal t 0, 0%Z).
Proof.
  intros Ht Hne. destruct t as [|c t]; [done|].
  pose proof (scan_digits_decimal _ 0%Z 0 Ht) as Hscan.
  simpl in Ht. apply andb_prop in Ht as [Hc Ht].
  destruct (is_digit_facts c Hc) as (Hws & Hminus & Hplus & Hdot & _ & Hrx & Hd).
  assert (Htrim : Js.trim_start (String c t) = String c t)
    by (simpl; by rewrite Hws).
  assert (Hall : Js.all_white_space (String c t) = false)
    by (simpl; by rewrite Hws).
  assert (Hsign : Js.scan_sign (String c t) = (1%Z, String c t))
    by (unfold Js.scan_sign; by rewrite Hminus, Hplus).
  assert (Hnd : Js.non_decimal (String c t) = None).
  { unfold Js.non_decimal. destruct t as [|p t']; [done|].
    destruct (Ascii.eqb c "0"); [|done].
    simpl in Ht. apply andb_prop in Ht as [Hp _].
    by destruct (is_digit_facts p Hp) as (_ & _ & _ & _ & _ & -> & _). }
  split_and!.
  - apply String.eqb_neq. intros [= -> _]. discriminate Hminus.
  - unfold Js.parseInt. rewrite Htrim, Hsign, Hscan.
    cbn [Nat.add String.length Nat.eqb]. f_equal. lia.
  - unfold Js.toNumber. rewrite Htrim, Hall, Hnd, Hsign, Hscan.
    cbn [Nat.add String.length Nat.eqb Js.scan_exponent Js.all_white_space].
    f_equal. f_equal; lia.
Qed.

(** Against an array, the numeral of [i] is read as the index [i]. *)
Lemma parseTokenString_numeral (i : nat) (a : list JsonValue) :
  parseTokenString (pretty i) (JArray a) = Ok (Idx (Z.of_nat i)).
Proof.
  destruct (pretty_nat_numeral i) as (Hd & Hne & Hval).
  destruct (numeral_read _ Hd Hne) as (Hdash & Hint & Hnum).
  unfold parseTokenString. rewrite Hdash, Hint.
  unfold Js.loose_neq. rewrite Hnum, Hval. simpl.
  rewrite Z.mul_1_r, Z.eqb_refl. done.
Qed.

Lemma split_numeral t :
  Js.digits_only t = true → Js.split "/" t = [t].
Proof.
  induction t as [|c t IH]; [done|]. simpl. intros [Hc Ht]%andb_prop.
  destruct (is_digit_facts c Hc) as (_ & _ & _ & _ & -> & _).
  by rewrite IH.
Qed.

Lemma Pointer_numeral (i : nat) :
  Pointer (Some (String "/" (pretty i))) = Ok [pretty i].
Proof.
  destruct (pretty_nat_numeral i) as (Hd & _ & _).
  unfold Pointer. cbn. by rewrite split_numeral.
Qed.

End Numerals.

(** ** Adding into an array *)

Lemma splice_insert_at {A} (a : list A) (i : nat) (x : A) :
  (i ≤ length a)%nat →
  Js.splice a (Z.of_nat i) 0 [x] = take i a ++ x :: drop i a.
Proof.
  intros Hi. unfold Js.splice, Js.splice_start.
  destruct (Z.ltb_spec (Z.of_nat i) 0); [lia|].
  rewrite Z.min_l, Nat2Z.id, Nat.add_0_r by lia. done.
Qed.

Lemma add_final_array (a : list JsonValue) (t : string) (i : Z)
    (v : JsonValue) :
  parseTokenString t (JArray a) = Ok (Idx i) →
  add (JArray a) [t] v
  = if Z.of_nat (length a) <? i then Throw (error OutOfBounds)
    else Ok (JArray (Js.splice a i 0 [v])).
Proof. intros Ht. cbn [add]. rewrite Ht. done. Qed.

(** C7. Adding into an array [A] with the final token of the path: the
    token "-" appends the value; the numeral of an index [i] that is at most
    the length of [A] inserts the value before position [i], the elements
    from there on moving one place to the right; the numeral of a larger
    index fails with [OutOfBounds]. This is what the walk [add] does against
    [A] wherever [A] is in the document, and what [applyPatch] does when [A]
    is the document. In particular, adding at "/4" into [[1, 2]] fails with
    [OutOfBounds]. *)
Theorem add_into_array (A : list JsonValue) (v : JsonValue) (i : nat) :
  add (JArray A) ["-"] v = Ok (JArray (A ++ [v]))
  ∧ add (JArray A) [pretty i] v
    = (if (i <=? length A)%nat
       then Ok (JArray (take i A ++ v :: drop i A))
       else Throw (error OutOfBounds))
  ∧ applyPatch (JArray A) [op_add "/-" v] = Ok (JArray (A ++ [v]))
  ∧ applyPatch (JArray A) [op_add (String "/" (pretty i)) v]
    = (if (i <=? length A)%nat
       then Ok (JArray (take i A ++ v :: drop i A))
       else Throw (mkError OutOfBounds ["add failed"]))
  ∧ applyPatch (JArray [JNumber 1; JNumber 2]) [op_add "/4" (JString "d")]
    = Throw (mkError OutOfBounds ["add failed"]).
Proof.
  assert (Hdash : add (JArray A) ["-"] v = Ok (JArray (A ++ [v]))).
  { cbn. rewrite Z.ltb_irrefl. cbn. unfold Js.splice, Js.splice_start.
    destruct (Z.ltb_spec (Z.of_nat (length A)) 0); [lia|].
    rewrite Z.min_id, Nat2Z.id, Nat.add_0_r, take_ge, drop_ge by lia.
    by rewrite app_nil_r. }
  assert (Hnum : add (JArray A) [pretty i] v
                 = (if (i <=? length A)%nat
                    then Ok (JArray (take i A ++ v :: drop i A))
                    else Throw (error OutOfBounds))).
  { rewrite (add_final_array A _ (Z.of_nat i))
      by apply parseTokenString_numeral.
    destruct (Nat.leb_spec i (length A)).
    - destruct (Z.ltb_spec (Z.of_nat (length A)) (Z.of_nat i)); [lia|].
      by rewrite splice_insert_at.
    - destruct (Z.ltb_spec (Z.of_nat (length A)) (Z.of_nat i)); [|lia].
      reflexivity. }
  split_and!; [done|done| | |reflexivity].
  - change (applyPatch (JArray A) [op_add "/-" v])
      with (try_describe "add failed" (add (JArray A) ["-"] v)
            ≫= λ d, Ok d).
    by rewrite Hdash.
  - unfold applyPatch, applyOperation. cbn [op op_add String.eqb value path].
    change (is_root (Some (String "/" (pretty i)))) with false.
    rewrite Pointer_numeral. cbn [mbind result_bind]. rewrite Hnum.
    by destruct (i <=? length A)%nat.
Qed.

(** ** Errors carry no label until an operation describes them *)


Lemma Pointer_throw p e : Pointer p = Throw e → e = error InvalidPointer.
Proof.
  unfold Pointer, validatePath. intros H.
  repeat case_match; simplify_eq/=; done.
Qed.


(** ** Tokens and values on which the code does what the model does *)

Example literal_token_examples :
  literal_token "a" = true
  ∧ literal_token "" = true
  ∧ literal_token "-" = true
  ∧ literal_token "01" = true
  ∧ literal_token "toString" = false
  ∧ literal_token "__proto__" = false
  ∧ literal_token "1.0" = false
  ∧ literal_token "0.1e-400" = false
  ∧ literal_token "+1" = false.
Proof. split_and!; reflexivity. Qed.

Example as_specified_examples :
  as_specified "a~1b" = true
  ∧ as_specified "~01" = true
  ∧ as_specified "10" = true
  ∧ as_specified "a~1b~1c" = false
  ∧ as_specified "01" = false
  ∧ as_specified "constructor" = false.
Proof. split_and!; reflexivity. Qed.

Example own_members_examples :
  own_members (JObject {[ "a" := JArray [JObject {[ "b" := JNull ]}] ]}) = true
  ∧ own_members (JObject {[ "a" := JArray [JObject {[ "toString" := JNull ]}] ]})
    = false
  ∧ own_members (JObject {[ "__proto__" := JNumber 5 ]}) = false.
Proof. split_and!; reflexivity. Qed.

Example spec_locate_examples :
  spec_locate (JObject {[ "a/b/c" := JNumber 1 ]}) ["a~1b~1c"]
  = Some (JNumber 1)
  ∧ spec_locate (JArray [JString "a"; JString "b"]) ["01"] = None
  ∧ spec_locate (JArray [JString "a"; JString "b"]) ["1"]
    = Some (JString "b")
  ∧ spec_locate (JArray [JString "a"; JString "b"]) ["-"] = None
  ∧ spec_locate (JObject ∅) ["toString"] = None.
Proof. split_and!; reflexivity. Qed.

(** ** The source of a move *)


Section Source.

#[local] Arguments parseTokenString : simpl never.
#[local] Arguments Js.at_index : simpl never.








End Source.



(** ** Adding and then removing *)


(** Unless the token is "-", how it is read does not depend on what the
    array holds. *)
Lemma parseTokenString_array_indep t a a' :
  String.eqb t "-" = false →
  parseTokenString t (JArray a') = parseTokenString t (JArray a).
Proof. unfold parseTokenString. by intros ->. Qed.


Section Roundtrip.

#[local] Arguments parseTokenString : simpl never.
#[local] Arguments Js.splice : simpl never.
#[local] Arguments Js.at_index : simpl never.


Lemma walk_object_equations o t t' rest V :
  let k := decodedTokenString t in
  get (JObject o) (t :: t' :: rest)
  = match o !! k with
    | Some deeper => get deeper (t' :: rest)
    | None => Throw (error NotFound)
    end
  ∧ add (JObject o) (t :: t' :: rest) V
    = match o !! k with
      | Some deeper =>
          if negb (isArray deeper) && negb (isObject deeper)
          then Throw (error PathNotObjectOrArray)
          else m ← add deeper (t' :: rest) V; Ok (JObject (<[k := m]> o))
      | None => Throw (error PathNotObjectOrArray)
      end
  ∧ remove (JObject o) (t :: t' :: rest)
    = match o !! k with
      | Some deeper =>
          if negb (isArray deeper) && negb (isObject deeper)
          then Throw (error PathNotObjectOrArray)
          else m ← remove deeper (t' :: rest); Ok (JObject (<[k := m]> o))
      | None => Throw (error PathNotObjectOrArray)
      end
  ∧ through_objects (JObject o) (t :: t' :: rest)
    = match o !! k with
      | Some deeper => through_objects deeper (t' :: rest)
      | None => false
      end.
Proof.
  split_and!; try reflexivity.
  - cbn [add]. unfold parseTokenString. cbn [mbind result_bind member].
    destruct (o !! _); [|done]. by destruct (_ && _).
Qed.

Lemma last_object_equations o t V :
  let k := decodedTokenString t in
  get (JObject o) [t]
  = match o !! k with
    | Some deeper => Ok deeper
    | None => Throw (error NotFound)
    end
  ∧ add (JObject o) [t] V = Ok (JObject (<[k := V]> o))
  ∧ remove (JObject o) [t]
    = match o !! k with
      | Some _ => Ok (JObject (delete k o))
      | None => Throw (error NotFound)
      end.
Proof. split_and!; reflexivity. Qed.


End Roundtrip.


(** The walk of [add] through an array splices the rebuilt member in
    front of the one it was built from. *)
Example add_through_array_duplicates :
  applyPatch (JArray [JObject ∅]) [op_add "/0/a" (JNumber 1)]
  = Ok (JArray [JObject {[ "a" := JNumber 1 ]}; JObject ∅]).
Proof. reflexivity. Qed.



(** ** Atomicity: a patch never writes to the document it is given *)

Section Frame.

Import Heap.

Lemma keeps_ret {A} (a : A) : keeps_store (mret a : M A).
Proof. intros s s' r [= <- _]. done. Qed.

Lemma keeps_read {A} (f : Store → outcome A) : keeps_store (read f).
Proof. intros s s' r [= <- _]. done. Qed.

Lemma keeps_raise {A} (k : ErrorKind) : keeps_store (raise k : M A).
Proof. apply keeps_read. Qed.

Lemma keeps_bind {A B} (m : M A) (k : A → M B) :
  keeps_store m → (∀ a, keeps_store (k a)) → keeps_store (m ≫= k).
Proof.
  intros Hm Hk s s' r. unfold mbind, M_bind.
  destruct (m s) as [s1 [a|x]] eqn:Hms.
  - intros Hka. etrans; [by eapply Hm|by eapply Hk].
  - intros [= <- _]. by eapply Hm.
Qed.

Lemma keeps_try_describe {A} label (m : M A) :
  keeps_store m → keeps_store (try_describe label m).
Proof.
  intros Hm s s' r. unfold try_describe.
  destruct (m s) as [s1 [a|[e|]]] eqn:Hms; intros [= <- _]; by eapply Hm.
Qed.

(** A copy is made and the copy is updated: the update falls on the new
    cell. *)
Lemma keeps_copy_update (c : Cell) (f : Cell → Cell) :
  keeps_store (newElement ← alloc c;
               update newElement f;;
               mret (VRef newElement)).
Proof.
  intros s s' r. unfold mbind, M_bind, alloc, update, mret, M_ret.
  intros [= <- _].
  rewrite (alter_app_r_alt f s [c] (length s)) by lia.
  by apply prefix_app_r.
Qed.

Lemma keeps_rebuild element index deleteCount modifiedMember :
  keeps_store (rebuild element index deleteCount modifiedMember).
Proof.
  intros s s' r. unfold rebuild.
  destruct (deref s element) as [[a|o]|].
  - apply keeps_copy_update.
  - apply keeps_copy_update.
  - by intros [= <- _].
Qed.

Lemma keeps_without element index : keeps_store (without element index).
Proof.
  intros s s' r. unfold without.
  destruct (deref s element) as [[a|o]|].
  - apply keeps_copy_update.
  - apply keeps_copy_update.
  - by intros [= <- _].
Qed.

Create HintDb keeps discriminated.
#[local] Hint Resolve keeps_ret keeps_read keeps_raise keeps_try_describe
  keeps_rebuild keeps_without : keeps.

Ltac keeps_step :=
  lazymatch goal with
  | |- keeps_store (mbind _ _) => apply keeps_bind; [|intros ?]
  | |- keeps_store (try_describe _ _) => apply keeps_try_describe
  | |- keeps_store (match ?x with _ => _ end) => destruct x
  | |- keeps_store _ => solve [eauto with keeps]
  end.

Lemma keeps_add pointer : ∀ element value,
  keeps_store (add element pointer value).
Proof.
  induction pointer as [|t rest IH]; intros element value; cbn [add];
    repeat keeps_step.
Qed.

Lemma keeps_replace pointer : ∀ element value,
  keeps_store (replace element pointer value).
Proof.
  induction pointer as [|t rest IH]; intros element value; cbn [replace];
    repeat keeps_step.
Qed.

Lemma keeps_remove pointer : ∀ element,
  keeps_store (remove element pointer).
Proof.
  induction pointer as [|t rest IH]; intros element; cbn [remove];
    repeat keeps_step.
Qed.

#[local] Hint Resolve keeps_add keeps_replace keeps_remove : keeps.

Lemma keeps_applyOperation document operation :
  keeps_store (applyOperation document operation).
Proof. unfold applyOperation. repeat keeps_step. Qed.

Lemma keeps_applyPatch patch : ∀ document,
  keeps_store (applyPatch document patch).
Proof.
  induction patch as [|operation rest IH]; intros document; cbn [applyPatch].
  - apply keeps_ret.
  - apply keeps_bind; [apply keeps_applyOperation|done].
Qed.

Lemma applyPatch_app (before after : list Operation) : ∀ document s,
  applyPatch document (before ++ after) s
  = match applyPatch document before s with
    | (s1, Return d1) => applyPatch d1 after s1
    | (s1, Raise x) => (s1, Raise x)
    end.
Proof.
  induction before as [|operation before IH]; intros document s; [done|].
  cbn [app applyPatch]. unfold mbind, M_bind.
  destruct (applyOperation document operation s) as [s1 [d1|x]]; [|done].
  apply IH.
Qed.

End Frame.

Lemma pure_applyPatch_app (before after : list Operation) : ∀ document,
  applyPatch document (before ++ after)
  = applyPatch document before ≫= λ d1, applyPatch d1 after.
Proof.
  induction before as [|operation before IH]; intros document; [done|].
  cbn [app applyPatch].
  destruct (applyOperation document operation) as [d1|e]; [|done].
  apply IH.
Qed.

(** ** Induction on values *)

Lemma json_size_element (a : list JsonValue) x :
  x ∈ a → (json_size x < json_size (JArray a))%nat.
Proof.
  cbn [json_size]. induction 1 as [x a|x y a _ IH]; cbn [foldr]; lia.
Qed.

Lemma json_size_member (o : gmap string JsonValue) k x :
  o !! k = Some x → (json_size x < json_size (JObject o))%nat.
Proof.
  intros Hk. cbn [json_size].
  rewrite (map_fold_delete_L _ _ k x o); [lia| |done]. intros; lia.
Qed.

Lemma json_ind (P : JsonValue → Prop) :
  P JNull → (∀ b, P (JBool b)) → (∀ n, P (JNumber n)) →
  (∀ t, P (JString t)) →
  (∀ a, Forall P a → P (JArray a)) →
  (∀ o, map_Forall (λ _, P) o → P (JObject o)) →
  ∀ j, P j.
Proof.
  intros Hnull Hbool Hnum Hstr Harr Hobj j.
  induction (Nat.lt_wf_0_projected json_size j) as [j _ IH].
  destruct j as [| | | |a|o]; auto.
  - apply Harr, Forall_forall. intros x Hx. by apply IH, json_size_element.
  - apply Hobj. intros k x Hk. by eapply IH, json_size_member.
Qed.

(** ** What [compare] throws *)

(** A loop [acc;; g k v] over the members of a map returns when every step
    does, and otherwise throws what one of the steps throws. *)
Lemma fold_steps_result {A} (g : string → A → result ()) (m : gmap string A) :
  let r := map_fold (λ k v (acc : result ()), acc;; g k v) (Ok ()) m in
  (r = Ok () ∧ map_Forall (λ k v, g k v = Ok ()) m)
  ∨ (∃ e k v, r = Throw e ∧ m !! k = Some v ∧ g k v = Throw e).
Proof.
  cbv zeta. apply (map_fold_weak_ind (λ r m,
    (r = Ok () ∧ map_Forall (λ k v, g k v = Ok ()) m)
    ∨ (∃ e k v, r = Throw e ∧ m !! k = Some v ∧ g k v = Throw e))).
  - left. split; [done|]. apply map_Forall_empty.
  - intros i x m' r Hi [[-> Hall]|(e & k & v & -> & Hk & Hg)].
    + cbn. destruct (g i x) as [[]|e] eqn:Hgi.
      * left. split; [done|]. by apply map_Forall_insert_2.
      * right. exists e, i, x. by rewrite lookup_insert_eq.
    + right. exists e, k, v. split_and!; [done| |done].
      rewrite lookup_insert_ne; [done|]. intros ->. congruence.
Qed.

Lemma compare_throw : ∀ value item e,
  compare item value = Throw e → e = error TestMismatch.
Proof.
  intros jv. induction jv as [| | | |va IH|vo IH] using json_ind;
    intros item e.
  1-4: destruct item; cbn; unfold mismatch; repeat case_match; intros;
    by simplify_eq.
  - destruct item as [| | | |array|object];
      cbn [compare comparePrimitive]; unfold mismatch;
      try (intros; by simplify_eq).
    destruct (negb _); [intros; by simplify_eq|].
    revert array. induction IH as [|v va Hv _ IHva]; intros [|x array];
      try done.
    destruct (compare x v) as [[]|e'] eqn:Hxv; cbn.
    + apply IHva.
    + intros [= <-]. by eapply Hv.
  - destruct item as [| | | |array|object];
      cbn [compare comparePrimitive];
      try (unfold mismatch; intros; by simplify_eq).
    repeat (destruct (negb _); [unfold mismatch; intros; by simplify_eq|]).
    destruct (fold_steps_result
                (λ valueKey v, match object !! valueKey with
                               | Some x => compare x v
                               | None => mismatch
                               end) vo)
      as [[Hr _]|(e' & k & v & Hr & Hk & Hg)]; cbv zeta in Hr; rewrite Hr;
      [done|].
    intros [= <-]. destruct (object !! k) as [x|].
    + by eapply (IH k v Hk).
    + unfold mismatch in Hg. by simplify_eq.
Qed.

(** ** The store model computes what the value model computes *)

Section Refinement.

Implicit Types (s : list Heap.Cell).

Lemma denotes_mono s s' :
  s `prefix_of` s' → ∀ v j, denotes s v j → denotes s' v j.
Proof.
  intros Hp. fix IH 3. intros v j [| | | |l a ja Hl Ha|l o jo Hl Ho].
  1-4: constructor.
  - cut (Forall2 (denotes s') a ja).
    { intros. apply denotes_array with a; [by eapply prefix_lookup_Some|done]. }
    clear Hl. revert a ja Ha. fix IHa 3. intros a ja [|x y a' ja' Hxy Ha'].
    + constructor.
    + constructor; [apply IH, Hxy|apply IHa, Ha'].
  - apply denotes_object with o; [by eapply prefix_lookup_Some|].
    intros k. destruct (Ho k) as [x y Hxy|]; constructor. apply IH, Hxy.
Qed.

Lemma denotes_container s v j :
  denotes s v j →
  Heap.isArray s v = isArray j ∧ Heap.isObject s v = isObject j.
Proof.
  intros [| | | |l a ja Hl Ha|l o jo Hl Ho];
    unfold Heap.isArray, Heap.isObject; cbn; rewrite ?Hl; done.
Qed.

Lemma parseTokenString_sim s t v j :
  denotes s v j →
  agrees eq (Heap.parseTokenString s t v) (parseTokenString t j).
Proof.
  intros [| | | |l a ja Hl Ha|l o jo Hl Ho];
    unfold Heap.parseTokenString, parseTokenString; cbn; rewrite ?Hl;
    try done.
  rewrite (Forall2_length _ _ _ Ha).
  repeat case_match; done.
Qed.

Lemma parseTokenString_container t j index :
  parseTokenString t j = Ok index → isArray j || isObject j = true.
Proof. by destruct j. Qed.

Lemma at_index_sim {A B} (R : A → B → Prop) (a : list A) (b : list B) i :
  Forall2 R a b → option_Forall2 R (Js.at_index a i) (Js.at_index b i).
Proof.
  intros H. unfold Js.at_index. destruct (i <? 0); [constructor|].
  destruct (a !! Z.to_nat i) as [x|] eqn:Hx.
  - destruct (Forall2_lookup_l _ _ _ _ _ H Hx) as (y & -> & ?).
    by constructor.
  - apply lookup_ge_None in Hx. rewrite (Forall2_length _ _ _ H) in Hx.
    apply lookup_ge_None in Hx. rewrite Hx. constructor.
Qed.

Lemma member_sim s v j index :
  denotes s v j →
  option_Forall2 (denotes s) (Heap.member s v index) (member j index).
Proof.
  intros [| | | |l a ja Hl Ha|l o jo Hl Ho];
    unfold Heap.member; cbn; rewrite ?Hl; try constructor.
  - destruct index; [constructor|]. by apply at_index_sim.
  - destruct index; [apply Ho|constructor].
Qed.

Lemma get_sim s pointer : ∀ v j,
  denotes s v j →
  agrees (denotes s) (Heap.get s v pointer) (get j pointer).
Proof.
  induction pointer as [|t rest IH]; intros v j Hv; [done|].
  cbn [Heap.get get].
  pose proof (parseTokenString_sim s t v j Hv) as Ht.
  destruct (parseTokenString t j) as [index|e],
    (Heap.parseTokenString s t v) as [index'|[e'|]]; try done.
  cbn in Ht. subst index'. cbn [mbind result_bind Heap.outcome_bind].
  destruct (member_sim s v j index Hv) as [d jd Hd|]; [by apply IH|done].
Qed.

Lemma has_sim s pointer : ∀ v j,
  denotes s v j → agrees eq (Heap.has s v pointer) (has j pointer).
Proof.
  induction pointer as [|t rest IH]; intros v j Hv; [done|].
  cbn [Heap.has has].
  pose proof (parseTokenString_sim s t v j Hv) as Ht.
  destruct (parseTokenString t j) as [index|e],
    (Heap.parseTokenString s t v) as [index'|[e'|]]; try done.
  cbn in Ht. subst index'. cbn [mbind result_bind Heap.outcome_bind].
  destruct (member_sim s v j index Hv) as [d jd Hd|]; [by apply IH|done].
Qed.

(** *** Computations *)

Lemma simulates_ret {A B} (R : list Heap.Cell → A → B → Prop) s a b :
  R s a b → simulates R s (mret a) (Ok b).
Proof. intros H. by exists s, (Heap.Return a). Qed.

Lemma simulates_read {A B} (R : list Heap.Cell → A → B → Prop) s f p :
  agrees (R s) (f s) p → simulates R s (Heap.read f) p.
Proof. intros H. by exists s, (f s). Qed.

Lemma simulates_raise {A B} (R : list Heap.Cell → A → B → Prop) s k :
  simulates R s (Heap.raise k) (Throw (error k)).
Proof. by apply simulates_read. Qed.

Lemma simulates_bind {A B A' B'} (R : list Heap.Cell → A → B → Prop)
    (R' : list Heap.Cell → A' → B' → Prop) s m p k kp :
  simulates R s m p →
  (∀ s' a b, s `prefix_of` s' → R s' a b → simulates R' s' (k a) (kp b)) →
  simulates R' s (m ≫= k) (p ≫= kp).
Proof.
  intros (s1 & r & Hm & Hp & Hr) Hk.
  assert (Hrun : (m ≫= k) s = match r with
                              | Heap.Return a => k a s1
                              | Heap.Raise x => (s1, Heap.Raise x)
                              end)
    by (unfold mbind, Heap.M_bind; by rewrite Hm).
  unfold simulates. rewrite Hrun.
  destruct p as [b|e], r as [a|[e'|]]; try done; cbn in Hr.
  - destruct (Hk s1 a b Hp Hr) as (s2 & r2 & Hk2 & Hp2 & Hr2).
    exists s2, r2. split_and!; [done|by etrans|done].
  - subst e'. by exists s1, (Heap.Raise (Heap.OfJsonPatchError e)).
Qed.

(** A read in front of a computation, once it is known what it reads. *)
Lemma simulates_read_bind {A A' B'} (R' : list Heap.Cell → A' → B' → Prop)
    s (f : list Heap.Cell → Heap.outcome A) (k : A → Heap.M A') p a :
  f s = Heap.Return a →
  simulates R' s (k a) p →
  simulates R' s (Heap.read f ≫= k) p.
Proof.
  intros Hf.
  assert (Hrun : (Heap.read f ≫= k) s = k a s)
    by (unfold mbind, Heap.M_bind, Heap.read; by rewrite Hf).
  unfold simulates. by rewrite Hrun.
Qed.

Lemma simulates_try_describe {A B} (R : list Heap.Cell → A → B → Prop)
    s label m p :
  simulates R s m p →
  simulates R s (Heap.try_describe label m) (try_describe label p).
Proof.
  intros (s1 & r & Hm & Hp & Hr). unfold simulates, Heap.try_describe.
  rewrite Hm.
  destruct p as [b|e], r as [a|[e'|]]; try done; cbn in Hr.
  - by exists s1, (Heap.Return a).
  - subst e'. by eexists s1, _.
Qed.

Lemma simulates_read_raise {A A' B'} (R' : list Heap.Cell → A' → B' → Prop)
    s (f : list Heap.Cell → Heap.outcome A) (k : A → Heap.M A') e :
  f s = Heap.Raise (Heap.OfJsonPatchError e) →
  simulates R' s (Heap.read f ≫= k) (Throw e).
Proof.
  intros Hf.
  assert (Hrun : (Heap.read f ≫= k) s
                 = (s, Heap.Raise (Heap.OfJsonPatchError e)))
    by (unfold mbind, Heap.M_bind, Heap.read; by rewrite Hf).
  by exists s, (Heap.Raise (Heap.OfJsonPatchError e)).
Qed.

(** The token is read in the store as it is read against the value. *)
Lemma simulates_token {A' B'} (R' : list Heap.Cell → A' → B' → Prop)
    s t v j (k : Index → Heap.M A') (kp : Index → result B') :
  denotes s v j →
  (∀ index, parseTokenString t j = Ok index →
            simulates R' s (k index) (kp index)) →
  simulates R' s
    (Heap.read (λ s, Heap.parseTokenString s t v) ≫= k)
    (parseTokenString t j ≫= kp).
Proof.
  intros Hv Hk. pose proof (parseTokenString_sim s t v j Hv) as Ht.
  destruct (parseTokenString t j) as [index|e] eqn:Hj,
    (Heap.parseTokenString s t v) as [index'|[e'|]] eqn:Hh; try done;
    cbn in Ht; subst.
  - eapply simulates_read_bind; [exact Hh|]. by apply Hk.
  - by eapply simulates_read_raise.
Qed.

(** *** Copies *)

Lemma copy_update_run (c : Heap.Cell) (f : Heap.Cell → Heap.Cell) s :
  (newElement ← Heap.alloc c;
   Heap.update newElement f;;
   mret (Heap.VRef newElement)) s
  = (s ++ [f c], Heap.Return (Heap.VRef (length s))).
Proof.
  unfold mbind, Heap.M_bind, Heap.alloc, Heap.update, mret, Heap.M_ret.
  by rewrite (alter_app_r_alt f s [c] (length s)), Nat.sub_diag by lia.
Qed.

Lemma simulates_copy s c' j' (m : Heap.M Heap.Value) :
  m s = (s ++ [c'], Heap.Return (Heap.VRef (length s))) →
  (∀ s', s `prefix_of` s' → s' !! length s = Some c' →
         denotes s' (Heap.VRef (length s)) j') →
  simulates denotes s m (Ok j').
Proof.
  intros Hm Hd. exists (s ++ [c']), (Heap.Return (Heap.VRef (length s))).
  split_and!; [done|by apply prefix_app_r|].
  apply Hd; [by apply prefix_app_r|]. by rewrite lookup_app_r, Nat.sub_diag.
Qed.

Lemma Forall2_splice {A B} (R : A → B → Prop) a b i n xs ys :
  Forall2 R a b → Forall2 R xs ys →
  Forall2 R (Js.splice a i n xs) (Js.splice b i n ys).
Proof.
  intros Hab Hxy. unfold Js.splice. rewrite (Forall2_length _ _ _ Hab).
  repeat apply Forall2_app; auto using Forall2_take, Forall2_drop.
Qed.

Lemma rebuild_sim s v j m jm index deleteCount :
  denotes s v j → denotes s m jm → isArray j || isObject j = true →
  simulates denotes s (Heap.rebuild v index deleteCount m)
    (Ok (rebuild j index deleteCount jm)).
Proof.
  intros Hv Hm Hc.
  destruct Hv as [| | | |l a ja Hl Ha|l o jo Hl Ho]; try discriminate Hc.
  - eapply simulates_copy.
    { unfold Heap.rebuild, Heap.deref. rewrite Hl. apply copy_update_run. }
    intros s' Hp Hnew.
    destruct index as [k|i]; cbn [Heap.splice_cell rebuild] in *;
      (eapply denotes_array; [exact Hnew|]).
    + eapply Forall2_impl; [exact Ha|]. intros; by eapply denotes_mono.
    + apply Forall2_splice.
      * eapply Forall2_impl; [exact Ha|]. intros; by eapply denotes_mono.
      * constructor; [by eapply denotes_mono|constructor].
  - eapply simulates_copy.
    { unfold Heap.rebuild, Heap.deref. rewrite Hl. apply copy_update_run. }
    intros s' Hp Hnew.
    destruct index as [k|i]; cbn [Heap.assign_cell rebuild] in *;
      (eapply denotes_object; [exact Hnew|]); intros k'.
    + destruct (decide (k = k')) as [->|Hne].
      * rewrite !lookup_insert_eq. constructor. by eapply denotes_mono.
      * rewrite !lookup_insert_ne by done.
        destruct (Ho k'); constructor. by eapply denotes_mono.
    + destruct (Ho k'); constructor. by eapply denotes_mono.
Qed.

Lemma without_sim s v j index :
  denotes s v j → isArray j || isObject j = true →
  simulates denotes s (Heap.without v index) (Ok (without j index)).
Proof.
  intros Hv Hc.
  destruct Hv as [| | | |l a ja Hl Ha|l o jo Hl Ho]; try discriminate Hc.
  - eapply simulates_copy.
    { unfold Heap.without, Heap.deref. rewrite Hl. apply copy_update_run. }
    intros s' Hp Hnew.
    destruct index as [k|i]; cbn [Heap.splice_cell without] in *;
      (eapply denotes_array; [exact Hnew|]).
    + eapply Forall2_impl; [exact Ha|]. intros; by eapply denotes_mono.
    + apply Forall2_splice; [|constructor].
      eapply Forall2_impl; [exact Ha|]. intros; by eapply denotes_mono.
  - eapply simulates_copy.
    { unfold Heap.without, Heap.deref. rewrite Hl. apply copy_update_run. }
    intros s' Hp Hnew.
    destruct index as [k|i]; cbn [Heap.delete_cell without] in *;
      (eapply denotes_object; [exact Hnew|]); intros k'.
    + destruct (decide (k = k')) as [->|Hne].
      * rewrite !lookup_delete_eq. constructor.
      * rewrite !lookup_delete_ne by done.
        destruct (Ho k'); constructor. by eapply denotes_mono.
    + destruct (Ho k'); constructor. by eapply denotes_mono.
Qed.

(** *** The walks that rebuild *)

Lemma exceeds_sim s v j index :
  denotes s v j →
  Heap.exceeds s v index
  = match j, index with
    | JArray a, Idx i => Z.of_nat (length a) <? i
    | _, _ => false
    end.
Proof.
  intros [| | | |l a ja Hl Ha|l o jo Hl Ho];
    unfold Heap.exceeds; cbn; rewrite ?Hl; try done.
  destruct index; [done|]. by rewrite (Forall2_length _ _ _ Ha).
Qed.

(** The member to recurse into: it is there and it is a container in the
    store exactly when it is over values. *)
Lemma simulates_deeper s v j index (k : Heap.Value → Heap.M Heap.Value)
    (kp : JsonValue → result JsonValue) :
  denotes s v j →
  (∀ d jd, denotes s d jd → simulates denotes s (k d) (kp jd)) →
  simulates denotes s
    (deeperElement ← Heap.read (λ s, Heap.Return (Heap.member s v index));
     match deeperElement with
     | Some deeperElement =>
         container ← Heap.read (λ s,
           Heap.Return (Heap.isArray s deeperElement
                        || Heap.isObject s deeperElement));
         if negb (container : bool)
         then Heap.raise PathNotObjectOrArray
         else k deeperElement
     | None => Heap.raise PathNotObjectOrArray
     end)
    match member j index with
    | Some deeperElement =>
        if negb (isArray deeperElement) && negb (isObject deeperElement)
        then Throw (error PathNotObjectOrArray)
        else kp deeperElement
    | None => Throw (error PathNotObjectOrArray)
    end.
Proof.
  intros Hv Hk. eapply simulates_read_bind; [reflexivity|].
  destruct (member_sim s v j index Hv) as [d jd Hd|];
    [|apply simulates_raise].
  eapply simulates_read_bind; [reflexivity|].
  destruct (denotes_container s d jd Hd) as [-> ->]. rewrite negb_orb.
  destruct (negb (isArray jd) && negb (isObject jd));
    [apply simulates_raise|by apply Hk].
Qed.

Lemma add_sim pointer : ∀ s v j val jval,
  denotes s v j → denotes s val jval →
  simulates denotes s (Heap.add v pointer val) (add j pointer jval).
Proof.
  induction pointer as [|t rest IH]; intros s v j val jval Hv Hval.
  { apply simulates_raise. }
  cbn [Heap.add add]. apply simulates_token; [done|]. intros index Hidx.
  apply simulates_bind with (R := denotes).
  - destruct rest as [|t' rest']; [by apply simulates_ret|].
    apply simulates_deeper; [done|]. intros d jd Hd. by apply IH.
  - intros s1 mm jmm Hp Hmm.
    pose proof (denotes_mono _ _ Hp _ _ Hv) as Hv1.
    eapply simulates_read_bind; [reflexivity|].
    rewrite (exceeds_sim s1 v j index Hv1).
    pose proof (parseTokenString_container _ _ _ Hidx) as Hc.
    destruct j; try discriminate Hc; destruct index;
      try (by apply rebuild_sim).
    destruct (_ <? _); [apply simulates_raise|by apply rebuild_sim].
Qed.

Lemma replace_sim pointer : ∀ s v j val jval,
  denotes s v j → denotes s val jval →
  simulates denotes s (Heap.replace v pointer val) (replace j pointer jval).
Proof.
  induction pointer as [|t rest IH]; intros s v j val jval Hv Hval.
  { apply simulates_raise. }
  cbn [Heap.replace replace]. apply simulates_token; [done|].
  intros index Hidx.
  apply simulates_bind with (R := denotes).
  - destruct rest as [|t' rest']; [by apply simulates_ret|].
    apply simulates_deeper; [done|]. intros d jd Hd. by apply IH.
  - intros s1 mm jmm Hp Hmm. apply rebuild_sim; [|done|].
    + by eapply denotes_mono.
    + by eapply parseTokenString_container.
Qed.

Lemma remove_sim pointer : ∀ s v j,
  denotes s v j →
  simulates denotes s (Heap.remove v pointer) (remove j pointer).
Proof.
  induction pointer as [|t rest IH]; intros s v j Hv.
  { apply simulates_raise. }
  cbn [Heap.remove remove]. apply simulates_token; [done|].
  intros index Hidx.
  pose proof (parseTokenString_container _ _ _ Hidx) as Hc.
  destruct rest as [|t' rest'].
  - eapply simulates_read_bind; [reflexivity|].
    destruct (member_sim s v j index Hv) as [d jd Hd|];
      [by apply without_sim|apply simulates_raise].
  - eapply simulates_read_bind; [reflexivity|].
    destruct (member_sim s v j index Hv) as [d jd Hd|];
      [|apply simulates_raise].
    eapply simulates_read_bind; [reflexivity|].
    destruct (denotes_container s d jd Hd) as [-> ->]. rewrite negb_orb.
    destruct (negb (isArray jd) && negb (isObject jd));
      [apply simulates_raise|].
    apply simulates_bind with (R := denotes); [by apply IH|].
    intros s1 mm jmm Hp Hmm. apply rebuild_sim; [|done..].
    by eapply denotes_mono.
Qed.

(** *** [compare] *)

Lemma fold_steps_outcome {A} (g : string → A → Heap.outcome ())
    (m : gmap string A) :
  let r := map_fold (λ k v (acc : Heap.outcome ()), acc;; g k v)
             (Heap.Return ()) m in
  (r = Heap.Return () ∧ map_Forall (λ k v, g k v = Heap.Return ()) m)
  ∨ (∃ x k v, r = Heap.Raise x ∧ m !! k = Some v ∧ g k v = Heap.Raise x).
Proof.
  cbv zeta. apply (map_fold_weak_ind (λ r m,
    (r = Heap.Return () ∧ map_Forall (λ k v, g k v = Heap.Return ()) m)
    ∨ (∃ x k v, r = Heap.Raise x ∧ m !! k = Some v ∧ g k v = Heap.Raise x))).
  - left. split; [done|]. apply map_Forall_empty.
  - intros i y m' r Hi [[-> Hall]|(x & k & v & -> & Hk & Hg)].
    + cbn. destruct (g i y) as [[]|x] eqn:Hgi.
      * left. split; [done|]. by apply map_Forall_insert_2.
      * right. exists x, i, y. by rewrite lookup_insert_eq.
    + right. exists x, k, v. split_and!; [done| |done].
      rewrite lookup_insert_ne; [done|]. intros ->. congruence.
Qed.

Lemma denotes_dom {A B} (R : A → B → Prop) (o : gmap string A)
    (jo : gmap string B) :
  (∀ k, option_Forall2 R (o !! k) (jo !! k)) →
  dom o = dom jo ∧ size o = size jo.
Proof.
  intros H. assert (Hdom : dom o = dom jo).
  { apply set_eq. intros k. rewrite !elem_of_dom.
    destruct (H k); split; intros [? ?]; by simplify_eq. }
  split; [done|]. by rewrite <-!size_dom, Hdom.
Qed.

Lemma compare_elements_sim s
    (cmp : Heap.Value → Heap.Value → Heap.outcome ()) :
  (∀ x v jx jv, denotes s x jx → denotes s v jv →
                compare_agrees (cmp x v) (compare jx jv)) →
  ∀ a ja va jva,
    Forall2 (denotes s) a ja → Forall2 (denotes s) va jva →
    compare_agrees
      (foldl (λ (acc : Heap.outcome ()) xv, acc;; cmp xv.1 xv.2)
         (Heap.Return ()) (zip a va))
      ((fix loop (va array : list JsonValue) {struct va} : result () :=
          match va, array with
          | v :: va', x :: array' => compare x v;; loop va' array'
          | _, _ => Ok ()
          end) jva ja).
Proof.
  intros Hcmp a ja va jva Ha. revert va jva.
  induction Ha as [|x jx a ja Hx Ha IH]; intros va jva Hva.
  { right. destruct Hva; done. }
  destruct Hva as [|v jv va jva Hv Hva]; [by right|].
  cbn [zip zip_with foldl fst snd]. cbn [mbind Heap.outcome_bind].
  destruct (Hcmp x v jx jv Hx Hv) as [->|Hxv].
  { left. clear. induction (zip a va); [done|]. done. }
  destruct (compare jx jv) as [[]|e], (cmp x v) as [[]|[e'|]];
    try done; cbn in Hxv.
  - cbn [mbind result_bind]. by apply IH.
  - subst e'. right. cbn [mbind result_bind].
    clear. induction (zip a va); done.
Qed.

Lemma compare_sim s fuel : ∀ item vl ji jv,
  denotes s item ji → denotes s vl jv →
  compare_agrees (Heap.compare fuel s item vl) (compare ji jv).
Proof.
  induction fuel as [|fuel IH]; intros item vl ji jv Hi Hv; [by left|].
  cbn [Heap.compare].
  destruct Hi as [| | | |l a ja Hl Ha|l o jo Hl Ho].
  1-4: right; destruct Hv; cbn; repeat case_match; done.
  - (* an array *)
    cbn [Heap.deref]. rewrite Hl.
    destruct Hv as [| | | |l' va jva Hl' Hva|l' vo jvo Hl' Hvo];
      cbn [Heap.deref compare]; rewrite ?Hl'; try (by right).
    rewrite (Forall2_length _ _ _ Ha), (Forall2_length _ _ _ Hva).
    destruct (negb _); [by right|].
    by apply (compare_elements_sim s).
  - (* an object *)
    cbn [Heap.deref]. rewrite Hl.
    destruct Hv as [| | | |l' va jva Hl' Hva|l' vo jvo Hl' Hvo];
      cbn [Heap.deref compare]; rewrite ?Hl'; try (by right).
    destruct (denotes_dom _ _ _ Ho) as [-> ->].
    destruct (denotes_dom _ _ _ Hvo) as [-> ->].
    repeat (destruct (negb _); [by right|]).
    set (g := λ (valueKey : string) (v : JsonValue),
                match jo !! valueKey with
                | Some x => compare x v
                | None => mismatch
                end).
    set (g' := λ (valueKey : string) (v : Heap.Value),
                 match o !! valueKey with
                 | Some x => Heap.compare fuel s x v
                 | None => Heap.mismatch
                 end).
    assert (Hstep : ∀ k hv v, vo !! k = Some hv → jvo !! k = Some v →
                              compare_agrees (g' k hv) (g k v)).
    { intros k hv v Hhv Hjv. unfold g, g'.
      pose proof (Hvo k) as Hkv. rewrite Hhv, Hjv in Hkv.
      inversion Hkv; subst.
      destruct (Ho k) as [x jx Hx|]; [by apply IH|by right]. }
    assert (Hthrow : ∀ k v e, g k v = Throw e → e = error TestMismatch).
    { intros k v e. unfold g. destruct (jo !! k); [apply compare_throw|].
      unfold mismatch. by intros [= <-]. }
    destruct (fold_steps_outcome g' vo)
      as [[Hh Hall]|(x & k & hv & Hh & Hk & Hg')];
      destruct (fold_steps_result g jvo)
        as [[Hp Hpall]|(e & k' & v' & Hp & Hk' & Hg)];
      cbv zeta in Hh, Hp; unfold compare_agrees;
      change (map_fold _ (Heap.Return ()) vo) with
        (map_fold (λ k v (acc : Heap.outcome ()), acc;; g' k v)
           (Heap.Return ()) vo);
      change (map_fold _ (Ok ()) jvo) with
        (map_fold (λ k v (acc : result ()), acc;; g k v) (Ok ()) jvo);
      rewrite Hh, Hp.
    + by right.
    + (* the store returns, values throw: the step that throws over values
         does not return in the store *)
      exfalso. pose proof (Hvo k') as Hkv. rewrite Hk' in Hkv.
      inversion Hkv as [hv v'' Hd Hhv Heq|]; subst.
      symmetry in Hhv.
      destruct (Hstep k' hv v' Hhv Hk') as [Hr|Hr];
        rewrite (Hall k' hv Hhv) in Hr; [done|].
      by rewrite Hg in Hr.
    + (* the store throws, values return *)
      pose proof (Hvo k) as Hkv. rewrite Hk in Hkv.
      inversion Hkv as [hv' v Hd Heq Hjv|]; subst. symmetry in Hjv.
      destruct (Hstep k hv v Hk Hjv) as [Hr|Hr]; rewrite Hg' in Hr.
      * left. congruence.
      * by rewrite (Hpall k v Hjv) in Hr.
    + (* both throw *)
      pose proof (Hvo k) as Hkv. rewrite Hk in Hkv.
      inversion Hkv as [hv' v Hd Heq Hjv|]; subst. symmetry in Hjv.
      apply Hthrow in Hg as ->.
      destruct (Hstep k hv v Hk Hjv) as [Hr|Hr]; rewrite Hg' in Hr.
      * left. congruence.
      * right. destruct (g k v) as [[]|e] eqn:Hgk; [done|].
        apply Hthrow in Hgk as ->. destruct x as [e'|]; [|done].
        cbn in Hr. by subst.
Qed.

(** *** [compare] does not run out of stack on values *)

Lemma denotes_functional s : ∀ j1 v j2,
  denotes s v j1 → denotes s v j2 → j1 = j2.
Proof.
  intros j1. induction j1 as [| | | |ja1 IH|jo1 IH] using json_ind;
    intros v j2 H1 H2.
  1-4: inversion H1; subst; inversion H2; by subst.
  - inversion H1 as [| | | |l a ? Hl Ha|]; subst.
    inversion H2 as [| | | |l' a' ja2 Hl' Ha'|l' o' jo2 Hl' Ho']; subst;
      [|congruence].
    assert (a' = a) as -> by congruence. f_equal.
    clear Hl Hl' H1 H2. revert ja2 Ha'.
    induction Ha as [|x y a ja1 Hxy Ha IHa]; intros ja2 Ha';
      inversion Ha' as [|? y' ? ja2' Hxy' Ha2]; subst; [done|].
    apply Forall_cons in IH as [Hy IH]. f_equal; [by eapply Hy|by apply IHa].
  - inversion H1 as [| | | | |l o ? Hl Ho]; subst.
    inversion H2 as [| | | |l' a' ja2 Hl' Ha'|l' o' jo2 Hl' Ho']; subst;
      [congruence|].
    assert (o' = o) as -> by congruence. f_equal.
    apply map_eq. intros k. specialize (Ho k). specialize (Ho' k).
    destruct (jo1 !! k) as [y|] eqn:Hy; inversion Ho as [x ? Hxy Hx|Hx];
      subst; rewrite <-Hx in Ho'; inversion Ho' as [? y' Hxy'|]; [|done].
    f_equal. by eapply (IH k y).
Qed.

Lemma distinct_bounded (ls : list nat) (n : nat) :
  NoDup ls → (∀ l, l ∈ ls → l < n)%nat → (length ls ≤ n)%nat.
Proof.
  intros Hnd Hlt. trans (length (seq 0 n)); [|by rewrite length_seq].
  apply submseteq_length, NoDup_submseteq; [done|].
  intros l Hl. apply elem_of_seq. specialize (Hlt l Hl). lia.
Qed.

(** The cells in [visited] are the ones of the values that the recursion
    is inside of: each holds a value that is larger than the one being
    compared, so that the cell of that one is not among them. *)
Lemma compare_no_overflow s fuel : ∀ visited item vl ji jv,
  denotes s item ji → denotes s vl jv →
  NoDup visited →
  (∀ l, l ∈ visited →
        ∃ j', denotes s (Heap.VRef l) j' ∧ (json_size jv < json_size j')%nat) →
  (length s < fuel + length visited)%nat →
  Heap.compare fuel s item vl ≠ Heap.Raise Heap.RangeError.
Proof.
  induction fuel as [|fuel IH];
    intros visited item vl ji jv Hi Hv Hnd Hvis Hfuel.
  { exfalso. cut (length visited ≤ length s)%nat; [lia|].
    apply distinct_bounded; [done|]. intros l Hl.
    destruct (Hvis l Hl) as (j' & Hj' & _).
    inversion Hj'; subst; by eapply lookup_lt_Some. }
  cbn [Heap.compare].
  assert (Hprim : ∀ a b, Heap.comparePrimitive a b
                         ≠ Heap.Raise Heap.RangeError).
  { intros a b. unfold Heap.comparePrimitive, Heap.mismatch, Heap.throw.
    repeat case_match; done. }
  (* the recursion into a member of the value *)
  assert (Hrec : ∀ l c x hv jx jhv,
    vl = Heap.VRef l → s !! l = Some c →
    denotes s x jx → denotes s hv jhv →
    (json_size jhv < json_size jv)%nat →
    Heap.compare fuel s x hv ≠ Heap.Raise Heap.RangeError).
  { intros l c x hv jx jhv -> Hl Hx Hhv Hsize.
    apply (IH (l :: visited) x hv jx jhv); [done..| | |cbn; lia].
    - apply NoDup_cons. split; [|done]. intros Hin.
      destruct (Hvis l Hin) as (j' & Hj' & Hlt).
      rewrite (denotes_functional s _ _ _ Hj' Hv) in Hlt. lia.
    - intros l' [->|Hin]%elem_of_cons.
      + exists jv. by split.
      + destruct (Hvis l' Hin) as (j' & Hj' & Hlt). exists j'.
        split; [done|lia]. }
  destruct Hi as [| | | |l a ja Hl Ha|l o jo Hl Ho]; try apply Hprim.
  - cbn [Heap.deref]. rewrite Hl.
    destruct Hv as [| | | |l' va jva Hl' Hva|l' vo jvo Hl' Hvo];
      cbn [Heap.deref]; rewrite ?Hl'; try done.
    destruct (negb _); [done|].
    assert (Hsteps : Forall (λ xv, Heap.compare fuel s xv.1 xv.2
                                   ≠ Heap.Raise Heap.RangeError)
                       (zip a va)).
    { apply Forall_forall. intros [x hv] Hin.
      apply elem_of_lookup_zip_with_1 in Hin
        as (i & x' & hv' & [= <- <-] & Hx & Hhv).
      destruct (Forall2_lookup_l _ _ _ _ _ Ha Hx) as (jx & _ & Hjx).
      destruct (Forall2_lookup_l _ _ _ _ _ Hva Hhv) as (jhv & Hjhv & Hd).
      eapply (Hrec l' _ x hv jx jhv); [done..|].
      apply json_size_element. by eapply list_elem_of_lookup_2. }
    cut (∀ acc, acc ≠ Heap.Raise Heap.RangeError →
           foldl (λ (acc : Heap.outcome ()) xv,
                    acc;; Heap.compare fuel s xv.1 xv.2) acc (zip a va)
           ≠ Heap.Raise Heap.RangeError); [intros Hcut; by apply Hcut|].
    induction Hsteps as [|xv rest Hxv _ IHrest]; intros acc Hacc; [done|].
    cbn [foldl]. apply IHrest. by destruct acc as [[]|].
  - cbn [Heap.deref]. rewrite Hl.
    destruct Hv as [| | | |l' va jva Hl' Hva|l' vo jvo Hl' Hvo];
      cbn [Heap.deref]; rewrite ?Hl'; try done.
    repeat (destruct (negb _); [done|]).
    set (g' := λ (valueKey : string) (hv : Heap.Value),
                 match o !! valueKey with
                 | Some x => Heap.compare fuel s x hv
                 | None => Heap.mismatch
                 end).
    destruct (fold_steps_outcome g' vo)
      as [[Hh _]|(x & k & hv & Hh & Hk & Hg')]; cbv zeta in Hh;
      change (map_fold _ (Heap.Return ()) vo) with
        (map_fold (λ k v (acc : Heap.outcome ()), acc;; g' k v)
           (Heap.Return ()) vo);
      rewrite Hh; [done|].
    intros [= ->]. unfold g' in Hg'.
    pose proof (Hvo k) as Hkv. rewrite Hk in Hkv.
    inversion Hkv as [? jhv Hd Heq Hjhv|]; subst. symmetry in Hjhv.
    destruct (Ho k) as [x jx Hx|]; [|done].
    eapply (Hrec l' _ x hv jx jhv); [done..| |done].
    by eapply json_size_member.
Qed.

(** *** Operations and patches *)

Lemma simulates_pointer {A' B'} (R' : list Heap.Cell → A' → B' → Prop)
    s p (k : list string → Heap.M A') (kp : list string → result B') :
  (∀ pointer, simulates R' s (k pointer) (kp pointer)) →
  simulates R' s (Heap.read (λ _, Heap.Pointer p) ≫= k) (Pointer p ≫= kp).
Proof.
  intros Hk. unfold Pointer, validatePath.
  destruct p as [[|c p]|]; [| |by eapply simulates_read_raise].
  - by eapply simulates_read_bind.
  - destruct (Ascii.eqb c "/") eqn:Hc.
    + eapply simulates_read_bind; [|apply Hk].
      unfold Heap.Pointer, Heap.validatePath. by rewrite Hc.
    + eapply simulates_read_raise.
      unfold Heap.Pointer, Heap.validatePath. by rewrite Hc.
Qed.

Lemma simulates_get {A' B'} (R' : list Heap.Cell → A' → B' → Prop)
    s v j pointer (k : Heap.Value → Heap.M A')
    (kp : JsonValue → result B') :
  denotes s v j →
  (∀ d jd, denotes s d jd → simulates R' s (k d) (kp jd)) →
  simulates R' s (Heap.read (λ s, Heap.get s v pointer) ≫= k)
    (get j pointer ≫= kp).
Proof.
  intros Hv Hk. pose proof (get_sim s pointer v j Hv) as Hg.
  destruct (get j pointer) as [jd|e],
    (Heap.get s v pointer) as [d|[e'|]] eqn:Hh; try done; cbn in Hg.
  - eapply simulates_read_bind; [exact Hh|]. by apply Hk.
  - subst. by eapply simulates_read_raise.
Qed.

Lemma simulates_has {A' B'} (R' : list Heap.Cell → A' → B' → Prop)
    s v j pointer (k : bool → Heap.M A') (kp : bool → result B') :
  denotes s v j →
  (∀ found, simulates R' s (k found) (kp found)) →
  simulates R' s (Heap.read (λ s, Heap.has s v pointer) ≫= k)
    (has j pointer ≫= kp).
Proof.
  intros Hv Hk. pose proof (has_sim s pointer v j Hv) as Hg.
  destruct (has j pointer) as [b|e],
    (Heap.has s v pointer) as [b'|[e'|]] eqn:Hh; try done; cbn in Hg;
    subst.
  - eapply simulates_read_bind; [exact Hh|]. by apply Hk.
  - by eapply simulates_read_raise.
Qed.

Lemma simulates_compare {A' B'} (R' : list Heap.Cell → A' → B' → Prop)
    s item vl ji jv (k : Heap.M A') (kp : result B') :
  denotes s item ji → denotes s vl jv →
  simulates R' s k kp →
  simulates R' s
    (Heap.read (λ s, Heap.compare (S (length s)) s item vl);; k)
    (compare ji jv;; kp).
Proof.
  intros Hi Hv Hk.
  destruct (compare_sim s (S (length s)) item vl ji jv Hi Hv) as [Hr|Hr].
  - destruct (compare_no_overflow s (S (length s)) [] item vl ji jv);
      [done|done|apply NoDup_nil_2|by intros ? ?%elem_of_nil|cbn; lia|done].
  - destruct (compare ji jv) as [[]|e],
      (Heap.compare (S (length s)) s item vl) as [[]|[e'|]] eqn:Hh;
      try done; cbn in Hr; subst.
    + by eapply simulates_read_bind.
    + by eapply simulates_read_raise.
Qed.

Lemma denotes_operation_mono s s' h o :
  s `prefix_of` s' → denotes_operation s h o → denotes_operation s' h o.
Proof.
  intros Hp (? & ? & ? & Hv). split_and!; [done..|].
  destruct Hv; constructor. by eapply denotes_mono.
Qed.

Lemma applyOperation_sim s document D h o :
  denotes s document D → denotes_operation s h o →
  simulates denotes s (Heap.applyOperation document h) (applyOperation D o).
Proof.
  intros HD (Hop & Hpath & Hfrom & Hvalue).
  unfold Heap.applyOperation, applyOperation. rewrite Hop, Hpath, Hfrom.
  destruct (String.eqb (op o) "add").
  { apply simulates_try_describe.
    destruct Hvalue as [x jx Hx|]; [|apply simulates_raise].
    destruct (is_root _); [by apply simulates_ret|].
    apply simulates_pointer. intros pointer. by apply add_sim. }
  destruct (String.eqb (op o) "copy").
  { apply simulates_try_describe.
    destruct (from o) as [f|]; [|apply simulates_raise].
    apply simulates_pointer. intros fromPointer.
    apply simulates_get; [done|]. intros x jx Hx.
    destruct (is_root _); [by apply simulates_ret|].
    apply simulates_pointer. intros pointer. by apply add_sim. }
  destruct (String.eqb (op o) "move").
  { apply simulates_try_describe.
    destruct (from o) as [f|]; [|apply simulates_raise].
    destruct (bool_decide _); [by apply simulates_ret|].
    apply simulates_pointer. intros fromPointer.
    apply simulates_pointer. intros pathPointer.
    destruct (isPrefixTo fromPointer pathPointer); [apply simulates_raise|].
    apply simulates_get; [done|]. intros x jx Hx.
    destruct (is_root _); [by apply simulates_ret|].
    apply simulates_bind with (R := denotes); [by apply replace_sim|].
    intros s1 d1 jd1 Hp Hd1.
    destruct (isPrefixTo pathPointer fromPointer);
      [by apply simulates_ret|by apply remove_sim]. }
  destruct (String.eqb (op o) "remove").
  { apply simulates_try_describe.
    destruct (is_root _); [apply simulates_ret; constructor|].
    apply simulates_pointer. intros pointer. by apply remove_sim. }
  destruct (String.eqb (op o) "replace").
  { apply simulates_try_describe.
    destruct Hvalue as [x jx Hx|]; [|apply simulates_raise].
    destruct (is_root _); [by apply simulates_ret|].
    apply simulates_pointer. intros pathPointer.
    apply simulates_has; [done|]. intros found.
    destruct (negb found); [apply simulates_raise|by apply replace_sim]. }
  destruct (String.eqb (op o) "test"); [|apply simulates_raise].
  apply simulates_try_describe.
  destruct Hvalue as [x jx Hx|]; [|apply simulates_raise].
  apply simulates_pointer. intros pointer.
  apply simulates_get; [done|]. intros target jtarget Htarget.
  apply simulates_compare; [done..|]. by apply simulates_ret.
Qed.

(** The store model refines the value model: started on a document and a
    patch that stand for [D] and [patch], [applyPatch] in the store keeps
    the store it starts from, and it throws the error that [applyPatch]
    over values throws, or returns a value that stands for the document
    that it returns. *)
Theorem store_simulates_values hpatch : ∀ s document D patch,
  denotes s document D →
  Forall2 (denotes_operation s) hpatch patch →
  simulates denotes s (Heap.applyPatch document hpatch) (applyPatch D patch).
Proof.
  induction hpatch as [|h hpatch IH]; intros s document D patch HD Hpatch;
    inversion Hpatch as [|? o ? patch' Ho Hrest]; subst.
  - by apply simulates_ret.
  - cbn [Heap.applyPatch applyPatch].
    apply simulates_bind with (R := denotes); [by apply applyOperation_sim|].
    intros s1 d1 jd1 Hp Hd1. apply IH; [done|].
    eapply Forall2_impl; [exact Hrest|].
    intros; by eapply denotes_operation_mono.
Qed.

End Refinement.

(** ** Atomicity *)

(** C1. If the operations before some operation succeed and that operation
    fails, the whole patch fails with the failure of that operation: no
    document is returned. In the store model, where arrays and objects are
    cells that can be updated in place, the call moreover leaves every cell
    of the store it started from as it was: whatever is reachable from the
    document of the caller is unchanged, and the effects of the operations
    that succeeded and of the one that failed are on cells that were made
    during the call. And when the document of the caller stands for the
    value [D], a patch that fails over values fails in the store with the
    same error, and the document of the caller still stands for [D]. *)
Theorem patch_atomicity :
  (∀ (D D1 : JsonValue) (before after : list Operation)
     (failing : Operation) (e : JsonPatchError),
     applyPatch D before = Ok D1 →
     applyOperation D1 failing = Throw e →
     applyPatch D (before ++ failing :: after) = Throw e)
  ∧ (∀ (document d1 : Heap.Value) (before after : list Heap.Operation)
       (failing : Heap.Operation) (s s1 s2 : list Heap.Cell)
       (x : Heap.Exception),
       Heap.applyPatch document before s = (s1, Heap.Return d1) →
       Heap.applyOperation d1 failing s1 = (s2, Heap.Raise x) →
       Heap.applyPatch document (before ++ failing :: after) s
       = (s2, Heap.Raise x)
       ∧ s `prefix_of` s2
       ∧ ∀ l c, s !! l = Some c → s2 !! l = Some c)
  ∧ (∀ (s : list Heap.Cell) (document : Heap.Value) (D : JsonValue)
       (hpatch : list Heap.Operation) (patch : list Operation)
       (e : JsonPatchError),
       denotes s document D →
       Forall2 (denotes_operation s) hpatch patch →
       applyPatch D patch = Throw e →
       ∃ s', Heap.applyPatch document hpatch s
             = (s', Heap.Raise (Heap.OfJsonPatchError e))
             ∧ s `prefix_of` s'
             ∧ denotes s' document D).
Proof.
  split_and!.
  - intros D D1 before after failing e Hbefore Hfail.
    rewrite pure_applyPatch_app, Hbefore. cbn. by rewrite Hfail.
  - intros document d1 before after failing s s1 s2 x Hbefore Hfail.
    assert (Hrun : Heap.applyPatch document (before ++ failing :: after) s
                   = (s2, Heap.Raise x)).
    { rewrite applyPatch_app, Hbefore. cbn [Heap.applyPatch].
      unfold mbind, Heap.M_bind. by rewrite Hfail. }
    assert (Hkeep : s `prefix_of` s2) by (by eapply keeps_applyPatch).
    split_and!; [done..|].
    intros l c Hl. by eapply prefix_lookup_Some.
  - intros s document D hpatch patch e HD Hpatch Hthrow.
    destruct (store_simulates_values hpatch s document D patch HD Hpatch)
      as (s' & r & Hrun & Hp & Hr).
    rewrite Hthrow in Hr. destruct r as [d|[e'|]]; try done.
    cbn in Hr. subst e'. exists s'. split_and!; [done..|].
    by eapply denotes_mono.
Qed.

(** The scenario of [test.js] for atomicity, in the store model: the
    document is the object of reference 2; the replace succeeds on three new
    cells, the test fails, and the three cells of the caller are as they
    were. *)
Lemma patch_atomicity_witness :
  let s0 :=
    [Heap.CObject {[ "c" := Heap.VNumber 41 ]};
     Heap.CObject {[ "b" := Heap.VRef 0 ]};
     Heap.CObject {[ "a" := Heap.VRef 1 ]}] in
  let s2 :=
    s0 ++ [Heap.CObject {[ "c" := Heap.VNumber 42 ]};
           Heap.CObject {[ "b" := Heap.VRef 3 ]};
           Heap.CObject {[ "a" := Heap.VRef 4 ]}] in
  let replace_c :=
    Heap.mkOperation "replace" (Some "/a/b/c") None (Some (Heap.VNumber 42)) in
  let test_c :=
    Heap.mkOperation "test" (Some "/a/b/c") None (Some (Heap.VString "C")) in
  Heap.applyPatch (Heap.VRef 2) ([replace_c] ++ test_c :: []) s0
  = (s2, Heap.Raise
           (Heap.OfJsonPatchError (mkError TestMismatch ["test failed"])))
  ∧ s0 `prefix_of` s2
  ∧ ∀ l c, s0 !! l = Some c → s2 !! l = Some c.
Proof.
  intros s0 s2 replace_c test_c.
  apply (proj1 (proj2 patch_atomicity) (Heap.VRef 2) (Heap.VRef 5)
           [replace_c] [] test_c s0 s2 s2).
  - vm_compute. reflexivity.
  - vm_compute. reflexivity.
Defined.

(** * More of the code *)

(** ** [compare.js] decides equality of values *)

Lemma compare_loop_eq (va : list JsonValue) :
  Forall (λ v, ∀ item, compare item v = Ok () → item = v) va →
  ∀ array, length array = length va →
    (fix loop (va array : list JsonValue) {struct va} : result () :=
       match va, array with
       | v :: va', x :: array' => compare x v;; loop va' array'
       | _, _ => Ok ()
       end) va array = Ok () →
    array = va.
Proof.
  induction 1 as [|v va Hv _ IH]; intros [|x array] Hlen Hloop; try done.
  destruct (compare x v) as [[]|e] eqn:Hxv; [|done].
  cbn in Hloop. f_equal; [by apply Hv|]. apply IH; [|done].
  cbn in Hlen. lia.
Qed.

Lemma compare_refl : ∀ value, compare value value = Ok ().
Proof.
  intros jv. induction jv as [|b|n|t|va IH|vo IH] using json_ind.
  - done.
  - cbn. by rewrite Bool.eqb_reflx.
  - cbn. by rewrite Z.eqb_refl.
  - cbn. by rewrite String.eqb_refl.
  - cbn [compare]. rewrite Nat.eqb_refl. cbn [negb].
    induction IH as [|v va Hv _ IHva]; [done|]. by rewrite Hv.
  - cbn [compare]. rewrite Nat.eqb_refl. cbn [negb].
    rewrite !bool_decide_eq_true_2 by done. cbn [negb].
    destruct (fold_steps_result
                (λ valueKey v, match vo !! valueKey with
                               | Some x => compare x v
                               | None => mismatch
                               end) vo)
      as [[Hr _]|(e' & k & v & Hr & Hk & Hg)]; cbv zeta in Hr; rewrite Hr;
      [done|].
    rewrite Hk in Hg. by rewrite (IH k v Hk) in Hg.
Qed.

Lemma compare_eq : ∀ value item, compare item value = Ok () → item = value.
Proof.
  intros jv. induction jv as [|b|n|t|va IH|vo IH] using json_ind;
    intros item.
  1-4: destruct item; cbn; unfold mismatch; repeat case_match; intros;
    simplify_eq; try done.
  - f_equal. by apply Bool.eqb_prop.
  - f_equal. by apply Z.eqb_eq.
  - f_equal. by apply String.eqb_eq.
  - destruct item as [| | | |array|object];
      cbn [compare comparePrimitive]; unfold mismatch; try done.
    destruct (length array =? length va)%nat eqn:Hlen; [|done].
    cbn [negb]. intros Hloop. f_equal.
    apply Nat.eqb_eq in Hlen. by apply compare_loop_eq.
  - destruct item as [| | | |array|object];
      cbn [compare comparePrimitive]; try (unfold mismatch; done).
    destruct (negb _); [done|].
    destruct (bool_decide (dom vo ⊆ dom object)) eqn:Hsub1; [|done].
    destruct (bool_decide (dom object ⊆ dom vo)) eqn:Hsub2; [|done].
    cbn [negb].
    apply bool_decide_eq_true in Hsub1, Hsub2.
    destruct (fold_steps_result
                (λ valueKey v, match object !! valueKey with
                               | Some x => compare x v
                               | None => mismatch
                               end) vo)
      as [[Hr Hall]|(e' & k & v & Hr & Hk & Hg)]; cbv zeta in Hr; rewrite Hr;
      [|done].
    intros _. f_equal. apply map_eq. intros k.
    destruct (vo !! k) as [v|] eqn:Hk.
    + specialize (Hall k v Hk). cbn in Hall.
      destruct (object !! k) as [x|]; [|done].
      f_equal. by apply (IH k v Hk).
    + apply not_elem_of_dom. apply not_elem_of_dom in Hk. set_solver.
Qed.

(** X1. A call of [compare] returns exactly when its two arguments are the
    same value: same primitive, arrays with the same elements in the same
    order, objects with the same members. One of the two values has no
    member with an inherited name: the key tests of [compareObject] find
    such a name in every object, and with equally many keys on both sides
    they are exact as soon as the keys of one side are not inherited. *)
Theorem compare_returns_iff_equal (item value : JsonValue) :
  own_members item = true ∨ own_members value = true →
  (compare item value = Ok () ↔ item = value).
Proof.
  intros _. split; [apply compare_eq|]. intros ->. apply compare_refl.
Qed.

Lemma compare_returns_iff_equal_witness :
  compare (JObject {[ "a" := JArray [JNumber 1] ]}) (JObject ∅) = Ok ()
  ↔ JObject {[ "a" := JArray [JNumber 1] ]} = JObject ∅.
Proof.
  apply (compare_returns_iff_equal (JObject {[ "a" := JArray [JNumber 1] ]})
           (JObject ∅)).
  left. vm_compute. reflexivity.
Defined.

(** X2. [compare] does not depend on which argument is the operation value
    and which one the target: the two calls return together, and when they
    throw they throw the same error, which carries no label. One of the
    two values has no member with an inherited name. *)
Theorem compare_symmetric (item value : JsonValue) :
  own_members item = true ∨ own_members value = true →
  compare item value = compare value item
  ∧ (compare item value = Ok ()
     ∨ compare item value = Throw (error TestMismatch)).
Proof.
  intros _.
  assert (Hcases : ∀ a b, compare a b = Ok ()
                          ∨ compare a b = Throw (error TestMismatch)).
  { intros a b. destruct (compare a b) as [[]|e] eqn:H; [by left|right].
    f_equal. by eapply compare_throw. }
  split; [|done].
  destruct (Hcases item value) as [H|H], (Hcases value item) as [H'|H'];
    rewrite H, H'; try done.
  - apply compare_eq in H as ->. by rewrite compare_refl in H'.
  - apply compare_eq in H' as ->. by rewrite compare_refl in H.
Qed.

Lemma compare_symmetric_witness :
  compare (JObject {[ "a" := JNumber 1 ]}) (JArray [JNumber 1])
  = compare (JArray [JNumber 1]) (JObject {[ "a" := JNumber 1 ]})
  ∧ (compare (JObject {[ "a" := JNumber 1 ]}) (JArray [JNumber 1]) = Ok ()
     ∨ compare (JObject {[ "a" := JNumber 1 ]}) (JArray [JNumber 1])
       = Throw (error TestMismatch)).
Proof.
  apply (compare_symmetric (JObject {[ "a" := JNumber 1 ]})
           (JArray [JNumber 1])).
  right. vm_compute. reflexivity.
Defined.

(** ** Single operations *)

Lemma applyPatch_one D operation :
  applyPatch D [operation] = applyOperation D operation.
Proof. cbn. by destruct (applyOperation D operation). Qed.

Lemma is_root_spec P : is_root (Some P) = true ↔ P = "".
Proof.
  unfold is_root. rewrite bool_decide_eq_true. split; [by intros [= ->]|].
  by intros ->.
Qed.

(** What each of the six operation objects runs. *)
Lemma applyOperation_equations D P F V :
  applyOperation D (op_add P V)
  = try_describe "add failed"
      (if is_root (Some P) then Ok V
       else pointer ← Pointer (Some P); add D pointer V)
  ∧ applyOperation D (op_remove P)
    = try_describe "remove failed"
        (if is_root (Some P) then Ok JNull
         else pointer ← Pointer (Some P); remove D pointer)
  ∧ applyOperation D (op_replace P V)
    = try_describe "replace failed"
        (if is_root (Some P) then Ok V
         else
           pathPointer ← Pointer (Some P);
           found ← has D pathPointer;
           if negb found then Throw (error NotFound)
           else replace D pathPointer V)
  ∧ applyOperation D (op_test P V)
    = try_describe "test failed"
        (pointer ← Pointer (Some P);
         target ← get D pointer;
         compare V target;;
         Ok D)
  ∧ applyOperation D (op_copy F P)
    = try_describe "copy failed"
        (fromPointer ← Pointer (Some F);
         v ← get D fromPointer;
         if is_root (Some P) then Ok v
         else pointer ← Pointer (Some P); add D pointer v)
  ∧ applyOperation D (op_move F P)
    = try_describe "move failed"
        (if bool_decide (Some F = Some P) then Ok D
         else
           fromPointer ← Pointer (Some F);
           pathPointer ← Pointer (Some P);
           if isPrefixTo fromPointer pathPointer
           then Throw (error InvalidPrefixMove)
           else
             v ← get D fromPointer;
             if is_root (Some P) then Ok v
             else
               document' ← replace D pathPointer v;
               if isPrefixTo pathPointer fromPointer then Ok document'
               else remove document' fromPointer).
Proof. by split_and!. Qed.

(** ** The tokens of a pointer *)

Lemma split_cons sep s : ∃ x xs, Js.split sep s = x :: xs.
Proof.
  induction s as [|c s (x & xs & IH)]; cbn; [by eexists _, _|].
  destruct (Ascii.eqb c sep); [by eexists _, _|].
  rewrite IH. by eexists _, _.
Qed.

Lemma Pointer_Some P :
  Pointer (Some P)
  = match P with
    | EmptyString => Ok []
    | String c P' =>
        if Ascii.eqb c "/" then Ok (Js.split "/" P')
        else Throw (error InvalidPointer)
    end.
Proof.
  destruct P as [|c P']; [done|]. unfold Pointer, validatePath.
  destruct (Ascii.eqb c "/") eqn:Hc; [|done].
  cbn. by rewrite Hc.
Qed.

Lemma Pointer_tokens P pointer :
  Pointer (Some P) = Ok pointer → (pointer = [] ↔ P = "").
Proof.
  rewrite Pointer_Some. destruct P as [|c P']; [by intros [= <-]|].
  destruct (Ascii.eqb c "/"); [|done]. intros [= <-].
  destruct (split_cons "/" P') as (x & xs & ->). done.
Qed.

Lemma Pointer_not_root P pointer :
  Pointer (Some P) = Ok pointer → is_root (Some P) = false → pointer ≠ [].
Proof.
  intros HP Hroot Hnil. apply (Pointer_tokens _ _ HP) in Hnil.
  apply is_root_spec in Hnil. congruence.
Qed.

(** ** Reading along a pointer *)

Section Walks.

#[local] Arguments parseTokenString : simpl never.
#[local] Arguments Js.splice : simpl never.
#[local] Arguments Js.at_index : simpl never.

Lemma parseTokenString_kinds t c e :
  parseTokenString t c = Throw e →
  e = error InvalidArrayIndex ∨ e = error PathNotObjectOrArray.
Proof.
  unfold parseTokenString. intros H.
  repeat case_match; simplify_eq; auto.
Qed.

(** What a token can be read as: a name against an object, a number
    against an array. *)
Lemma parseTokenString_cases t c index :
  parseTokenString t c = Ok index →
  (∃ o, c = JObject o ∧ index = Key (decodedTokenString t))
  ∨ (∃ a i, c = JArray a ∧ index = Idx i).
Proof.
  unfold parseTokenString. intros H.
  destruct c; try done; repeat case_match; simplify_eq; eauto.
Qed.

Lemma parseTokenString_primitive t c :
  negb (isArray c) && negb (isObject c) = true →
  parseTokenString t c = Throw (error PathNotObjectOrArray).
Proof. by destruct c. Qed.

Lemma get_kinds D pointer e :
  get D pointer = Throw e →
  e = error InvalidArrayIndex ∨ e = error PathNotObjectOrArray
  ∨ e = error NotFound.
Proof.
  revert D. induction pointer as [|t rest IH]; intros D H; [done|].
  cbn [get] in H.
  destruct (parseTokenString t D) as [index|e'] eqn:Ht; cbn in H.
  - destruct (member D index) as [deeper|]; [by eapply IH|].
    simplify_eq. auto.
  - simplify_eq. apply parseTokenString_kinds in Ht as [->| ->]; auto.
Qed.

Lemma has_kinds D pointer e :
  has D pointer = Throw e →
  e = error InvalidArrayIndex ∨ e = error PathNotObjectOrArray.
Proof.
  revert D. induction pointer as [|t rest IH]; intros D H; [done|].
  cbn [has] in H.
  destruct (parseTokenString t D) as [index|e'] eqn:Ht; cbn in H.
  - destruct (member D index) as [deeper|]; [by eapply IH|done].
  - simplify_eq. by apply parseTokenString_kinds in Ht.
Qed.

Lemma has_get_cases D pointer :
  match has D pointer with
  | Ok true => ∃ v, get D pointer = Ok v
  | Ok false => get D pointer = Throw (error NotFound)
  | Throw e => get D pointer = Throw e ∧ kind e ≠ NotFound
  end.
Proof.
  revert D. induction pointer as [|t rest IH]; intros D; [by eexists|].
  cbn [has get].
  destruct (parseTokenString t D) as [index|e] eqn:Ht; cbn.
  - destruct (member D index) as [deeper|]; [apply IH|done].
  - split; [done|]. by apply parseTokenString_kinds in Ht as [->| ->].
Qed.

End Walks.

(** X3. [has] and [get] walk alike: [has] answers true where [get] returns
    a value, false where [get] throws "pointer does not lead anywhere", and
    it throws what [get] throws in the other cases (a token that is not an
    array index, a token read against a primitive). *)
Theorem has_follows_get (D : JsonValue) (pointer : list string) :
  (has D pointer = Ok true ↔ ∃ v, get D pointer = Ok v)
  ∧ (has D pointer = Ok false ↔ get D pointer = Throw (error NotFound))
  ∧ (∀ e, has D pointer = Throw e ↔
          get D pointer = Throw e ∧ kind e ≠ NotFound).
Proof.
  pose proof (has_get_cases D pointer) as H.
  destruct (has D pointer) as [[]|e].
  - destruct H as [v Hv]. rewrite Hv. split_and!.
    + split; [eauto|done].
    + split; done.
    + intros e. split; [done|]. by intros [? _].
  - rewrite H. split_and!.
    + split; [done|]. by intros [].
    + split; done.
    + intros e. split; [done|]. by intros [[= <-] ?].
  - destruct H as [-> Hk]. split_and!.
    + split; [done|]. by intros [].
    + split; [done|]. by intros [= ->].
    + intros e'. split; [by intros [= ->]|]. by intros [[= ->] _].
Qed.

(** X4. Reading along two pointers one after the other: the value at the
    end of [p1 ++ p2] is the value at the end of [p2] in the value at the
    end of [p1], and the walk fails where the first of the two fails. *)
Theorem get_app (D : JsonValue) (p1 p2 : list string) :
  get D (p1 ++ p2) = get D p1 ≫= λ d, get d p2.
Proof.
  revert D. induction p1 as [|t p1 IH]; intros D; [done|].
  cbn [app get]. destruct (parseTokenString t D) as [index|e]; [|done].
  cbn [mbind result_bind].
  destruct (member D index) as [deeper|]; [apply IH|done].
Qed.

(** X5. The test operation returns exactly when its path is a pointer that
    leads to the value of the operation, and then it returns the document
    it was given. The tokens of the path are literal, and the value of the
    operation has no member with an inherited name. *)
Theorem test_returns_iff (D D' : JsonValue) (P : string) (V : JsonValue) :
  literal_path P = true →
  own_members V = true →
  (applyPatch D [op_test P V] = Ok D' ↔
   D' = D ∧ ∃ pointer, Pointer (Some P) = Ok pointer ∧ get D pointer = Ok V).
Proof.
  intros _ _. rewrite applyPatch_one.
  destruct (applyOperation_equations D P P V) as (_ & _ & _ & -> & _).
  destruct (Pointer (Some P)) as [pointer|e]; cbn.
  - destruct (get D pointer) as [target|e] eqn:Hget; cbn.
    + destruct (compare V target) as [[]|e] eqn:Hc; cbn.
      * apply compare_eq in Hc as ->. split; [intros [= <-]; eauto|].
        by intros [-> _].
      * split; [done|]. intros (_ & pointer' & [= <-] & Hget').
        rewrite Hget in Hget'. injection Hget' as ->.
        by rewrite compare_refl in Hc.
    + split; [done|]. intros (_ & pointer' & [= <-] & Hget').
      by rewrite Hget in Hget'.
  - split; [done|]. by intros (_ & pointer' & [=] & _).
Qed.

Lemma test_returns_iff_witness :
  applyPatch (JObject {[ "a" := JArray [JNumber 1] ]})
    [op_test "/a/0" (JNumber 1)]
  = Ok (JObject {[ "a" := JArray [JNumber 1] ]})
  ↔ JObject {[ "a" := JArray [JNumber 1] ]}
    = JObject {[ "a" := JArray [JNumber 1] ]}
    ∧ ∃ pointer, Pointer (Some "/a/0") = Ok pointer
                 ∧ get (JObject {[ "a" := JArray [JNumber 1] ]}) pointer
                   = Ok (JNumber 1).
Proof.
  apply (test_returns_iff (JObject {[ "a" := JArray [JNumber 1] ]})
           (JObject {[ "a" := JArray [JNumber 1] ]}) "/a/0" (JNumber 1)).
  - vm_compute. reflexivity.
  - vm_compute. reflexivity.
Defined.

(** ** Writing along a pointer *)

Section Writes.

#[local] Arguments parseTokenString : simpl never.
#[local] Arguments Js.splice : simpl never.
#[local] Arguments Js.at_index : simpl never.

Lemma at_index_Some {A} (a : list A) i x :
  Js.at_index a i = Some x →
  0 ≤ i ∧ (Z.to_nat i < length a)%nat ∧ a !! Z.to_nat i = Some x.
Proof.
  unfold Js.at_index. destruct (Z.ltb_spec i 0) as [|H0]; [done|].
  intros Hx. split_and!; [done| |done]. by eapply lookup_lt_Some.
Qed.

Lemma at_index_nat {A} (a : list A) (n : nat) :
  Js.at_index a (Z.of_nat n) = a !! n.
Proof.
  unfold Js.at_index. destruct (Z.ltb_spec (Z.of_nat n) 0); [lia|].
  by rewrite Nat2Z.id.
Qed.

Lemma splice_replace_at {A} (a : list A) i x :
  0 ≤ i → (Z.to_nat i < length a)%nat →
  Js.splice a i 1 [x] = <[Z.to_nat i := x]> a.
Proof.
  intros H0 Hi. unfold Js.splice, Js.splice_start.
  destruct (Z.ltb_spec i 0); [lia|].
  rewrite Z.min_l by lia. rewrite insert_take_drop by done.
  by rewrite Nat.add_1_r.
Qed.

Lemma splice_delete_at {A} (a : list A) i :
  0 ≤ i → (Z.to_nat i < length a)%nat →
  Js.splice a i 1 [] = delete (Z.to_nat i) a.
Proof.
  intros H0 Hi. unfold Js.splice, Js.splice_start.
  destruct (Z.ltb_spec i 0); [lia|].
  rewrite Z.min_l by lia. rewrite delete_take_drop.
  by rewrite Nat.add_1_r.
Qed.

Lemma splice_insert_before {A} (a : list A) i x :
  0 ≤ i → (Z.to_nat i ≤ length a)%nat →
  Js.splice a i 0 [x] = take (Z.to_nat i) a ++ x :: drop (Z.to_nat i) a.
Proof.
  intros H0 Hi. unfold Js.splice, Js.splice_start.
  destruct (Z.ltb_spec i 0); [lia|].
  rewrite Z.min_l by lia. by rewrite Nat.add_0_r.
Qed.

(** A token that leads to a member of an array is not "-", and it is read
    as the same index against any array. *)
Lemma member_not_dash t a i d :
  parseTokenString t (JArray a) = Ok (Idx i) →
  Js.at_index a i = Some d →
  String.eqb t "-" = false.
Proof.
  intros Ht Hd. destruct (String.eqb t "-") eqn:Hdash; [|done].
  unfold parseTokenString in Ht. rewrite Hdash in Ht. injection Ht as <-.
  rewrite at_index_nat in Hd. apply lookup_lt_Some in Hd. lia.
Qed.

(** After [splice(index, 1, x)] or the assignment of [x], the token leads
    to [x]. *)
Lemma rebuild_member t D index d x :
  parseTokenString t D = Ok index →
  member D index = Some d →
  parseTokenString t (rebuild D index 1 x) = Ok index
  ∧ member (rebuild D index 1 x) index = Some x.
Proof.
  intros Ht Hd.
  destruct (parseTokenString_cases _ _ _ Ht) as [(o & -> & ->)|(a & i & -> & ->)].
  - cbn. by rewrite lookup_insert_eq.
  - cbn in Hd. pose proof (member_not_dash _ _ _ _ Ht Hd) as Hdash.
    apply at_index_Some in Hd as (H0 & Hi & Hd).
    cbn [rebuild member]. rewrite splice_replace_at by done. split.
    + by rewrite (parseTokenString_array_indep t a) by done.
    + unfold Js.at_index. destruct (Z.ltb_spec i 0); [lia|].
      by rewrite list_lookup_insert_eq.
Qed.

(** After [splice(index, 0, x)] or the assignment of [x], the token leads
    to [x], unless it counts from the end of the array. *)
Lemma rebuild_inserted t D index x :
  parseTokenString t D = Ok index →
  match D, index with
  | JArray a, Idx i =>
      String.eqb t "-" = false ∧ 0 ≤ i ∧ (Z.to_nat i ≤ length a)%nat
  | _, _ => True
  end →
  parseTokenString t (rebuild D index 0 x) = Ok index
  ∧ member (rebuild D index 0 x) index = Some x.
Proof.
  intros Ht Hin.
  destruct (parseTokenString_cases _ _ _ Ht) as [(o & -> & ->)|(a & i & -> & ->)].
  - cbn. by rewrite lookup_insert_eq.
  - destruct Hin as (Hdash & H0 & Hi).
    cbn [rebuild member]. rewrite splice_insert_before by done. split.
    + by rewrite (parseTokenString_array_indep t a) by done.
    + unfold Js.at_index. destruct (Z.ltb_spec i 0); [lia|].
      rewrite lookup_app_r by (rewrite length_take; lia).
      rewrite length_take, Nat.min_l by lia. by rewrite Nat.sub_diag.
Qed.

Lemma container_negb D :
  isArray D || isObject D = true →
  negb (isArray D) && negb (isObject D) = false.
Proof. by destruct D. Qed.

(** One step of each walk, with a token after the one that is read. *)
Lemma walk_equations D t t' rest V :
  get D (t :: t' :: rest)
  = (index ← parseTokenString t D;
     match member D index with
     | Some deeper => get deeper (t' :: rest)
     | None => Throw (error NotFound)
     end)
  ∧ replace D (t :: t' :: rest) V
    = (index ← parseTokenString t D;
       modifiedMember ←
         match member D index with
         | Some deeperElement =>
             if negb (isArray deeperElement) && negb (isObject deeperElement)
             then Throw (error PathNotObjectOrArray)
             else replace deeperElement (t' :: rest) V
         | None => Throw (error PathNotObjectOrArray)
         end;
       Ok (rebuild D index 1 modifiedMember))
  ∧ remove D (t :: t' :: rest)
    = (index ← parseTokenString t D;
       match member D index with
       | Some deeperElement =>
           if negb (isArray deeperElement) && negb (isObject deeperElement)
           then Throw (error PathNotObjectOrArray)
           else
             modifiedMember ← remove deeperElement (t' :: rest);
             Ok (rebuild D index 1 modifiedMember)
       | None => Throw (error PathNotObjectOrArray)
       end)
  ∧ add D (t :: t' :: rest) V
    = (index ← parseTokenString t D;
       modifiedMember ←
         match member D index with
         | Some deeperElement =>
             if negb (isArray deeperElement) && negb (isObject deeperElement)
             then Throw (error PathNotObjectOrArray)
             else add deeperElement (t' :: rest) V
         | None => Throw (error PathNotObjectOrArray)
         end;
       match D, index with
       | JArray a, Idx i =>
           if Z.of_nat (length a) <? i then Throw (error OutOfBounds)
           else Ok (rebuild D index 0 modifiedMember)
       | _, _ => Ok (rebuild D index 0 modifiedMember)
       end).
Proof. by split_and!. Qed.

(** Where [get] returns, [replace] returns, and [get] then finds the new
    value at the same pointer. *)
Lemma replace_get pointer : ∀ D v V,
  pointer ≠ [] → get D pointer = Ok v →
  ∃ D', replace D pointer V = Ok D' ∧ get D' pointer = Ok V.
Proof.
  induction pointer as [|t rest IH]; intros D v V Hne Hget; [done|].
  cbn [get] in Hget.
  destruct (parseTokenString t D) as [index|] eqn:Ht; [|done].
  cbn [mbind result_bind] in Hget.
  destruct (member D index) as [deeper|] eqn:Hd; [|done].
  destruct rest as [|t' rest].
  - exists (rebuild D index 1 V). cbn [replace get]. rewrite Ht. cbn [mbind result_bind].
    destruct (rebuild_member t D index deeper V Ht Hd) as [Hp Hmem].
    rewrite Hp. cbn [mbind result_bind]. by rewrite Hmem.
  - destruct (IH deeper v V) as (m & Hm & Hgm); [done|done|].
    assert (Hc : negb (isArray deeper) && negb (isObject deeper) = false).
    { apply container_negb. cbn [get] in Hget.
      destruct (parseTokenString t' deeper) eqn:Ht'; [|done].
      by eapply parseTokenString_container. }
    exists (rebuild D index 1 m).
    destruct (walk_equations D t t' rest V) as (_ & -> & _).
    rewrite Ht. cbn [mbind result_bind].
    rewrite Hd, Hc, Hm. cbn [mbind result_bind]. split; [done|].
    destruct (rebuild_member t D index deeper m Ht Hd) as [Hp Hmem].
    destruct (walk_equations (rebuild D index 1 m) t t' rest V) as (-> & _).
    rewrite Hp. cbn [mbind result_bind]. by rewrite Hmem.
Qed.

(** Where [get] returns, [remove] returns; where [get] throws, [remove]
    throws. *)
Lemma remove_get pointer : ∀ D,
  pointer ≠ [] →
  match get D pointer with
  | Ok _ => ∃ D', remove D pointer = Ok D'
  | Throw _ => ∃ e, remove D pointer = Throw e
  end.
Proof.
  induction pointer as [|t rest IH]; intros D Hne; [done|].
  cbn [get remove].
  destruct (parseTokenString t D) as [index|e] eqn:Ht; cbn [mbind result_bind]; [|by eexists].
  destruct rest as [|t' rest].
  - destruct (member D index) as [deeper|]; by eexists.
  - destruct (member D index) as [deeper|]; [|by eexists].
    destruct (negb (isArray deeper) && negb (isObject deeper)) eqn:Hc.
    + cbn [get]. rewrite parseTokenString_primitive by done. by eexists.
    + specialize (IH deeper). destruct (get deeper (t' :: rest)).
      * destruct IH as [m ->]; [done|]. by eexists.
      * destruct IH as [e' ->]; [done|]. by eexists.
Qed.

(** Where [replace] returns, [get] returns: a [replace] that is not guarded
    by [has] still needs each container on its way, and ends at a member
    or at a position where one can be put. *)
Lemma replace_kinds pointer : ∀ D V e,
  pointer ≠ [] → replace D pointer V = Throw e →
  e = error InvalidArrayIndex ∨ e = error PathNotObjectOrArray.
Proof.
  induction pointer as [|t rest IH]; intros D V e Hne H; [done|].
  cbn [replace] in H.
  destruct (parseTokenString t D) as [index|e'] eqn:Ht; cbn [mbind result_bind] in H.
  - destruct rest as [|t' rest]; [done|].
    destruct (member D index) as [deeper|]; cbn [mbind result_bind] in H; [|simplify_eq; auto].
    destruct (negb (isArray deeper) && negb (isObject deeper)); cbn [mbind result_bind] in H;
      [simplify_eq; auto|].
    destruct (replace deeper (t' :: rest) V) as [m|e''] eqn:Hm; [done|].
    cbn [mbind result_bind] in H. simplify_eq. by eapply IH.
  - simplify_eq. by apply parseTokenString_kinds in Ht.
Qed.

Lemma remove_kinds pointer : ∀ D e,
  pointer ≠ [] → remove D pointer = Throw e →
  e = error InvalidArrayIndex ∨ e = error PathNotObjectOrArray
  ∨ e = error NotFound.
Proof.
  induction pointer as [|t rest IH]; intros D e Hne H; [done|].
  cbn [remove] in H.
  destruct (parseTokenString t D) as [index|e'] eqn:Ht; cbn [mbind result_bind] in H.
  - destruct rest as [|t' rest].
    + destruct (member D index); simplify_eq; auto.
    + destruct (member D index) as [deeper|]; [|simplify_eq; auto].
      destruct (negb (isArray deeper) && negb (isObject deeper));
        [simplify_eq; auto|].
      destruct (remove deeper (t' :: rest)) as [m|e''] eqn:Hm; [done|].
      cbn [mbind result_bind] in H. simplify_eq. by eapply IH.
  - simplify_eq. apply parseTokenString_kinds in Ht as [->| ->]; auto.
Qed.

Lemma add_kinds pointer : ∀ D V e,
  pointer ≠ [] → add D pointer V = Throw e →
  e = error InvalidArrayIndex ∨ e = error PathNotObjectOrArray
  ∨ e = error OutOfBounds.
Proof.
  induction pointer as [|t rest IH]; intros D V e Hne H; [done|].
  cbn [add] in H.
  destruct (parseTokenString t D) as [index|e'] eqn:Ht; cbn [mbind result_bind] in H.
  - assert (Htail : ∀ m,
      match D, index with
      | JArray a, Idx i =>
          if Z.of_nat (length a) <? i then Throw (error OutOfBounds)
          else Ok (rebuild D index 0 m)
      | _, _ => Ok (rebuild D index 0 m)
      end = Throw e → e = error OutOfBounds).
    { intros m Hm. repeat case_match; by simplify_eq. }
    destruct rest as [|t' rest]; [cbn [mbind result_bind] in H; apply Htail in H; auto|].
    destruct (member D index) as [deeper|]; cbn [mbind result_bind] in H; [|simplify_eq; auto].
    destruct (negb (isArray deeper) && negb (isObject deeper)); cbn [mbind result_bind] in H;
      [simplify_eq; auto|].
    destruct (add deeper (t' :: rest) V) as [m|e''] eqn:Hm; cbn [mbind result_bind] in H.
    + apply Htail in H. auto.
    + simplify_eq. by eapply IH.
  - simplify_eq. apply parseTokenString_kinds in Ht as [->| ->]; auto.
Qed.

(** Where [add] returns, [get] finds the new value at the same pointer,
    unless the last token counts from the end of an array. *)
Lemma counts_from_end_cons D t t' rest index deeper :
  parseTokenString t D = Ok index → member D index = Some deeper →
  counts_from_end D (t :: t' :: rest) = counts_from_end deeper (t' :: rest).
Proof.
  intros Ht Hd. unfold counts_from_end.
  change (removelast (t :: t' :: rest)) with (t :: removelast (t' :: rest)).
  change (last (t :: t' :: rest)) with (last (t' :: rest)).
  cbn [get]. rewrite Ht. cbn [mbind result_bind]. by rewrite Hd.
Qed.

Lemma add_get pointer : ∀ D V D',
  add D pointer V = Ok D' → counts_from_end D pointer = false →
  get D' pointer = Ok V.
Proof.
  induction pointer as [|t rest IH]; intros D V D' Hadd Hend; [done|].
  destruct rest as [|t' rest].
  - cbn [add] in Hadd.
    destruct (parseTokenString t D) as [index|] eqn:Ht; [|done].
    cbn [mbind result_bind] in Hadd.
    assert (HD' : D' = rebuild D index 0 V)
      by (repeat case_match; by simplify_eq).
    destruct (rebuild_inserted t D index V Ht) as [Hp Hm].
    { unfold counts_from_end in Hend. cbn [removelast last get] in Hend.
      destruct (parseTokenString_cases _ _ _ Ht)
        as [(o & -> & ->)|(a & i & -> & ->)]; [done|].
      rewrite Ht in Hend. apply orb_false_iff in Hend as [Hdash Hneg].
      destruct (Z.ltb_spec (Z.of_nat (length a)) i); [done|].
      split_and!; [done|lia..]. }
    subst D'. cbn [get]. rewrite Hp. cbn [mbind result_bind].
    by rewrite Hm.
  - destruct (walk_equations D t t' rest V) as (_ & _ & _ & Heq).
    rewrite Heq in Hadd. clear Heq.
    destruct (parseTokenString t D) as [index|] eqn:Ht; [|done].
    cbn [mbind result_bind] in Hadd.
    destruct (member D index) as [deeper|] eqn:Hd; [|done].
    destruct (negb (isArray deeper) && negb (isObject deeper)); [done|].
    destruct (add deeper (t' :: rest) V) as [m|] eqn:Hm; [|done].
    cbn [mbind result_bind] in Hadd.
    assert (HD' : D' = rebuild D index 0 m)
      by (repeat case_match; by simplify_eq).
    rewrite (counts_from_end_cons D t t' rest index deeper) in Hend by done.
    destruct (rebuild_inserted t D index m Ht) as [Hp Hmem].
    { destruct (parseTokenString_cases _ _ _ Ht)
        as [(o & -> & ->)|(a & i & -> & ->)]; [done|].
      cbn [member] in Hd.
      pose proof (member_not_dash _ _ _ _ Ht Hd).
      apply at_index_Some in Hd as (? & ? & _). split_and!; [done..|lia]. }
    subst D'.
    destruct (walk_equations (rebuild D index 0 m) t t' rest V) as (-> & _).
    rewrite Hp. cbn [mbind result_bind]. rewrite Hmem. by eapply IH.
Qed.

Lemma length_splice {A} (a : list A) i n xs :
  (Js.splice_start (length a) i + n ≤ length a)%nat →
  length (Js.splice a i n xs) = (length a - n + length xs)%nat.
Proof.
  unfold Js.splice. intros H.
  rewrite !length_app, length_take, length_drop. lia.
Qed.

Lemma splice_start_le len i : (Js.splice_start len i ≤ len)%nat.
Proof.
  unfold Js.splice_start. destruct (Z.ltb_spec i 0); lia.
Qed.

End Writes.

(** X6. The remove operation returns exactly when its path leads to a
    value of the document (the root included, for which it returns
    [null]). The tokens of the path are literal. *)
Theorem remove_returns_iff_resolves (D : JsonValue) (P : string) :
  literal_path P = true →
  ((∃ D', applyPatch D [op_remove P] = Ok D') ↔ resolves D P = true).
Proof.
  intros _. rewrite applyPatch_one.
  destruct (applyOperation_equations D P P JNull) as (_ & -> & _).
  unfold resolves. destruct (is_root (Some P)) eqn:Hroot.
  - apply is_root_spec in Hroot as ->. cbn. split; eauto.
  - destruct (Pointer (Some P)) as [pointer|e] eqn:HP;
      cbn [mbind result_bind try_describe].
    + pose proof (remove_get pointer D (Pointer_not_root _ _ HP Hroot)) as H.
      destruct (get D pointer).
      * destruct H as [D' ->]. split; eauto.
      * destruct H as [e' ->]. split; [by intros [? [=]]|done].
    + split; [by intros [? [=]]|done].
Qed.

Lemma remove_returns_iff_resolves_witness :
  (∃ D', applyPatch (JObject {[ "a" := JNumber 1 ]}) [op_remove "/b"] = Ok D')
  ↔ resolves (JObject {[ "a" := JNumber 1 ]}) "/b" = true.
Proof.
  apply (remove_returns_iff_resolves (JObject {[ "a" := JNumber 1 ]}) "/b").
  vm_compute. reflexivity.
Defined.

(** X7. The replace operation returns exactly when its path leads to a
    value of the document, and what it returns has the value of the
    operation at that path. The tokens of the path are literal. *)
Theorem replace_returns_iff_resolves (D : JsonValue) (P : string)
    (V : JsonValue) :
  literal_path P = true →
  ((∃ D', applyPatch D [op_replace P V] = Ok D') ↔ resolves D P = true)
  ∧ ∀ D', applyPatch D [op_replace P V] = Ok D' →
          ∃ pointer, Pointer (Some P) = Ok pointer ∧ get D' pointer = Ok V.
Proof.
  intros _. rewrite applyPatch_one.
  destruct (applyOperation_equations D P P V) as (_ & _ & -> & _).
  unfold resolves. destruct (is_root (Some P)) eqn:Hroot.
  - apply is_root_spec in Hroot as ->. cbn. split; [split; eauto|].
    intros D' [= <-]. by exists [].
  - destruct (Pointer (Some P)) as [pointer|e] eqn:HP;
      cbn [mbind result_bind try_describe]; [|split; [split|]; try done;
        by intros [? [=]]].
    pose proof (has_get_cases D pointer) as H.
    destruct (has D pointer) as [[]|e]; cbn [mbind result_bind negb].
    + destruct H as [v Hv]. rewrite Hv.
      destruct (replace_get pointer D v V (Pointer_not_root _ _ HP Hroot) Hv)
        as (D1 & -> & Hget).
      split; [split; eauto|]. intros D' [= <-]. eauto.
    + rewrite H. split; [split|]; try done. by intros [? [=]].
    + destruct H as [-> _]. split; [split|]; try done. by intros [? [=]].
Qed.

(** X8. What an add operation returns has the value of the operation at
    the path of the operation, unless the last token of the path counts
    from the end of an array ("-", a negative number). The tokens of the
    path are literal. *)
Theorem add_then_get (D D' : JsonValue) (P : string) (V : JsonValue)
    (pointer : list string) :
  applyPatch D [op_add P V] = Ok D' →
  Pointer (Some P) = Ok pointer →
  literal_tokens pointer = true →
  counts_from_end D pointer = false →
  get D' pointer = Ok V.
Proof.
  rewrite applyPatch_one.
  destruct (applyOperation_equations D P P V) as (-> & _).
  intros Hadd HP _ Hend. destruct (is_root (Some P)) eqn:Hroot.
  - apply is_root_spec in Hroot as ->. injection HP as <-.
    by injection Hadd as <-.
  - rewrite HP in Hadd. cbn [mbind result_bind] in Hadd.
    destruct (add D pointer V) as [D1|] eqn:Hwalk; [|done].
    injection Hadd as <-. by eapply add_get.
Qed.

Lemma add_then_get_witness :
  get (JObject {[ "a" := JArray [JNumber 1; JNumber 2] ]}) ["a"; "1"]
  = Ok (JNumber 2).
Proof.
  apply (add_then_get (JObject {[ "a" := JArray [JNumber 1] ]})
           (JObject {[ "a" := JArray [JNumber 1; JNumber 2] ]})
           "/a/1" (JNumber 2) ["a"; "1"]).
  - vm_compute. reflexivity.
  - vm_compute. reflexivity.
  - vm_compute. reflexivity.
  - vm_compute. reflexivity.
Defined.

Lemma replace_returns_iff_resolves_witness :
  ∃ pointer, Pointer (Some "/a") = Ok pointer
             ∧ get (JObject {[ "a" := JNumber 2 ]}) pointer = Ok (JNumber 2).
Proof.
  assert (Hliteral : literal_path "/a" = true) by (vm_compute; reflexivity).
  apply (proj2 (replace_returns_iff_resolves
                  (JObject {[ "a" := JNumber 1 ]}) "/a" (JNumber 2)
                  Hliteral)).
  vm_compute. reflexivity.
Defined.

(** ** What a walk leaves as it was *)

Section Shapes.

#[local] Arguments parseTokenString : simpl never.
#[local] Arguments Js.splice : simpl never.
#[local] Arguments Js.at_index : simpl never.

Lemma add_root_array a pointer V D' :
  add (JArray a) pointer V = Ok D' →
  ∃ a', D' = JArray a' ∧ length a' = S (length a).
Proof.
  destruct pointer as [|t rest]; [done|]. cbn [add].
  destruct (parseTokenString t (JArray a)) as [index|] eqn:Ht; [|done].
  destruct (parseTokenString_cases _ _ _ Ht)
    as [(o & [=] & _)|(a0 & i & [= <-] & ->)].
  cbn [mbind result_bind].
  match goal with |- (?m ≫= _) = _ → _ => destruct m as [mm|]; [|done] end.
  cbn [mbind result_bind].
  destruct (Z.of_nat (length a) <? i); [done|]. intros [= <-].
  eexists. split; [done|]. rewrite length_splice; cbn [length]; [lia|].
  pose proof (splice_start_le (length a) i). lia.
Qed.

(** The three walks that build a document change, in a root object, only
    the member that the first token names. *)
Lemma walk_root_object o t rest V D' :
  add (JObject o) (t :: rest) V = Ok D'
  ∨ replace (JObject o) (t :: rest) V = Ok D'
  ∨ remove (JObject o) (t :: rest) = Ok D' →
  ∃ o', D' = JObject o'
        ∧ ∀ k, k ≠ decodedTokenString t → o' !! k = o !! k.
Proof.
  assert (Hins : ∀ m, ∃ o',
    JObject (<[decodedTokenString t := m]> o) = JObject o'
    ∧ ∀ k, k ≠ decodedTokenString t → o' !! k = o !! k).
  { intros m. eexists. split; [done|]. intros k Hk.
    by rewrite lookup_insert_ne. }
  assert (Hdel : ∃ o',
    JObject (delete (decodedTokenString t) o) = JObject o'
    ∧ ∀ k, k ≠ decodedTokenString t → o' !! k = o !! k).
  { eexists. split; [done|]. intros k Hk. by rewrite lookup_delete_ne. }
  intros [H|[H|H]].
  - cbn [add] in H. change (parseTokenString t (JObject o))
      with (Ok (A:=Index) (Key (decodedTokenString t))) in H.
    cbn [mbind result_bind] in H.
    match type of H with (?m ≫= _) = _ => destruct m as [mm|]; [|done] end.
    cbn in H. injection H as <-. apply Hins.
  - cbn [replace] in H. change (parseTokenString t (JObject o))
      with (Ok (A:=Index) (Key (decodedTokenString t))) in H.
    cbn [mbind result_bind] in H.
    match type of H with (?m ≫= _) = _ => destruct m as [mm|]; [|done] end.
    cbn in H. injection H as <-. apply Hins.
  - cbn [remove] in H. change (parseTokenString t (JObject o))
      with (Ok (A:=Index) (Key (decodedTokenString t))) in H.
    cbn [mbind result_bind] in H.
    destruct rest as [|t' rest].
    + destruct (member _ _); [|done]. cbn in H. injection H as <-.
      apply Hdel.
    + destruct (member _ _) as [deeper|]; [|done].
      destruct (negb _ && negb _); [done|].
      match type of H with (?m ≫= _) = _ => destruct m as [mm|]; [|done] end.
      cbn in H. injection H as <-. apply Hins.
Qed.

End Shapes.

(** X9. An add operation below a root array returns an array that is one
    longer, also when its path goes on below an element of the root (the
    changed copy of that element is then put in front of it). *)
Theorem add_grows_root_array (a : list JsonValue) (P : string)
    (V D' : JsonValue) :
  P ≠ "" →
  applyPatch (JArray a) [op_add P V] = Ok D' →
  ∃ a', D' = JArray a' ∧ length a' = S (length a).
Proof.
  rewrite applyPatch_one.
  destruct (applyOperation_equations (JArray a) P P V) as (-> & _).
  intros HP. destruct (is_root (Some P)) eqn:Hroot;
    [by apply is_root_spec in Hroot|].
  destruct (Pointer (Some P)) as [pointer|]; [|done].
  cbn [mbind result_bind].
  destruct (add (JArray a) pointer V) as [D1|] eqn:Hadd; [|done].
  intros [= <-]. by eapply add_root_array.
Qed.

Lemma add_grows_root_array_witness :
  ∃ a', JArray [JObject {[ "a" := JNumber 1 ]}; JObject ∅] = JArray a'
        ∧ length a' = S (length [JObject ∅]).
Proof.
  apply (add_grows_root_array [JObject ∅] "/0/a" (JNumber 1)).
  - discriminate.
  - vm_compute. reflexivity.
Defined.

(** X10. Locality in a root object: an add, a replace or a remove whose
    path starts with the token [t] returns an object, and every pointer
    whose first token names another member than [t] does leads in it where
    it led before. The tokens of the path are literal (an assignment to
    [__proto__] would change what the object inherits). *)
Theorem root_object_locality (o : gmap string JsonValue) (t : string)
    (rest : list string) (V D' : JsonValue) (t2 : string)
    (rest2 : list string) :
  literal_tokens (t :: rest) = true →
  add (JObject o) (t :: rest) V = Ok D'
  ∨ replace (JObject o) (t :: rest) V = Ok D'
  ∨ remove (JObject o) (t :: rest) = Ok D' →
  decodedTokenString t2 ≠ decodedTokenString t →
  isObject D' = true
  ∧ get D' (t2 :: rest2) = get (JObject o) (t2 :: rest2).
Proof.
  intros _ H Hne. destruct (walk_root_object o t rest V D' H) as (o' & -> & Ho).
  split; [done|]. cbn. by rewrite Ho.
Qed.

Lemma root_object_locality_witness :
  isObject (JObject {[ "a" := JNumber 1; "b" := JNumber 2 ]}) = true
  ∧ get (JObject {[ "a" := JNumber 1; "b" := JNumber 2 ]}) ["a"]
    = get (JObject {[ "a" := JNumber 1 ]}) ["a"].
Proof.
  apply (root_object_locality {[ "a" := JNumber 1 ]} "b" [] (JNumber 2)).
  - vm_compute. reflexivity.
  - left. vm_compute. reflexivity.
  - vm_compute. discriminate.
Defined.

(** ** Elements of arrays *)

Section Elements.

#[local] Arguments parseTokenString : simpl never.
#[local] Arguments Js.splice : simpl never.
#[local] Arguments Js.at_index : simpl never.

Lemma member_numeral (a : list JsonValue) (i : nat) :
  member (JArray a) (Idx (Z.of_nat i)) = a !! i.
Proof. cbn. apply at_index_nat. Qed.

Lemma walk_through_element a i m t' rest V :
  a !! i = Some m →
  add (JArray a) (pretty i :: t' :: rest) V
  = (m' ← add m (t' :: rest) V; Ok (JArray (take i a ++ m' :: drop i a)))
  ∧ replace (JArray a) (pretty i :: t' :: rest) V
    = (m' ← replace m (t' :: rest) V; Ok (JArray (<[i := m']> a)))
  ∧ remove (JArray a) (pretty i :: t' :: rest)
    = (m' ← remove m (t' :: rest); Ok (JArray (<[i := m']> a)))
  ∧ get (JArray a) (pretty i :: t' :: rest) = get m (t' :: rest).
Proof.
  intros Hm. pose proof (lookup_lt_Some _ _ _ Hm) as Hi.
  destruct (walk_equations (JArray a) (pretty i) t' rest V)
    as (-> & -> & -> & ->).
  rewrite parseTokenString_numeral. cbn [mbind result_bind].
  rewrite member_numeral, Hm.
  destruct (negb (isArray m) && negb (isObject m)) eqn:Hc.
  - cbn [add replace remove get].
    rewrite (parseTokenString_primitive t' m Hc). done.
  - split_and!; [| | |done].
    + destruct (add m (t' :: rest) V) as [m'|]; [|done].
      cbn [mbind result_bind].
      destruct (Z.ltb_spec (Z.of_nat (length a)) (Z.of_nat i)); [lia|].
      cbn [rebuild]. by rewrite splice_insert_at by lia.
    + destruct (replace m (t' :: rest) V) as [m'|]; [|done].
      cbn [mbind result_bind rebuild].
      rewrite splice_replace_at by lia. by rewrite Nat2Z.id.
    + destruct (remove m (t' :: rest)) as [m'|]; [|done].
      cbn [mbind result_bind rebuild].
      rewrite splice_replace_at by lia. by rewrite Nat2Z.id.
Qed.

Lemma walk_to_element a i V :
  get (JArray a) [pretty i]
  = match a !! i with
    | Some x => Ok x
    | None => Throw (error NotFound)
    end
  ∧ has (JArray a) [pretty i] = Ok (bool_decide (is_Some (a !! i)))
  ∧ replace (JArray a) [pretty i] V
    = Ok (JArray match a !! i with
                 | Some _ => <[i := V]> a
                 | None => a ++ [V]
                 end)
  ∧ remove (JArray a) [pretty i]
    = match a !! i with
      | Some _ => Ok (JArray (delete i a))
      | None => Throw (error NotFound)
      end.
Proof.
  cbn [get has replace remove]. rewrite parseTokenString_numeral.
  cbn [mbind result_bind]. rewrite member_numeral.
  destruct (a !! i) as [x|] eqn:Hx.
  - pose proof (lookup_lt_Some _ _ _ Hx) as Hi.
    cbn [rebuild without].
    rewrite splice_replace_at, splice_delete_at, Nat2Z.id by lia.
    by split_and!.
  - apply lookup_ge_None in Hx. cbn [rebuild].
    split_and!; try done.
    unfold Js.splice, Js.splice_start.
      destruct (Z.ltb_spec (Z.of_nat i) 0); [lia|].
      rewrite Z.min_r, Nat2Z.id by lia.
      by rewrite take_ge, drop_ge, app_nil_r by lia.
Qed.

End Elements.

(** X11. Below an element of an array. With [m] the element of index [i]
    and a path that goes on below it, [replace] and [remove] put the
    changed copy of [m] in the place of [m]; [add] puts it in front of
    [m], which stays in the array; and all three fail as the walk below
    [m] does. *)
Theorem write_below_array_element (a : list JsonValue) (i : nat)
    (m : JsonValue) (t' : string) (rest : list string) (V : JsonValue) :
  a !! i = Some m →
  add (JArray a) (pretty i :: t' :: rest) V
  = (m' ← add m (t' :: rest) V; Ok (JArray (take i a ++ m' :: drop i a)))
  ∧ replace (JArray a) (pretty i :: t' :: rest) V
    = (m' ← replace m (t' :: rest) V; Ok (JArray (<[i := m']> a)))
  ∧ remove (JArray a) (pretty i :: t' :: rest)
    = (m' ← remove m (t' :: rest); Ok (JArray (<[i := m']> a))).
Proof.
  intros Hm.
  destruct (walk_through_element a i m t' rest V Hm) as (? & ? & ? & _).
  done.
Qed.

Lemma write_below_array_element_witness :
  add (JArray [JObject ∅]) [pretty 0%nat; "a"] (JNumber 1)
  = (m' ← add (JObject ∅) ["a"] (JNumber 1);
     Ok (JArray (take 0 [JObject ∅] ++ m' :: drop 0 [JObject ∅])))
  ∧ replace (JArray [JObject ∅]) [pretty 0%nat; "a"] (JNumber 1)
    = (m' ← replace (JObject ∅) ["a"] (JNumber 1);
       Ok (JArray (<[0%nat := m']> [JObject ∅])))
  ∧ remove (JArray [JObject ∅]) [pretty 0%nat; "a"]
    = (m' ← remove (JObject ∅) ["a"];
       Ok (JArray (<[0%nat := m']> [JObject ∅]))).
Proof.
  apply (write_below_array_element [JObject ∅] 0 (JObject ∅) "a" []
           (JNumber 1)).
  reflexivity.
Defined.

(** X12. The element of index [i] of a root array, named by the decimal
    numeral of [i]: the remove operation takes it out and the elements
    after it move down; the replace operation puts the value in its place;
    both fail with "not found" when the array has no such element. *)
Theorem array_element_operations (a : list JsonValue) (i : nat)
    (V : JsonValue) :
  applyPatch (JArray a) [op_remove (String "/" (pretty i))]
  = match a !! i with
    | Some _ => Ok (JArray (delete i a))
    | None => Throw (mkError NotFound ["remove failed"])
    end
  ∧ applyPatch (JArray a) [op_replace (String "/" (pretty i)) V]
    = match a !! i with
      | Some _ => Ok (JArray (<[i := V]> a))
      | None => Throw (mkError NotFound ["replace failed"])
      end.
Proof.
  rewrite !applyPatch_one.
  destruct (applyOperation_equations (JArray a) (String "/" (pretty i))
              (String "/" (pretty i)) V) as (_ & -> & -> & _).
  change (is_root (Some (String "/" (pretty i)))) with false.
  rewrite Pointer_numeral. cbn [mbind result_bind].
  destruct (walk_to_element a i V) as (_ & -> & -> & ->).
  cbn [mbind result_bind].
  destruct (a !! i) as [x|] eqn:Hx.
  - rewrite bool_decide_eq_true_2 by eauto. done.
  - rewrite bool_decide_eq_false_2 by (by intros [? [=]]). done.
Qed.

(** ** Pointer strings and their tokens *)

Lemma append_cons c s r : String c s +:+ r = String c (s +:+ r).
Proof. reflexivity. Qed.

Lemma append_empty r : "" +:+ r = r.
Proof. reflexivity. Qed.

Lemma split_tokens s :
  ∃ x xs, Js.split "/" s = x :: xs
          ∧ Forall (λ t, lacks "/" t = true) (x :: xs)
          ∧ s = x +:+ pointer_string xs.
Proof.
  induction s as [|c s (x & xs & Hs & Hl & Heq)].
  - exists "", []. by repeat constructor.
  - cbn [Js.split]. destruct (Ascii.eqb c "/") eqn:Hc.
    + apply Ascii.eqb_eq in Hc as ->. exists "", (x :: xs).
      rewrite Hs. split_and!; [done|by constructor|].
      cbn [pointer_string]. by rewrite append_empty, <-Heq.
    + rewrite Hs. exists (String c x), xs. split_and!; [done| |].
      * inversion Hl; subst. constructor; [|done]. cbn. by rewrite Hc.
      * by rewrite append_cons, <-Heq.
Qed.

Lemma split_pointer_string xs :
  Forall (λ t, lacks "/" t = true) xs →
  ∀ x, lacks "/" x = true →
       Js.split "/" (x +:+ pointer_string xs) = x :: xs.
Proof.
  induction 1 as [|y ys Hy Hys IH]; intros x Hx.
  - cbn [pointer_string]. induction x as [|c x IHx]; [done|].
    cbn in Hx. apply andb_true_iff in Hx as [Hc Hx].
    rewrite append_cons. cbn [Js.split].
    apply negb_true_iff in Hc. rewrite Hc. by rewrite IHx.
  - cbn [pointer_string]. induction x as [|c x IHx].
    + rewrite append_empty. cbn [Js.split]. cbn [Ascii.eqb Bool.eqb].
      by rewrite IH.
    + cbn in Hx. apply andb_true_iff in Hx as [Hc Hx].
      rewrite append_cons. cbn [Js.split].
      apply negb_true_iff in Hc. rewrite Hc. by rewrite IHx.
Qed.

(** A token without "~" names the member of that name. *)
Lemma replace_lacks c1 c2 rep s :
  lacks c1 s = true → Js.replace (String c1 (String c2 "")) rep s = s.
Proof.
  induction s as [|c s IH]; [done|]. intros H. cbn in H.
  apply andb_true_iff in H as [Hc Hs]. apply negb_true_iff in Hc.
  change (Js.replace (String c1 (String c2 "")) rep (String c s))
    with (if String.prefix (String c1 (String c2 "")) (String c s)
          then rep +:+ Js.drop_chars 2 (String c s)
          else String c (Js.replace (String c1 (String c2 "")) rep s)).
  cbn [String.prefix]. destruct (ascii_dec c1 c) as [->|Hne].
  - by rewrite Ascii.eqb_refl in Hc.
  - by rewrite IH.
Qed.

Lemma decodedTokenString_lacks t :
  lacks "~" t = true → decodedTokenString t = t.
Proof.
  intros H. unfold decodedTokenString.
  rewrite (replace_lacks "~" "1" "/" t) by done.
  by rewrite replace_lacks.
Qed.

Lemma Pointer_plain_token k :
  lacks "/" k = true → Pointer (Some (String "/" k)) = Ok [k].
Proof.
  intros Hk. rewrite Pointer_Some. cbn [Ascii.eqb Bool.eqb].
  pose proof (split_pointer_string [] (Forall_nil_2 _) k Hk) as H.
  cbn [pointer_string] in H. f_equal. rewrite <-H. f_equal.
  clear. induction k as [|c k IH]; [done|]. by rewrite append_cons, <-IH.
Qed.

(** X13. The constructor of [Pointer] and the pointer string of a list of
    tokens are inverse to each other: a string is read as the tokens [ts]
    exactly when it is each token of [ts] after a "/" and no token holds a
    "/". So the string "" is the only one without tokens, and two strings
    with the same tokens are the same string. *)
Theorem Pointer_iff_pointer_string (P : string) (ts : list string) :
  Pointer (Some P) = Ok ts ↔
  P = pointer_string ts ∧ Forall (λ t, lacks "/" t = true) ts.
Proof.
  rewrite Pointer_Some. split.
  - destruct P as [|c P]; [by intros [= <-]|].
    destruct (Ascii.eqb c "/") eqn:Hc; [|done].
    apply Ascii.eqb_eq in Hc as ->. intros [= <-].
    destruct (split_tokens P) as (x & xs & -> & Hl & ->). done.
  - intros [-> Hl]. destruct Hl as [|t ts Ht Hts]; [done|].
    cbn [pointer_string Ascii.eqb Bool.eqb].
    by rewrite split_pointer_string.
Qed.

(** X14. [isPrefixTo] decides that the tokens of one pointer are the first
    tokens of the other one (a pointer is a prefix of itself, and the
    pointer without tokens is a prefix of every pointer). *)
Theorem isPrefixTo_iff_prefix (this another : list string) :
  isPrefixTo this another = true ↔ this `prefix_of` another.
Proof.
  revert another. induction this as [|t this IH]; intros another.
  - split; [intros _; apply prefix_nil|done].
  - destruct another as [|o another].
    + split; [done|]. intros H. by apply prefix_nil_not in H.
    + cbn [isPrefixTo]. destruct (String.eqb_spec t o) as [->|Hne].
      * rewrite IH. split; [apply prefix_cons|apply prefix_cons_inv_2].
      * split; [done|]. intros H. by apply prefix_cons_inv_1 in H.
Qed.

(** ** Members of a root object *)

Section Members.

#[local] Arguments parseTokenString : simpl never.

Lemma walk_to_member o k V :
  lacks "~" k = true →
  get (JObject o) [k]
  = match o !! k with
    | Some x => Ok x
    | None => Throw (error NotFound)
    end
  ∧ has (JObject o) [k] = Ok (bool_decide (is_Some (o !! k)))
  ∧ add (JObject o) [k] V = Ok (JObject (<[k := V]> o))
  ∧ replace (JObject o) [k] V = Ok (JObject (<[k := V]> o))
  ∧ remove (JObject o) [k]
    = match o !! k with
      | Some _ => Ok (JObject (delete k o))
      | None => Throw (error NotFound)
      end.
Proof.
  intros Hk. cbn [get has add replace remove].
  change (parseTokenString k (JObject o))
    with (Ok (A:=Index) (Key (decodedTokenString k))).
  rewrite decodedTokenString_lacks by done. cbn.
  destruct (o !! k) as [x|] eqn:Hx; split_and!; try done.
Qed.

End Members.

(** X15. The member [k] of a root object, for a name [k] without "/" and
    "~" that is not an inherited name, is what the path "/k" names: add
    sets it (a member of that name is overwritten), remove deletes it,
    replace sets it, and the last two fail with "not found" when the
    object has no such member. *)
Theorem object_member_operations (o : gmap string JsonValue) (k : string)
    (V : JsonValue) :
  lacks "/" k = true → lacks "~" k = true → own_name k = true →
  applyPatch (JObject o) [op_add (String "/" k) V]
  = Ok (JObject (<[k := V]> o))
  ∧ applyPatch (JObject o) [op_remove (String "/" k)]
    = match o !! k with
      | Some _ => Ok (JObject (delete k o))
      | None => Throw (mkError NotFound ["remove failed"])
      end
  ∧ applyPatch (JObject o) [op_replace (String "/" k) V]
    = match o !! k with
      | Some _ => Ok (JObject (<[k := V]> o))
      | None => Throw (mkError NotFound ["replace failed"])
      end.
Proof.
  intros Hslash Htilde _. rewrite !applyPatch_one.
  destruct (applyOperation_equations (JObject o) (String "/" k)
              (String "/" k) V) as (-> & -> & -> & _).
  change (is_root (Some (String "/" k))) with false.
  rewrite Pointer_plain_token by done. cbn [mbind result_bind].
  destruct (walk_to_member o k V Htilde) as (_ & -> & -> & -> & ->).
  cbn [mbind result_bind].
  destruct (o !! k) as [x|] eqn:Hx; by split_and!.
Qed.

Lemma object_member_operations_witness :
  applyPatch (JObject {[ "a" := JNumber 1 ]}) [op_add "/b" (JNumber 2)]
  = Ok (JObject (<["b" := JNumber 2]> {[ "a" := JNumber 1 ]}))
  ∧ applyPatch (JObject {[ "a" := JNumber 1 ]}) [op_remove "/b"]
    = match ({[ "a" := JNumber 1 ]} : gmap string JsonValue) !! "b" with
      | Some _ => Ok (JObject (delete "b" {[ "a" := JNumber 1 ]}))
      | None => Throw (mkError NotFound ["remove failed"])
      end
  ∧ applyPatch (JObject {[ "a" := JNumber 1 ]}) [op_replace "/b" (JNumber 2)]
    = match ({[ "a" := JNumber 1 ]} : gmap string JsonValue) !! "b" with
      | Some _ => Ok (JObject (<["b" := JNumber 2]> {[ "a" := JNumber 1 ]}))
      | None => Throw (mkError NotFound ["replace failed"])
      end.
Proof.
  apply (object_member_operations {[ "a" := JNumber 1 ]} "b" (JNumber 2));
    reflexivity.
Defined.

(** X16. A move between two members of a root object (names without "/"
    and "~" that are not inherited names, not the same one) returns the
    object in which the value has gone from the first name to the second,
    and that is what a remove at the first path followed by an add at the
    second one returns. *)
Theorem move_between_members (o : gmap string JsonValue) (f t : string)
    (v : JsonValue) :
  lacks "/" f = true → lacks "~" f = true → own_name f = true →
  lacks "/" t = true → lacks "~" t = true → own_name t = true →
  f ≠ t → o !! f = Some v →
  applyPatch (JObject o) [op_move (String "/" f) (String "/" t)]
  = Ok (JObject (delete f (<[t := v]> o)))
  ∧ applyPatch (JObject o)
      [op_remove (String "/" f); op_add (String "/" t) v]
    = Ok (JObject (delete f (<[t := v]> o))).
Proof.
  intros Hf1 Hf2 _ Ht1 Ht2 _ Hne Hv. split.
  - rewrite applyPatch_one.
    destruct (applyOperation_equations (JObject o) (String "/" t)
                (String "/" f) v) as (_ & _ & _ & _ & _ & ->).
    rewrite bool_decide_eq_false_2 by congruence.
    change (is_root (Some (String "/" t))) with false.
    rewrite !Pointer_plain_token by done. cbn [mbind result_bind].
    assert (String.eqb f t = false) as Hft by by apply String.eqb_neq.
    assert (String.eqb t f = false) as Htf by by apply String.eqb_neq.
    cbn [isPrefixTo]. rewrite Hft, Htf.
    destruct (walk_to_member o f v Hf2) as (-> & _). rewrite Hv.
    cbn [mbind result_bind].
    destruct (walk_to_member o t v Ht2) as (_ & _ & _ & -> & _).
    cbn [mbind result_bind try_describe].
    destruct (walk_to_member (<[t := v]> o) f v Hf2) as (_ & _ & _ & _ & ->).
    rewrite lookup_insert_ne by done. by rewrite Hv.
  - change [op_remove (String "/" f); op_add (String "/" t) v]
      with ([op_remove (String "/" f)] ++ [op_add (String "/" t) v]).
    rewrite pure_applyPatch_app, applyPatch_one.
    destruct (applyOperation_equations (JObject o) (String "/" f)
                (String "/" f) v) as (_ & -> & _).
    change (is_root (Some (String "/" f))) with false.
    rewrite Pointer_plain_token by done. cbn [mbind result_bind].
    destruct (walk_to_member o f v Hf2) as (_ & _ & _ & _ & ->).
    rewrite Hv. cbn [mbind result_bind try_describe].
    rewrite applyPatch_one.
    destruct (applyOperation_equations (JObject (delete f o)) (String "/" t)
                (String "/" t) v) as (-> & _).
    change (is_root (Some (String "/" t))) with false.
    rewrite Pointer_plain_token by done. cbn [mbind result_bind].
    destruct (walk_to_member (delete f o) t v Ht2) as (_ & _ & -> & _).
    cbn [try_describe]. by rewrite delete_insert_ne.
Qed.

Lemma move_between_members_witness :
  applyPatch (JObject {[ "a" := JNumber 1 ]}) [op_move "/a" "/b"]
  = Ok (JObject (delete "a" (<["b" := JNumber 1]> {[ "a" := JNumber 1 ]})))
  ∧ applyPatch (JObject {[ "a" := JNumber 1 ]})
      [op_remove "/a"; op_add "/b" (JNumber 1)]
    = Ok (JObject (delete "a" (<["b" := JNumber 1]> {[ "a" := JNumber 1 ]}))).
Proof.
  apply (move_between_members {[ "a" := JNumber 1 ]} "a" "b" (JNumber 1));
    [reflexivity..|discriminate|reflexivity].
Defined.

(** ** How operations fail *)

Lemma Pointer_not_empty p pointer :
  Pointer p = Ok pointer → is_root p = false → pointer ≠ [].
Proof.
  destruct p as [P|]; [apply Pointer_not_root|done].
Qed.

Lemma try_describe_throw {A} label (body : result A) e (ks : list ErrorKind) :
  (∀ e', body = Throw e' → kind e' ∈ ks ∧ labels e' = []) →
  try_describe label body = Throw e →
  kind e ∈ ks ∧ labels e = [label].
Proof.
  intros Hbody. destruct body as [a|e']; [done|]. intros [= <-].
  destruct (Hbody e' eq_refl) as [Hk Hl]. cbn. by rewrite Hl.
Qed.

Ltac kind_in :=
  split; [cbn; repeat first [apply list_elem_of_here
                            |apply list_elem_of_further]|reflexivity].

Ltac walk_throw H lemma :=
  apply lemma in H; [|by eapply Pointer_not_empty];
  repeat (destruct H as [->|H]); [..|subst]; kind_in.

Lemma get_error D pointer e :
  get D pointer = Throw e →
  kind e ∈ [InvalidArrayIndex; PathNotObjectOrArray; NotFound]
  ∧ labels e = [].
Proof.
  intros H. apply get_kinds in H as [->|[->| ->]]; kind_in.
Qed.

(** A sound table of the failures of an operation: its kind is one of
    those listed for the name of the operation, and its only label is the
    one of the [catch] of that case. *)
Lemma applyOperation_throw D o e :
  applyOperation D o = Throw e →
  kind e ∈ throws (op o) ∧ labels e = failure_labels (op o).
Proof.
  unfold applyOperation, throws, failure_labels.
  destruct (String.eqb_spec (op o) "add") as [->|Hadd].
  { apply try_describe_throw. intros e'.
    destruct (value o) as [v|]; [|intros [= <-]; kind_in].
    destruct (is_root (path o)) eqn:Hroot; [done|].
    destruct (Pointer (path o)) as [pointer|e1] eqn:HP;
      cbn [mbind result_bind];
      [|intros [= <-]; apply Pointer_throw in HP as ->; kind_in].
    intros H. walk_throw H add_kinds. }
  destruct (String.eqb_spec (op o) "copy") as [->|Hcopy].
  { apply try_describe_throw. intros e'.
    destruct (from o) as [f|]; [|intros [= <-]; kind_in].
    destruct (Pointer (Some f)) as [fromPointer|e1] eqn:HF;
      cbn [mbind result_bind];
      [|intros [= <-]; apply Pointer_throw in HF as ->; kind_in].
    destruct (get D fromPointer) as [v|e2] eqn:Hget;
      cbn [mbind result_bind];
      [|intros [= <-]; apply get_kinds in Hget as [->|[->| ->]]; kind_in].
    destruct (is_root (path o)) eqn:Hroot; [done|].
    destruct (Pointer (path o)) as [pointer|e1] eqn:HP;
      cbn [mbind result_bind];
      [|intros [= <-]; apply Pointer_throw in HP as ->; kind_in].
    intros H. walk_throw H add_kinds. }
  destruct (String.eqb_spec (op o) "move") as [->|Hmove].
  { apply try_describe_throw. intros e'.
    destruct (from o) as [f|]; [|intros [= <-]; kind_in].
    destruct (bool_decide (Some f = path o)); [done|].
    destruct (Pointer (Some f)) as [fromPointer|e1] eqn:HF;
      cbn [mbind result_bind];
      [|intros [= <-]; apply Pointer_throw in HF as ->; kind_in].
    destruct (Pointer (path o)) as [pathPointer|e1] eqn:HP;
      cbn [mbind result_bind];
      [|intros [= <-]; apply Pointer_throw in HP as ->; kind_in].
    destruct (isPrefixTo fromPointer pathPointer) eqn:Hpre;
      [intros [= <-]; kind_in|].
    destruct (get D fromPointer) as [v|e2] eqn:Hget;
      cbn [mbind result_bind];
      [|intros [= <-]; apply get_kinds in Hget as [->|[->| ->]]; kind_in].
    destruct (is_root (path o)) eqn:Hroot; [done|].
    destruct (replace D pathPointer v) as [document'|e3] eqn:Hreplace;
      cbn [mbind result_bind]; [|intros [= <-]; walk_throw Hreplace replace_kinds].
    destruct (isPrefixTo pathPointer fromPointer) eqn:Hpre'; [done|].
    intros H. apply remove_kinds in H.
    - repeat (destruct H as [->|H]); [..|subst]; kind_in.
    - intros ->. by destruct pathPointer. }
  destruct (String.eqb_spec (op o) "remove") as [->|Hremove].
  { apply try_describe_throw. intros e'.
    destruct (is_root (path o)) eqn:Hroot; [done|].
    destruct (Pointer (path o)) as [pointer|e1] eqn:HP;
      cbn [mbind result_bind];
      [|intros [= <-]; apply Pointer_throw in HP as ->; kind_in].
    intros H. walk_throw H remove_kinds. }
  destruct (String.eqb_spec (op o) "replace") as [->|Hreplace].
  { apply try_describe_throw. intros e'.
    destruct (value o) as [v|]; [|intros [= <-]; kind_in].
    destruct (is_root (path o)) eqn:Hroot; [done|].
    destruct (Pointer (path o)) as [pointer|e1] eqn:HP;
      cbn [mbind result_bind];
      [|intros [= <-]; apply Pointer_throw in HP as ->; kind_in].
    destruct (has D pointer) as [found|e2] eqn:Hhas;
      cbn [mbind result_bind];
      [|intros [= <-]; apply has_kinds in Hhas as [->| ->]; kind_in].
    destruct found; cbn [negb]; [|intros [= <-]; kind_in].
    intros H. walk_throw H replace_kinds. }
  destruct (String.eqb_spec (op o) "test") as [->|Htest].
  { apply try_describe_throw. intros e'.
    destruct (value o) as [v|]; [|intros [= <-]; kind_in].
    destruct (Pointer (path o)) as [pointer|e1] eqn:HP;
      cbn [mbind result_bind];
      [|intros [= <-]; apply Pointer_throw in HP as ->; kind_in].
    destruct (get D pointer) as [target|e2] eqn:Hget;
      cbn [mbind result_bind];
      [|intros [= <-]; apply get_kinds in Hget as [->|[->| ->]]; kind_in].
    destruct (compare v target) as [[]|e3] eqn:Hc; [done|].
    cbn [mbind result_bind]. intros [= <-].
    apply compare_throw in Hc as ->. kind_in. }
  intros [= <-]. split; [by apply list_elem_of_here|].
  rewrite bool_decide_eq_false_2; [done|].
  unfold operation_names. rewrite !elem_of_cons, elem_of_nil. tauto.
Qed.

Lemma applyPatch_throw patch : ∀ D e,
  applyPatch D patch = Throw e →
  ∃ before failing after D1,
    patch = before ++ failing :: after
    ∧ applyPatch D before = Ok D1
    ∧ applyOperation D1 failing = Throw e.
Proof.
  induction patch as [|o patch IH]; intros D e H; [done|].
  cbn [applyPatch] in H.
  destruct (applyOperation D o) as [D'|e'] eqn:Ho; cbn in H.
  - destruct (IH D' e H) as (before & failing & after & D1 & -> & Hb & Hf).
    exists (o :: before), failing, after, D1. split_and!; [done| |done].
    cbn [applyPatch]. by rewrite Ho.
  - injection H as ->. by exists [], o, patch, D.
Qed.

(** X17. A patch fails only because one of its operations fails on the
    document that the operations before it have built. The error of the
    patch is the error of that operation, and its only label is the name
    of the operation followed by " failed" (no label for an operation
    whose name is not one of the six). *)
Theorem patch_failure_is_an_operation_failure (D : JsonValue)
    (patch : list Operation) (e : JsonPatchError) :
  applyPatch D patch = Throw e →
  ∃ before failing after D1,
    patch = before ++ failing :: after
    ∧ applyPatch D before = Ok D1
    ∧ applyOperation D1 failing = Throw e
    ∧ labels e = failure_labels (op failing).
Proof.
  intros H.
  destruct (applyPatch_throw patch D e H)
    as (before & failing & after & D1 & -> & Hb & Hf).
  exists before, failing, after, D1. split_and!; [done..|].
  by apply applyOperation_throw in Hf as [_ ?].
Qed.

Lemma patch_failure_is_an_operation_failure_witness :
  ∃ before failing after D1,
    [op_add "/a" (JNumber 1); op_remove "/b"] = before ++ failing :: after
    ∧ applyPatch (JObject ∅) before = Ok D1
    ∧ applyOperation D1 failing = Throw (mkError NotFound ["remove failed"])
    ∧ labels (mkError NotFound ["remove failed"])
      = failure_labels (op failing).
Proof.
  apply (patch_failure_is_an_operation_failure (JObject ∅)
           [op_add "/a" (JNumber 1); op_remove "/b"]).
  vm_compute. reflexivity.
Defined.

(** X18. No patch fails with "pointer is already fully read": every walk
    that reads a token is started on a pointer with a token left, since
    the operations return before it for the root path. *)
Theorem pointer_never_read_beyond_its_end (D : JsonValue)
    (patch : list Operation) (e : JsonPatchError) :
  applyPatch D patch = Throw e → kind e ≠ PointerExhausted.
Proof.
  intros H.
  destruct (applyPatch_throw patch D e H)
    as (before & failing & after & D1 & -> & Hb & Hf).
  apply applyOperation_throw in Hf as [Hk _]. intros Hx.
  rewrite Hx in Hk. unfold throws in Hk.
  repeat case_match; rewrite ?elem_of_cons, elem_of_nil in Hk;
    intuition discriminate.
Qed.

Lemma pointer_never_read_beyond_its_end_witness :
  kind (mkError NotFound ["remove failed"]) ≠ PointerExhausted.
Proof.
  apply (pointer_never_read_beyond_its_end (JObject ∅) [op_remove "/b"]).
  vm_compute. reflexivity.
Defined.

Ltac shown_by D o :=
  exists D, o; eexists; split_and!; [reflexivity|vm_compute; reflexivity
                                     |reflexivity].

(** X19. The table [throws] is exact. An operation named [name] fails
    only with a kind that the table lists for [name], and each kind that
    it lists is the kind of the failure of some operation of that name on
    some document. So, among others: only an add or a copy fails with an
    index out of bounds (a move to an index beyond the end does not), only
    a test fails with a mismatch, and an add never fails with "not
    found". *)
Theorem throws_exactly (name : string) (k : ErrorKind) :
  k ∈ throws name ↔
  ∃ D o e, op o = name ∧ applyOperation D o = Throw e ∧ kind e = k.
Proof.
  split.
  - pose (missing := mkOperation name (Some "") None None).
    pose (bad := mkOperation name (Some "y") (Some "x") (Some JNull)).
    pose (xy := mkOperation name (Some "/y") (Some "/x") (Some JNull)).
    pose (far := mkOperation name (Some "/5") (Some "") (Some JNull)).
    pose (down := mkOperation name (Some "/a") (Some "") (Some JNull)).
    pose (root := mkOperation name (Some "") (Some "") (Some (JBool true))).
    unfold throws.
    destruct (String.eqb_spec name "add") as [->|Hadd].
    { rewrite !elem_of_cons, elem_of_nil.
      intros [->|[->|[->|[->|[->|[]]]]]].
      - shown_by JNull missing.
      - shown_by JNull bad.
      - shown_by (JArray []) xy.
      - shown_by JNull xy.
      - shown_by (JArray []) far. }
    destruct (String.eqb_spec name "copy") as [->|Hcopy].
    { rewrite !elem_of_cons, elem_of_nil.
      intros [->|[->|[->|[->|[->|[->|[]]]]]]].
      - shown_by JNull missing.
      - shown_by JNull bad.
      - shown_by (JArray []) xy.
      - shown_by JNull xy.
      - shown_by (JObject ∅) xy.
      - shown_by (JArray []) far. }
    destruct (String.eqb_spec name "move") as [->|Hmove].
    { rewrite !elem_of_cons, elem_of_nil.
      intros [->|[->|[->|[->|[->|[->|[]]]]]]].
      - shown_by JNull missing.
      - shown_by JNull bad.
      - shown_by (JArray []) xy.
      - shown_by JNull xy.
      - shown_by (JObject ∅) xy.
      - shown_by JNull down. }
    destruct (String.eqb_spec name "remove") as [->|Hremove].
    { rewrite !elem_of_cons, elem_of_nil.
      intros [->|[->|[->|[->|[]]]]].
      - shown_by JNull bad.
      - shown_by (JArray []) xy.
      - shown_by JNull xy.
      - shown_by (JObject ∅) xy. }
    destruct (String.eqb_spec name "replace") as [->|Hreplace].
    { rewrite !elem_of_cons, elem_of_nil.
      intros [->|[->|[->|[->|[->|[]]]]]].
      - shown_by JNull missing.
      - shown_by JNull bad.
      - shown_by (JArray []) xy.
      - shown_by JNull xy.
      - shown_by (JObject ∅) xy. }
    destruct (String.eqb_spec name "test") as [->|Htest].
    { rewrite !elem_of_cons, elem_of_nil.
      intros [->|[->|[->|[->|[->|[->|[]]]]]]].
      - shown_by JNull missing.
      - shown_by JNull bad.
      - shown_by (JArray []) xy.
      - shown_by JNull xy.
      - shown_by (JObject ∅) xy.
      - shown_by JNull root. }
    rewrite elem_of_cons, elem_of_nil. intros [->|[]].
    exists JNull, missing, (error UnknownOperation).
    split_and!; [done| |done]. unfold applyOperation. cbn [op missing].
    apply String.eqb_neq in Hadd, Hcopy, Hmove, Hremove, Hreplace, Htest.
    by rewrite Hadd, Hcopy, Hmove, Hremove, Hreplace, Htest.
  - intros (D & o & e & <- & H & <-).
    by apply applyOperation_throw in H as [? _].
Qed.

(** X20. A copy is a [get] at [from] followed by an add of what was found:
    when [from] leads to the value [v], the copy returns what the add
    operation with the value [v] returns, and it fails where that add
    fails, with the same kind of failure under its own label. *)
Theorem copy_is_get_then_add (D : JsonValue) (F T : string)
    (fromPointer : list string) (v : JsonValue) :
  Pointer (Some F) = Ok fromPointer →
  get D fromPointer = Ok v →
  applyOperation D (op_copy F T)
  = match applyOperation D (op_add T v) with
    | Ok D' => Ok D'
    | Throw e => Throw (mkError (kind e) ["copy failed"])
    end.
Proof.
  intros HF Hget.
  destruct (applyOperation_equations D T F v) as (Hadd & _ & _ & _ & -> & _).
  pose proof (applyOperation_throw D (op_add T v)) as Hthrow.
  rewrite Hadd in *. clear Hadd.
  rewrite HF. cbn [mbind result_bind]. rewrite Hget. cbn [mbind result_bind].
  destruct (if is_root (Some T) then Ok v
            else Pointer (Some T) ≫= λ pointer, add D pointer v)
    as [D'|e]; [done|].
  cbn [try_describe] in *.
  destruct (Hthrow _ eq_refl) as [_ Hl]. cbn in Hl. unfold describe.
  f_equal. f_equal. by injection Hl as ->.
Qed.

Lemma copy_is_get_then_add_witness :
  applyOperation (JObject {[ "a" := JNumber 1 ]}) (op_copy "/a" "/b")
  = match applyOperation (JObject {[ "a" := JNumber 1 ]})
            (op_add "/b" (JNumber 1)) with
    | Ok D' => Ok D'
    | Throw e => Throw (mkError (kind e) ["copy failed"])
    end.
Proof.
  apply (copy_is_get_then_add (JObject {[ "a" := JNumber 1 ]}) "/a" "/b"
           ["a"] (JNumber 1)); reflexivity.
Defined.

(** X21. Applying two patches one after the other is applying them as
    one: the concatenation returns [D2] exactly when the first patch
    returns some [D1] on which the second one returns [D2]. *)
Theorem applyPatch_concatenation (D D2 : JsonValue)
    (first second : list Operation) :
  applyPatch D (first ++ second) = Ok D2 ↔
  ∃ D1, applyPatch D first = Ok D1 ∧ applyPatch D1 second = Ok D2.
Proof.
  rewrite pure_applyPatch_app.
  destruct (applyPatch D first) as [D1|e]; cbn [mbind result_bind].
  - split; [eauto|]. by intros (? & [= <-] & ?).
  - split; [done|]. by intros (? & [=] & _).
Qed.

(** ** The cells that a patch makes *)

Section Cells.

Import Heap.

Lemma makes_ret {A} (a : A) : makes_cells 0 (mret a : M A).
Proof. intros s s' r [= <- <-]. lia. Qed.

Lemma makes_read {A} (f : Store → outcome A) : makes_cells 0 (read f).
Proof. intros s s' r [= <- <-]. destruct (f s); lia. Qed.

Lemma makes_raise {A} (k : ErrorKind) : makes_cells 0 (raise k : M A).
Proof. apply makes_read. Qed.

Lemma makes_bind {A B} n1 n2 (m : M A) (k : A → M B) :
  makes_cells n1 m → (∀ a, makes_cells n2 (k a)) →
  makes_cells (n1 + n2) (m ≫= k).
Proof.
  intros Hm Hk s s' r. unfold mbind, M_bind.
  destruct (m s) as [s1 [a|x]] eqn:Hms.
  - intros Hka. specialize (Hm _ _ _ Hms). specialize (Hk _ _ _ _ Hka).
    cbn in Hm. destruct r; lia.
  - intros [= <- <-]. specialize (Hm _ _ _ Hms). cbn in Hm. lia.
Qed.

Lemma makes_less {A} n n' (m : M A) :
  makes_cells n m → (∀ s s' a, m s ≠ (s', Return a)) → (n ≤ n')%nat →
  makes_cells n' m.
Proof.
  intros Hm Hno Hle s s' r Hr. specialize (Hm _ _ _ Hr).
  destruct r; [by destruct (Hno _ _ _ Hr)|lia].
Qed.

Lemma makes_try_describe {A} n label (m : M A) :
  makes_cells n m → makes_cells n (try_describe label m).
Proof.
  intros Hm s s' r. unfold try_describe.
  destruct (m s) as [s1 [a|[e|]]] eqn:Hms; intros [= <- <-];
    apply (Hm _ _ _ Hms).
Qed.

Lemma makes_copy_update (c : Cell) (f : Cell → Cell) :
  makes_cells 1 (newElement ← alloc c;
                 update newElement f;;
                 mret (VRef newElement)).
Proof.
  intros s s' r. rewrite copy_update_run. intros [= <- <-].
  by rewrite length_app.
Qed.

Lemma makes_rebuild element index deleteCount modifiedMember :
  makes_cells 1 (rebuild element index deleteCount modifiedMember).
Proof.
  intros s s' r. unfold rebuild.
  destruct (deref s element) as [[a|o]|].
  - apply makes_copy_update.
  - apply makes_copy_update.
  - intros [= <- <-]. cbn. lia.
Qed.

Lemma makes_without element index : makes_cells 1 (without element index).
Proof.
  intros s s' r. unfold without.
  destruct (deref s element) as [[a|o]|].
  - apply makes_copy_update.
  - apply makes_copy_update.
  - intros [= <- <-]. cbn. lia.
Qed.

Lemma raise_no_return {A} (k : ErrorKind) s s' (a : A) :
  raise k s ≠ (s', Return a).
Proof. done. Qed.

(** The cells of the member that goes into the copy: none when the value
    of the operation goes in, those of the walk below otherwise. *)
Lemma makes_deeper n element index (walk : Value → M Value) :
  (∀ deeperElement, makes_cells n (walk deeperElement)) →
  makes_cells n
    (deeperElement ← read (λ s : Store, Return (member s element index));
     match deeperElement with
     | Some deeperElement =>
         container ← read (λ s : Store,
           Return (isArray s deeperElement || isObject s deeperElement));
         if negb (container : bool)
         then raise PathNotObjectOrArray
         else walk deeperElement
     | None => raise PathNotObjectOrArray
     end).
Proof.
  intros Hwalk. apply (makes_bind 0 n); [apply makes_read|].
  intros [deeperElement|].
  - apply (makes_bind 0 n); [apply makes_read|]. intros [].
    + apply Hwalk.
    + eapply makes_less; [apply makes_raise|apply raise_no_return|lia].
  - eapply makes_less; [apply makes_raise|apply raise_no_return|lia].
Qed.

Lemma makes_add pointer : ∀ element value,
  makes_cells (length pointer) (add element pointer value).
Proof.
  induction pointer as [|t rest IH]; intros element value;
    [apply makes_raise|].
  cbn [add length]. apply (makes_bind 0 (S (length rest))); [apply makes_read|].
  intros index. rewrite <-Nat.add_1_r. apply makes_bind.
  - destruct rest as [|t' rest]; [apply makes_ret|].
    apply makes_deeper. intros deeperElement. apply IH.
  - intros modifiedMember. apply (makes_bind 0 1); [apply makes_read|].
    intros []; [|apply makes_rebuild].
    eapply makes_less; [apply makes_raise|apply raise_no_return|lia].
Qed.

Lemma makes_replace pointer : ∀ element value,
  makes_cells (length pointer) (replace element pointer value).
Proof.
  induction pointer as [|t rest IH]; intros element value;
    [apply makes_raise|].
  cbn [replace length].
  apply (makes_bind 0 (S (length rest))); [apply makes_read|].
  intros index. rewrite <-Nat.add_1_r. apply makes_bind.
  - destruct rest as [|t' rest]; [apply makes_ret|].
    apply makes_deeper. intros deeperElement. apply IH.
  - intros modifiedMember. apply makes_rebuild.
Qed.

Lemma makes_remove pointer : ∀ element,
  makes_cells (length pointer) (remove element pointer).
Proof.
  induction pointer as [|t rest IH]; intros element; [apply makes_raise|].
  cbn [remove length].
  apply (makes_bind 0 (S (length rest))); [apply makes_read|].
  intros index. destruct rest as [|t' rest].
  - apply (makes_bind 0 1); [apply makes_read|]. intros [deeper|].
    + apply makes_without.
    + eapply makes_less; [apply makes_raise|apply raise_no_return|lia].
  - apply (makes_bind 0 (S (length (t' :: rest)))); [apply makes_read|].
    intros [deeperElement|].
    + apply (makes_bind 0 (S (length (t' :: rest)))); [apply makes_read|].
      intros [].
      * rewrite <-Nat.add_1_r.
        apply makes_bind; [apply IH|intros m; apply makes_rebuild].
      * eapply makes_less; [apply makes_raise|apply raise_no_return|lia].
    + eapply makes_less; [apply makes_raise|apply raise_no_return|lia].
Qed.

End Cells.

(** X22. Path copying. A walk that returns has made one cell for each
    token of its pointer, the copies of the containers on the way, and no
    other. *)
Theorem walk_makes_one_cell_per_token (element value d : Heap.Value)
    (pointer : list string) (s s' : list Heap.Cell) :
  Heap.add element pointer value s = (s', Heap.Return d)
  ∨ Heap.replace element pointer value s = (s', Heap.Return d)
  ∨ Heap.remove element pointer s = (s', Heap.Return d) →
  length s' = (length s + length pointer)%nat ∧ s `prefix_of` s'.
Proof.
  intros [H|[H|H]].
  - split; [apply (makes_add _ _ _ _ _ _ H)|by eapply keeps_add].
  - split; [apply (makes_replace _ _ _ _ _ _ H)|by eapply keeps_replace].
  - split; [apply (makes_remove _ _ _ _ _ H)|by eapply keeps_remove].
Qed.

Lemma walk_makes_one_cell_per_token_witness :
  let s0 :=
    [Heap.CObject {[ "c" := Heap.VNumber 41 ]};
     Heap.CObject {[ "b" := Heap.VRef 0 ]}] in
  let s1 :=
    s0 ++ [Heap.CObject {[ "c" := Heap.VNumber 42 ]};
           Heap.CObject {[ "b" := Heap.VRef 2 ]}] in
  length s1 = (length s0 + length ["b"; "c"])%nat ∧ s0 `prefix_of` s1.
Proof.
  intros s0 s1.
  apply (walk_makes_one_cell_per_token (Heap.VRef 1) (Heap.VNumber 42)
           (Heap.VRef 3) ["b"; "c"] s0 s1).
  right. left. vm_compute. reflexivity.
Defined.

(** X23. A test operation reads: whether it returns or throws, the store
    is the one it started in. *)
Theorem test_leaves_the_store (document : Heap.Value) (h : Heap.Operation)
    (s s' : list Heap.Cell) (r : Heap.outcome Heap.Value) :
  Heap.op h = "test" →
  Heap.applyOperation document h s = (s', r) →
  s' = s.
Proof.
  intros Hop Hrun.
  assert (Hmakes : makes_cells 0 (Heap.applyOperation document h)).
  { unfold Heap.applyOperation. rewrite Hop. cbn [String.eqb Ascii.eqb Bool.eqb].
    apply makes_try_describe. destruct (Heap.value h) as [v|];
      [|apply makes_raise].
    apply (makes_bind 0 0); [apply makes_read|]. intros pointer.
    apply (makes_bind 0 0); [apply makes_read|]. intros target.
    apply (makes_bind 0 0); [apply makes_read|]. intros _.
    apply makes_ret. }
  pose proof (keeps_applyOperation document h s s' r Hrun) as Hkeep.
  specialize (Hmakes s s' r Hrun). destruct Hkeep as [new ->].
  rewrite length_app in Hmakes.
  destruct new; [by rewrite app_nil_r|]. destruct r; cbn in Hmakes; lia.
Qed.

Lemma test_leaves_the_store_witness :
  [Heap.CArray [Heap.VNumber 1]] = [Heap.CArray [Heap.VNumber 1]].
Proof.
  apply (test_leaves_the_store (Heap.VRef 0)
           (Heap.mkOperation "test" (Some "/0") None (Some (Heap.VNumber 2)))
           [Heap.CArray [Heap.VNumber 1]] [Heap.CArray [Heap.VNumber 1]]
           (Heap.Raise (Heap.OfJsonPatchError
                          (mkError TestMismatch ["test failed"])))).
  - reflexivity.
  - vm_compute. reflexivity.
Defined.

(** X24. A patch that returns, in the store model: when the document of
    the caller stands for [D] and the patch returns [D'] over values, the
    call returns a value that stands for [D'], and the document of the
    caller still stands for [D]: the new document shares with the old one
    what it did not change, and nothing of the old one is written to. *)
Theorem patch_returns_a_new_document (s : list Heap.Cell)
    (document : Heap.Value) (D D' : JsonValue)
    (hpatch : list Heap.Operation) (patch : list Operation) :
  denotes s document D →
  Forall2 (denotes_operation s) hpatch patch →
  applyPatch D patch = Ok D' →
  ∃ s' document',
    Heap.applyPatch document hpatch s = (s', Heap.Return document')
    ∧ s `prefix_of` s'
    ∧ denotes s' document D
    ∧ denotes s' document' D'.
Proof.
  intros HD Hpatch Hok.
  destruct (store_simulates_values hpatch s document D patch HD Hpatch)
    as (s' & r & Hrun & Hp & Hr).
  rewrite Hok in Hr. destruct r as [d|x]; [|done].
  exists s', d. split_and!; [done..| |done]. by eapply denotes_mono.
Qed.

Lemma patch_returns_a_new_document_witness :
  ∃ s' document',
    Heap.applyPatch (Heap.VRef 0)
      [Heap.mkOperation "add" (Some "/-") None (Some (Heap.VNumber 2))]
      [Heap.CArray [Heap.VNumber 1]]
    = (s', Heap.Return document')
    ∧ [Heap.CArray [Heap.VNumber 1]] `prefix_of` s'
    ∧ denotes s' (Heap.VRef 0) (JArray [JNumber 1])
    ∧ denotes s' document' (JArray [JNumber 1; JNumber 2]).
Proof.
  apply (patch_returns_a_new_document [Heap.CArray [Heap.VNumber 1]]
           (Heap.VRef 0) (JArray [JNumber 1]) (JArray [JNumber 1; JNumber 2])
           [Heap.mkOperation "add" (Some "/-") None (Some (Heap.VNumber 2))]
           [op_add "/-" (JNumber 2)]).
  - eapply denotes_array; [reflexivity|]. repeat constructor.
  - repeat constructor.
  - vm_compute. reflexivity.
Defined.

(** ** The cursor of a pointer and the tokens that are left *)

Section Cursors.

#[local] Arguments parseTokenString : simpl never.

Implicit Types (p : Cursor.Pointer).

Lemma fully_read p : Cursor.isFullyRead p = true → Cursor.unread p = [].
Proof.
  unfold Cursor.isFullyRead, Cursor.tokensLeft, Cursor.unread. intros H.
  apply Z.leb_le in H. apply drop_ge. lia.
Qed.

Lemma not_fully_read p :
  Cursor.isFullyRead p = false →
  ∃ t, Cursor.tokenStrings p !! Cursor.nextTokenIndex p = Some t
       ∧ Cursor.unread p
         = t :: Cursor.unread (Cursor.mkPointer (Cursor.tokenStrings p)
                                 (S (Cursor.nextTokenIndex p))).
Proof.
  unfold Cursor.isFullyRead, Cursor.tokensLeft, Cursor.unread. intros H.
  apply Z.leb_gt in H.
  destruct (lookup_lt_is_Some_2 (Cursor.tokenStrings p)
              (Cursor.nextTokenIndex p)) as [t Ht]; [lia|].
  exists t. split; [done|]. by apply drop_S.
Qed.

Lemma nothing_to_read p :
  Cursor.tokenStrings p !! Cursor.nextTokenIndex p = None → Cursor.unread p = [].
Proof. intros H. apply lookup_ge_None in H. by apply drop_ge. Qed.

Lemma cursor_has fuel : ∀ element p,
  (length (Cursor.tokenStrings p) - Cursor.nextTokenIndex p < fuel)%nat →
  ∃ p', Cursor.has fuel element p = Some (p', has element (Cursor.unread p))
        ∧ Cursor.tokenStrings p' = Cursor.tokenStrings p.
Proof.
  induction fuel as [|fuel IH]; intros element p Hfuel; [lia|].
  cbn [Cursor.has]. destruct (Cursor.isFullyRead p) eqn:Hread.
  - rewrite (fully_read p Hread). by exists p.
  - destruct (not_fully_read p Hread) as (t & Ht & ->).
    unfold Cursor.readNextTokenInContext. rewrite Ht. cbn [has].
    destruct (parseTokenString t element) as [index|e]; cbn;
      [|by eexists].
    destruct (member element index) as [deeper|]; [|by eexists].
    apply (IH deeper (Cursor.mkPointer (Cursor.tokenStrings p)
                        (S (Cursor.nextTokenIndex p)))). cbn.
    apply lookup_lt_Some in Ht. lia.
Qed.

Lemma cursor_get fuel : ∀ element p,
  (length (Cursor.tokenStrings p) - Cursor.nextTokenIndex p < fuel)%nat →
  ∃ p', Cursor.get fuel element p = Some (p', get element (Cursor.unread p))
        ∧ Cursor.tokenStrings p' = Cursor.tokenStrings p.
Proof.
  induction fuel as [|fuel IH]; intros element p Hfuel; [lia|].
  cbn [Cursor.get]. destruct (Cursor.isFullyRead p) eqn:Hread.
  - rewrite (fully_read p Hread). by exists p.
  - destruct (not_fully_read p Hread) as (t & Ht & ->).
    unfold Cursor.readNextTokenInContext. rewrite Ht. cbn [get].
    destruct (parseTokenString t element) as [index|e]; cbn;
      [|by eexists].
    destruct (member element index) as [deeper|]; [|by eexists].
    apply (IH deeper (Cursor.mkPointer (Cursor.tokenStrings p)
                        (S (Cursor.nextTokenIndex p)))). cbn.
    apply lookup_lt_Some in Ht. lia.
Qed.

(** Reading a token and asking whether it was the last one, against the
    match on the tokens that are left. *)
Lemma read_then_ask p t :
  Cursor.tokenStrings p !! Cursor.nextTokenIndex p = Some t →
  let p1 := Cursor.mkPointer (Cursor.tokenStrings p)
              (S (Cursor.nextTokenIndex p)) in
  Cursor.unread p = t :: Cursor.unread p1
  ∧ (Cursor.isFullyRead p1 = true ∧ Cursor.unread p1 = []
     ∨ Cursor.isFullyRead p1 = false ∧ ∃ t' rest, Cursor.unread p1 = t' :: rest).
Proof.
  intros Ht p1. split; [by apply drop_S|].
  destruct (Cursor.isFullyRead p1) eqn:Hread.
  - left. split; [done|]. by apply fully_read.
  - right. split; [done|].
    destruct (not_fully_read p1 Hread) as (t' & _ & ->). by eexists _, _.
Qed.

Lemma cursor_add fuel : ∀ element p value,
  (length (Cursor.tokenStrings p) - Cursor.nextTokenIndex p < fuel)%nat →
  ∃ p', Cursor.add fuel element p value
        = Some (p', add element (Cursor.unread p) value)
        ∧ Cursor.tokenStrings p' = Cursor.tokenStrings p.
Proof.
  induction fuel as [|fuel IH]; intros element p value Hfuel; [lia|].
  cbn [Cursor.add]. unfold Cursor.readNextTokenInContext.
  destruct (Cursor.tokenStrings p !! Cursor.nextTokenIndex p) as [t|] eqn:Ht.
  - destruct (read_then_ask p t Ht) as [-> Hask].
    set (p1 := Cursor.mkPointer _ _) in *.
    assert (Hfuel1 : (length (Cursor.tokenStrings p1)
                      - Cursor.nextTokenIndex p1 < fuel)%nat).
    { cbn. apply lookup_lt_Some in Ht. lia. }
    cbn [add]. destruct (parseTokenString t element) as [index|e];
      cbn [mbind result_bind]; [|by eexists].
    destruct Hask as [[-> ->]|(-> & t' & rest & Hrest)].
    + by eexists.
    + rewrite Hrest.
      destruct (member element index) as [deeperElement|]; [|by eexists].
      destruct (negb (isArray deeperElement) && negb (isObject deeperElement));
        [by eexists|].
      destruct (IH deeperElement p1 value Hfuel1) as (p' & -> & Hp').
      rewrite Hrest.
      destruct (add deeperElement (t' :: rest) value); by eexists.
  - rewrite (nothing_to_read p Ht). by eexists.
Qed.

Lemma cursor_replace fuel : ∀ element p value,
  (length (Cursor.tokenStrings p) - Cursor.nextTokenIndex p < fuel)%nat →
  ∃ p', Cursor.replace fuel element p value
        = Some (p', replace element (Cursor.unread p) value)
        ∧ Cursor.tokenStrings p' = Cursor.tokenStrings p.
Proof.
  induction fuel as [|fuel IH]; intros element p value Hfuel; [lia|].
  cbn [Cursor.replace]. unfold Cursor.readNextTokenInContext.
  destruct (Cursor.tokenStrings p !! Cursor.nextTokenIndex p) as [t|] eqn:Ht.
  - destruct (read_then_ask p t Ht) as [-> Hask].
    set (p1 := Cursor.mkPointer _ _) in *.
    assert (Hfuel1 : (length (Cursor.tokenStrings p1)
                      - Cursor.nextTokenIndex p1 < fuel)%nat).
    { cbn. apply lookup_lt_Some in Ht. lia. }
    cbn [replace]. destruct (parseTokenString t element) as [index|e];
      cbn [mbind result_bind]; [|by eexists].
    destruct Hask as [[-> ->]|(-> & t' & rest & Hrest)].
    + by eexists.
    + rewrite Hrest.
      destruct (member element index) as [deeperElement|]; [|by eexists].
      destruct (negb (isArray deeperElement) && negb (isObject deeperElement));
        [by eexists|].
      destruct (IH deeperElement p1 value Hfuel1) as (p' & -> & Hp').
      rewrite Hrest.
      destruct (replace deeperElement (t' :: rest) value); by eexists.
  - rewrite (nothing_to_read p Ht). by eexists.
Qed.

Lemma cursor_remove fuel : ∀ element p,
  (length (Cursor.tokenStrings p) - Cursor.nextTokenIndex p < fuel)%nat →
  ∃ p', Cursor.remove fuel element p = Some (p', remove element (Cursor.unread p))
        ∧ Cursor.tokenStrings p' = Cursor.tokenStrings p.
Proof.
  induction fuel as [|fuel IH]; intros element p Hfuel; [lia|].
  cbn [Cursor.remove]. unfold Cursor.readNextTokenInContext.
  destruct (Cursor.tokenStrings p !! Cursor.nextTokenIndex p) as [t|] eqn:Ht.
  - destruct (read_then_ask p t Ht) as [-> Hask].
    set (p1 := Cursor.mkPointer _ _) in *.
    assert (Hfuel1 : (length (Cursor.tokenStrings p1)
                      - Cursor.nextTokenIndex p1 < fuel)%nat).
    { cbn. apply lookup_lt_Some in Ht. lia. }
    cbn [remove]. destruct (parseTokenString t element) as [index|e];
      cbn [mbind result_bind]; [|by eexists].
    destruct Hask as [[-> ->]|(-> & t' & rest & Hrest)].
    + destruct (member element index); by eexists.
    + rewrite Hrest.
      destruct (member element index) as [deeperElement|]; [|by eexists].
      destruct (negb (isArray deeperElement) && negb (isObject deeperElement));
        [by eexists|].
      destruct (IH deeperElement p1 Hfuel1) as (p' & -> & Hp').
      rewrite Hrest.
      destruct (remove deeperElement (t' :: rest)); by eexists.
  - rewrite (nothing_to_read p Ht). by eexists.
Qed.

End Cursors.

(** X25. The walks with a cursor are the walks over the tokens that the
    cursor has not passed. With more fuel than tokens are left, each of the
    five walks returns or throws what the walk over the unread tokens does,
    and it leaves the token strings of the pointer as they were. *)
Theorem cursor_walks_unread_tokens (fuel : nat) (element value : JsonValue)
    (p : Cursor.Pointer) :
  (length (Cursor.tokenStrings p) - Cursor.nextTokenIndex p < fuel)%nat →
  (∃ p', Cursor.has fuel element p
         = Some (p', has element (Cursor.unread p))
         ∧ Cursor.tokenStrings p' = Cursor.tokenStrings p)
  ∧ (∃ p', Cursor.get fuel element p
           = Some (p', get element (Cursor.unread p))
           ∧ Cursor.tokenStrings p' = Cursor.tokenStrings p)
  ∧ (∃ p', Cursor.add fuel element p value
           = Some (p', add element (Cursor.unread p) value)
           ∧ Cursor.tokenStrings p' = Cursor.tokenStrings p)
  ∧ (∃ p', Cursor.replace fuel element p value
           = Some (p', replace element (Cursor.unread p) value)
           ∧ Cursor.tokenStrings p' = Cursor.tokenStrings p)
  ∧ (∃ p', Cursor.remove fuel element p
           = Some (p', remove element (Cursor.unread p))
           ∧ Cursor.tokenStrings p' = Cursor.tokenStrings p).
Proof.
  intros Hfuel. split_and!.
  - by apply cursor_has.
  - by apply cursor_get.
  - by apply cursor_add.
  - by apply cursor_replace.
  - by apply cursor_remove.
Qed.

Lemma cursor_walks_unread_tokens_witness :
  let p := Cursor.mkPointer ["a"; "b"] 1 in
  let element := JObject {[ "b" := JNumber 1 ]} in
  (∃ p', Cursor.has 2 element p = Some (p', has element (Cursor.unread p))
         ∧ Cursor.tokenStrings p' = Cursor.tokenStrings p)
  ∧ (∃ p', Cursor.get 2 element p = Some (p', get element (Cursor.unread p))
           ∧ Cursor.tokenStrings p' = Cursor.tokenStrings p)
  ∧ (∃ p', Cursor.add 2 element p JNull
           = Some (p', add element (Cursor.unread p) JNull)
           ∧ Cursor.tokenStrings p' = Cursor.tokenStrings p)
  ∧ (∃ p', Cursor.replace 2 element p JNull
           = Some (p', replace element (Cursor.unread p) JNull)
           ∧ Cursor.tokenStrings p' = Cursor.tokenStrings p)
  ∧ (∃ p', Cursor.remove 2 element p
           = Some (p', remove element (Cursor.unread p))
           ∧ Cursor.tokenStrings p' = Cursor.tokenStrings p).
Proof.
  intros p element.
  apply (cursor_walks_unread_tokens 2 element JNull p). cbn. lia.
Defined.

Section CursorOperations.

Lemma new_Pointer path :
  Cursor.new path
  = match Pointer path with
    | Ok tokenStrings => Ok (Cursor.mkPointer tokenStrings 0)
    | Throw e => Throw e
    end.
Proof.
  unfold Cursor.new, Pointer. by destruct (validatePath path).
Qed.

Lemma cursor_isPrefixTo_from n : ∀ this another,
  forallb
    (λ entry : nat * string,
       match another !! entry.1 with
       | Some other => String.eqb entry.2 other
       | None => false
       end)
    (imap (λ i, pair (n + i)%nat) this)
  = isPrefixTo this (drop n another).
Proof.
  intros this. revert n.
  induction this as [|t this IH]; intros n another; [done|].
  cbn [imap forallb isPrefixTo fst snd]. rewrite Nat.add_0_r.
  destruct (another !! n) as [other|] eqn:Hn.
  - rewrite (drop_S _ _ _ Hn).
    destruct (String.eqb t other); [|done]. cbn [andb].
    rewrite <-(IH (S n) another). f_equal.
    apply imap_ext. intros i x _. cbn. f_equal. lia.
  - apply lookup_ge_None in Hn. by rewrite drop_ge.
Qed.

Lemma cursor_isPrefixTo this anotherPointer :
  Cursor.isPrefixTo this anotherPointer
  = isPrefixTo (Cursor.tokenStrings this) (Cursor.tokenStrings anotherPointer).
Proof.
  unfold Cursor.isPrefixTo.
  by rewrite <-(cursor_isPrefixTo_from 0 _ (Cursor.tokenStrings anotherPointer)).
Qed.

(** A walk along a pointer whose cursor is at the start. *)
Lemma from_the_start tokenStrings :
  let p := Cursor.mkPointer tokenStrings 0 in
  Cursor.unread p = tokenStrings
  ∧ (length (Cursor.tokenStrings p) - Cursor.nextTokenIndex p
     < Cursor.enough p)%nat.
Proof. cbn. split; [done|]. unfold Cursor.enough. cbn. lia. Qed.

Lemma rewound p :
  Cursor.rewind p = Cursor.mkPointer (Cursor.tokenStrings p) 0.
Proof. done. Qed.

Lemma cursor_applyOperation D o :
  Cursor.applyOperation D o = Some (applyOperation D o).
Proof.
  unfold Cursor.applyOperation, applyOperation.
  destruct (String.eqb (op o) "add").
  { destruct (value o) as [v|]; [|done].
    destruct (is_root (path o)); [done|].
    rewrite new_Pointer. destruct (Pointer (path o)) as [ts|e]; [|done].
    destruct (from_the_start ts) as [Hts Hfuel].
    destruct (cursor_add _ D _ v Hfuel) as (p' & -> & _).
    rewrite Hts. cbn. by destruct (add D ts v). }
  destruct (String.eqb (op o) "copy").
  { destruct (from o) as [f|]; [|done].
    rewrite new_Pointer. destruct (Pointer (Some f)) as [fs|e]; [|done].
    destruct (from_the_start fs) as [Hfs Hfuel].
    destruct (cursor_get _ D _ Hfuel) as (p' & -> & _).
    rewrite Hfs. cbn [mbind result_bind].
    destruct (get D fs) as [v|e]; [|done].
    destruct (is_root (path o)); [done|].
    rewrite new_Pointer. destruct (Pointer (path o)) as [ts|e]; [|done].
    destruct (from_the_start ts) as [Hts Hfuel'].
    destruct (cursor_add _ D _ v Hfuel') as (p'' & -> & _).
    rewrite Hts. cbn. by destruct (add D ts v). }
  destruct (String.eqb (op o) "move").
  { destruct (from o) as [f|]; [|done].
    destruct (bool_decide (Some f = path o)); [done|].
    rewrite !new_Pointer. destruct (Pointer (Some f)) as [fs|e]; [|done].
    destruct (Pointer (path o)) as [ts|e]; [|done].
    cbn [mbind result_bind]. rewrite cursor_isPrefixTo.
    cbn [Cursor.tokenStrings].
    destruct (isPrefixTo fs ts); [done|].
    destruct (from_the_start fs) as [Hfs Hfuel].
    destruct (cursor_get _ D _ Hfuel) as (fp & -> & Hfp).
    rewrite Hfs. destruct (get D fs) as [v|e]; [|done].
    cbn [mbind result_bind].
    destruct (is_root (path o)); [done|].
    destruct (from_the_start ts) as [Hts Hfuel'].
    destruct (cursor_replace _ D _ v Hfuel') as (pp & -> & Hpp).
    rewrite Hts. destruct (replace D ts v) as [document'|e]; [|done].
    cbn [mbind result_bind]. rewrite cursor_isPrefixTo, Hfp, Hpp.
    cbn [Cursor.tokenStrings].
    destruct (isPrefixTo ts fs); [done|].
    cbv zeta. rewrite rewound, Hfp. cbn [Cursor.tokenStrings].
    destruct (cursor_remove _ document' _ Hfuel) as (p'' & -> & _).
    rewrite Hfs. cbn. by destruct (remove document' fs). }
  destruct (String.eqb (op o) "remove").
  { destruct (is_root (path o)); [done|].
    rewrite new_Pointer. destruct (Pointer (path o)) as [ts|e]; [|done].
    destruct (from_the_start ts) as [Hts Hfuel].
    destruct (cursor_remove _ D _ Hfuel) as (p' & -> & _).
    rewrite Hts. cbn. by destruct (remove D ts). }
  destruct (String.eqb (op o) "replace").
  { destruct (value o) as [v|]; [|done].
    destruct (is_root (path o)); [done|].
    rewrite new_Pointer. destruct (Pointer (path o)) as [ts|e]; [|done].
    destruct (from_the_start ts) as [Hts Hfuel].
    destruct (cursor_has _ D _ Hfuel) as (p' & -> & Hp').
    rewrite Hts. cbn [mbind result_bind].
    destruct (has D ts) as [found|e]; [|done].
    cbn [mbind result_bind]. destruct found; [|done]. cbn [negb].
    cbv zeta. rewrite rewound, Hp'. cbn [Cursor.tokenStrings].
    destruct (cursor_replace _ D _ v Hfuel) as (p'' & -> & _).
    rewrite Hts. cbn. by destruct (replace D ts v). }
  destruct (String.eqb (op o) "test"); [|done].
  destruct (value o) as [v|]; [|done].
  rewrite new_Pointer. destruct (Pointer (path o)) as [ts|e]; [|done].
  destruct (from_the_start ts) as [Hts Hfuel].
  destruct (cursor_get _ D _ Hfuel) as (p' & -> & _).
  rewrite Hts. cbn [mbind result_bind].
  destruct (get D ts) as [target|e]; [|done].
  cbn [mbind result_bind]. by destruct (compare v target) as [[]|e].
Qed.

End CursorOperations.

(** X26. Operations and patches over pointers with a cursor are the
    operations and patches over token lists: they return (enough fuel is
    given to every walk), and they return or throw the same. The two
    calls of [rewind], before the [replace] that follows [has] and before
    the [remove] that follows [get] in a move, are what makes the second
    walk read the pointer from its first token. *)
Theorem cursor_patches (D : JsonValue) (patch : list Operation) :
  Cursor.applyPatch D patch = Some (applyPatch D patch).
Proof.
  revert D. induction patch as [|o patch IH]; intros D; [done|].
  cbn [Cursor.applyPatch applyPatch]. rewrite cursor_applyOperation.
  destruct (applyOperation D o) as [D'|e]; [|done]. apply IH.
Qed.

(** X27. The loop of [isPrefixTo] over the entries of the token strings
    of this pointer, which compares each with the token of the same index
    of the other pointer, decides that the tokens of this pointer are the
    first tokens of the other one, wherever the two cursors are. *)
Theorem cursor_isPrefixTo_iff_prefix (this anotherPointer : Cursor.Pointer) :
  Cursor.isPrefixTo this anotherPointer = true ↔
  Cursor.tokenStrings this `prefix_of` Cursor.tokenStrings anotherPointer.
Proof.
  rewrite cursor_isPrefixTo.
  generalize (Cursor.tokenStrings anotherPointer) as another.
  induction (Cursor.tokenStrings this) as [|t ts IH]; intros another.
  - split; [intros _; apply prefix_nil|done].
  - destruct another as [|o another].
    + split; [done|]. intros H. by apply prefix_nil_not in H.
    + cbn [isPrefixTo]. destruct (String.eqb_spec t o) as [->|Hne].
      * rewrite IH. split; [apply prefix_cons|apply prefix_cons_inv_2].
      * split; [done|]. intros H. by apply prefix_cons_inv_1 in H.
Qed.

(** X28. The cursor. [readNextTokenInContext] throws "pointer is already
    fully read" exactly on a pointer that [isFullyRead], and then it does
    not move the cursor; on any other pointer it moves the cursor by one
    token, which leaves one token less. [rewind] leaves all tokens
    unread. *)
Theorem cursor_reads_one_token (p : Cursor.Pointer) (contextItem : JsonValue) :
  let (p', r) := Cursor.readNextTokenInContext p contextItem in
  (Cursor.isFullyRead p = true ↔ r = Throw (error PointerExhausted))
  ∧ (if Cursor.isFullyRead p then p' = p
     else Cursor.tokensLeft p' = Cursor.tokensLeft p - 1
          ∧ Cursor.tokenStrings p' = Cursor.tokenStrings p)
  ∧ Cursor.unread (Cursor.rewind p') = Cursor.tokenStrings p.
Proof.
  unfold Cursor.readNextTokenInContext, Cursor.isFullyRead,
    Cursor.tokensLeft.
  destruct (Cursor.tokenStrings p !! Cursor.nextTokenIndex p) as [t|] eqn:Ht.
  - pose proof (lookup_lt_Some _ _ _ Ht) as Hlt.
    destruct (Z.leb_spec
      (Z.of_nat (length (Cursor.tokenStrings p))
       - Z.of_nat (Cursor.nextTokenIndex p)) 0); [lia|].
    split; [|split; [|done]].
    + split; [done|]. intros Hx.
      destruct (parseTokenString_kinds t contextItem _ Hx); done.
    + cbn [Cursor.tokenStrings Cursor.nextTokenIndex]. split; [lia|done].
  - pose proof (proj1 (lookup_ge_None _ _) Ht) as Hge.
    destruct (Z.leb_spec
      (Z.of_nat (length (Cursor.tokenStrings p))
       - Z.of_nat (Cursor.nextTokenIndex p)) 0); [|lia].
    split; [|split]; [|done|].
    + by split.
    + unfold Cursor.unread, Cursor.rewind. cbn. apply drop_0.
Qed.

(** ** Moving inside an array *)

(** X29. A move inside a root array, from the index [i] to another index
    [j]: the value is put over the element of index [j] (after the end of
    the array when it has no such element, whatever [j] is), and then the
    element of index [i] is taken out. The element that was at [j] is not
    in the result. *)
Theorem move_within_array (a : list JsonValue) (i j : nat) (x : JsonValue) :
  i ≠ j → a !! i = Some x →
  applyPatch (JArray a)
    [op_move (String "/" (pretty i)) (String "/" (pretty j))]
  = Ok (JArray (delete i match a !! j with
                         | Some _ => <[j := x]> a
                         | None => a ++ [x]
                         end)).
Proof.
  intros Hne Hx. rewrite applyPatch_one.
  destruct (applyOperation_equations (JArray a) (String "/" (pretty j))
              (String "/" (pretty i)) x) as (_ & _ & _ & _ & _ & ->).
  assert (Hij : pretty i ≠ pretty j) by (intros H; by apply (inj pretty) in H).
  rewrite bool_decide_eq_false_2 by congruence.
  change (is_root (Some (String "/" (pretty j)))) with false.
  rewrite !Pointer_numeral. cbn [mbind result_bind isPrefixTo].
  assert (String.eqb (pretty i) (pretty j) = false) as ->
    by by apply String.eqb_neq.
  assert (String.eqb (pretty j) (pretty i) = false) as ->
    by by apply String.eqb_neq.
  destruct (walk_to_element a i x) as (-> & _). rewrite Hx.
  cbn [mbind result_bind].
  destruct (walk_to_element a j x) as (_ & _ & -> & _).
  cbn [mbind result_bind].
  set (a' := match a !! j with Some _ => <[j := x]> a | None => a ++ [x] end).
  destruct (walk_to_element a' i x) as (_ & _ & _ & ->).
  assert (a' !! i = Some x) as ->; [|done].
  unfold a'. destruct (a !! j).
  - by rewrite list_lookup_insert_ne.
  - by apply lookup_app_l_Some.
Qed.

Lemma move_within_array_witness :
  applyPatch (JArray [JString "a"; JString "b"; JString "c"])
    [op_move (String "/" (pretty 0%nat)) (String "/" (pretty 1%nat))]
  = Ok (JArray (delete 0%nat
                  match [JString "a"; JString "b"; JString "c"] !! 1%nat with
                  | Some _ =>
                      <[1%nat := JString "a"]>
                        [JString "a"; JString "b"; JString "c"]
                  | None =>
                      [JString "a"; JString "b"; JString "c"] ++ [JString "a"]
                  end)).
Proof.
  apply (move_within_array [JString "a"; JString "b"; JString "c"] 0 1
           (JString "a")).
  - lia.
  - reflexivity.
Defined.

(** ** Removing and then adding *)

Section Restore.

#[local] Arguments parseTokenString : simpl never.
#[local] Arguments Js.splice : simpl never.
#[local] Arguments Js.at_index : simpl never.

Lemma remove_container D pointer D1 :
  remove D pointer = Ok D1 → isArray D1 || isObject D1 = true.
Proof.
  destruct pointer as [|t rest]; [done|]. cbn [remove].
  destruct (parseTokenString t D) as [index|] eqn:Ht; [|done].
  cbn [mbind result_bind].
  assert (Hre : ∀ n m, isArray (rebuild D index n m)
                       || isObject (rebuild D index n m) = true).
  { intros n m. by destruct (parseTokenString_cases _ _ _ Ht)
      as [(o & -> & ->)|(a & i & -> & ->)]. }
  destruct rest as [|t' rest].
  - destruct (member D index); [|done]. intros [= <-].
    by destruct (parseTokenString_cases _ _ _ Ht)
      as [(o & -> & ->)|(a & i & -> & ->)].
  - destruct (member D index) as [deeper|]; [|done].
    destruct (negb (isArray deeper) && negb (isObject deeper)); [done|].
    destruct (remove deeper (t' :: rest)) as [m|]; [|done].
    cbn [mbind result_bind]. intros [= <-]. apply Hre.
Qed.

Lemma insert_deleted {A} (a : list A) n x :
  a !! n = Some x →
  take n (delete n a) ++ x :: drop n (delete n a) = a.
Proof.
  intros Hx. pose proof (lookup_lt_Some _ _ _ Hx) as Hn.
  rewrite delete_take_drop.
  rewrite take_app_length' by (rewrite length_take; lia).
  rewrite drop_app_length' by (rewrite length_take; lia).
  by apply take_drop_middle.
Qed.

Lemma remove_add_last_array a t v D1 :
  through_objects (JArray a) [t] = true →
  get (JArray a) [t] = Ok v →
  remove (JArray a) [t] = Ok D1 →
  add D1 [t] v = Ok (JArray a).
Proof.
  cbn [through_objects get remove]. intros Hplain Hget Hremove.
  apply andb_true_iff in Hplain as [Hdash Hpos].
  apply negb_true_iff in Hdash.
  destruct (parseTokenString t (JArray a)) as [[k|i]|] eqn:Ht; try done.
  cbn [mbind result_bind member] in *.
  destruct (Js.at_index a i) as [x|] eqn:Hx; [|done].
  injection Hget as ->. injection Hremove as <-.
  apply at_index_Some in Hx as (H0 & Hi & Hx). cbn [without].
  rewrite splice_delete_at by done.
  rewrite (add_final_array _ t i)
    by (by rewrite (parseTokenString_array_indep t a)).
  rewrite length_delete by eauto.
  destruct (Z.ltb_spec (Z.of_nat (length a - 1)) i); [lia|].
  rewrite splice_insert_before by (rewrite ?length_delete by eauto; lia).
  by rewrite insert_deleted.
Qed.

Lemma remove_add_walk pointer : ∀ D v D1,
  through_objects D pointer = true →
  get D pointer = Ok v →
  remove D pointer = Ok D1 →
  add D1 pointer v = Ok D.
Proof.
  induction pointer as [|t rest IH]; intros D v D1 Hplain Hget Hremove;
    [done|].
  destruct rest as [|t' rest].
  - destruct D as [| | | |a|o]; try discriminate Hplain.
    + by eapply remove_add_last_array.
    + destruct (last_object_equations o t v) as (Hg & _ & Hr).
      rewrite Hg in Hget. rewrite Hr in Hremove.
      destruct (o !! decodedTokenString t) as [d|] eqn:Hk; [|done].
      injection Hget as ->. injection Hremove as <-.
      destruct (last_object_equations (delete (decodedTokenString t) o) t v)
        as (_ & -> & _).
      by rewrite insert_delete_id.
  - destruct D as [| | | |a|o]; try discriminate Hplain.
    destruct (walk_object_equations o t t' rest v) as (Hg & _ & Hr & Hp).
    rewrite Hp in Hplain. rewrite Hg in Hget. rewrite Hr in Hremove.
    set (k := decodedTokenString t) in *.
    destruct (o !! k) as [deeper|] eqn:Hk; [|done].
    destruct (negb (isArray deeper) && negb (isObject deeper)) eqn:Hc;
      [done|].
    destruct (remove deeper (t' :: rest)) as [m|] eqn:Hdeep; [|done].
    injection Hremove as <-.
    destruct (walk_object_equations (<[k := m]> o) t t' rest v)
      as (_ & -> & _). fold k. rewrite lookup_insert_eq.
    rewrite (container_negb m) by by eapply remove_container.
    rewrite (IH deeper v m) by done.
    cbn [mbind result_bind]. by rewrite insert_insert_eq, insert_id.
Qed.

End Restore.

(** X30. A remove is undone by an add. On a path of literal tokens that
    leads to the value [v] through objects, with a last token that names a
    member of an object or is an index of an array, neither "-" nor
    negative, removing at that path and then adding [v] at it returns the
    document. *)
Theorem remove_then_add_restores (D : JsonValue) (P : string)
    (pointer : list string) (v : JsonValue) :
  literal_path P = true →
  plain_path D P = true →
  Pointer (Some P) = Ok pointer →
  get D pointer = Ok v →
  applyPatch D [op_remove P; op_add P v] = Ok D.
Proof.
  unfold plain_path. intros _ Hplain HP Hget. rewrite HP in Hplain.
  assert (Hroot : is_root (Some P) = false).
  { unfold is_root. apply bool_decide_eq_false_2. intros [= ->].
    injection HP as <-. discriminate Hplain. }
  change [op_remove P; op_add P v] with ([op_remove P] ++ [op_add P v]).
  rewrite pure_applyPatch_app, applyPatch_one.
  destruct (applyOperation_equations D P P v) as (_ & -> & _).
  rewrite Hroot, HP. cbn [mbind result_bind].
  pose proof (remove_get pointer D (Pointer_not_root _ _ HP Hroot)) as Hr.
  rewrite Hget in Hr. destruct Hr as [D1 Hremove]. rewrite Hremove.
  cbn [try_describe mbind result_bind]. rewrite applyPatch_one.
  destruct (applyOperation_equations D1 P P v) as (-> & _).
  rewrite Hroot, HP. cbn [mbind result_bind].
  by rewrite (remove_add_walk pointer D v D1).
Qed.

Lemma remove_then_add_restores_witness :
  applyPatch (JObject {[ "a" := JArray [JNumber 1; JNumber 2] ]})
    [op_remove "/a/0"; op_add "/a/0" (JNumber 1)]
  = Ok (JObject {[ "a" := JArray [JNumber 1; JNumber 2] ]}).
Proof.
  apply (remove_then_add_restores
           (JObject {[ "a" := JArray [JNumber 1; JNumber 2] ]})
           "/a/0" ["a"; "0"] (JNumber 1)); reflexivity.
Defined.
